(** * dpsnnn-alert: the reservation polling engine of [src/index.ts]

    A shallow embedding of the crawler: the notification history
    ([emailSentHistory], a [Map<string, number>]) is a [gmap string Z], the
    clock is an integer number of milliseconds, async functions are
    resumptions that suspend at every [await], and the browser and the mail
    transport answer through scripted responses. *)

From Stdlib Require Import ZArith Ascii String List Bool Lia.
From stdpp Require Import base tactics option list strings sorting gmap fin_maps.

Open Scope string_scope.
Open Scope Z_scope.

(** ** Constants of the module *)

Definition DPSNNN_G_URL : string := "https://www.dpsnnn.com/reserve_g".

(** [const CONCURRENT_LIMIT = 7] *)
Definition CONCURRENT_LIMIT : nat := 7.

(** [const EMAIL_COOLDOWN_MS = 30 * 60 * 1000] *)
Definition EMAIL_COOLDOWN_MS : Z := 30 * 60 * 1000.

(** ** The notification history

    [emailSentHistory] maps a url to the time of the last mail sent for it.
    Every function below reads the clock once ([Date.now()]); the reading is
    the argument [now]. *)

Module Dedup.

(** [canSendEmail]: [!lastSent] holds for [undefined] (no entry) and for
    the number [0]. *)
Definition canSendEmail (now : Z) (h : gmap string Z) (url : string) : bool :=
  match h !! url with
  | None => true
  | Some lastSent =>
      if lastSent =? 0 then true
      else EMAIL_COOLDOWN_MS <=? now - lastSent
  end.

(** [recordEmailSent]: [emailSentHistory.set(url, Date.now())]. *)
Definition recordEmailSent (now : Z) (h : gmap string Z) (url : string)
  : gmap string Z :=
  <[url := now]> h.

(** The first [forEach] of [cleanupOldEmailHistory]: the keys whose entry
    is at least the cooldown old. *)
Definition keysToDelete (now : Z) (h : gmap string Z) : list string :=
  (filter (λ kt : string * Z, EMAIL_COOLDOWN_MS ≤ now - kt.2)
          (map_to_list h)).*1.

(** [cleanupOldEmailHistory]: the history after the deletions, and the
    number that the function prints when it is positive. *)
Definition cleanupOldEmailHistory (now : Z) (h : gmap string Z)
  : gmap string Z * option nat :=
  let keys := keysToDelete now h in
  (foldr delete h keys,
   if (0 <? length keys)%nat then Some (length keys) else None).

End Dedup.

(** ** Calendar dates and the rolling window *)

Record CalDate := mkDate { year : Z; month : Z; day : Z }.

Definition isLeapYear (y : Z) : bool :=
  (y mod 4 =? 0) && (negb (y mod 100 =? 0) || (y mod 400 =? 0)).

Definition daysInMonth (y m : Z) : Z :=
  if m =? 2 then (if isLeapYear y then 29 else 28)
  else if (m =? 4) || (m =? 6) || (m =? 9) || (m =? 11) then 30
  else 31.

(** [currentDate.add(1, 'day')]: the next day of the calendar. *)
Definition addDay (d : CalDate) : CalDate :=
  if day d <? daysInMonth (year d) (month d)
  then mkDate (year d) (month d) (day d + 1)
  else if month d <? 12
       then mkDate (year d) (month d + 1) 1
       else mkDate (year d + 1) 1 1.

Definition digitChar (n : Z) : ascii := ascii_of_nat (48 + Z.to_nat n).

Definition pad2 (n : Z) : string :=
  String (digitChar (n / 10 mod 10)) (String (digitChar (n mod 10)) "").

Definition pad4 (n : Z) : string :=
  String (digitChar (n / 1000 mod 10))
    (String (digitChar (n / 100 mod 10)) (pad2 n)).

(** [format('YYYYMMDD')], for years of four digits. *)
Definition formatYYYYMMDD (d : CalDate) : string :=
  pad4 (year d) ++ pad2 (month d) ++ pad2 (day d).

(** The loop of [getWeekDates], [n] iterations left. *)
Fixpoint weekLoop (n : nat) (currentDate : CalDate) : list string :=
  match n with
  | O => []
  | S n' => formatYYYYMMDD currentDate :: weekLoop n' (addDay currentDate)
  end.

(** [getWeekDates]; [today] is the date that [dayjs().tz('Asia/Seoul')]
    reads from the clock. *)
Definition getWeekDates (today : CalDate) : list string := weekLoop 7 today.

(** ** Search tasks *)

Record SearchItem := mkItem { item_idx : string }.

Record SearchTask := mkTask { idx : string; date : string; url : string }.

Definition taskUrl (i d : string) : string :=
  DPSNNN_G_URL ++ "?idx=" ++ i ++ "&day=" ++ d ++ "&endDay=" ++ d.

(** The two nested [for ... of] loops of [runCrawlingCycle]. *)
Definition buildSearchTasks (gSearchList : list SearchItem)
    (weekDates : list string) : list SearchTask :=
  flat_map (λ item,
      map (λ d, mkTask (item_idx item) d (taskUrl (item_idx item) d)) weekDates)
    gSearchList.

(** ** The environment

    A value of [process.env] is a string or [undefined]; a string is the
    sequence of the bytes of its UTF-8 text. *)

(** [s.split(sep)] for a separator of one character. *)
Fixpoint splitOn (sep : ascii) (l : list ascii) : list (list ascii) :=
  match l with
  | [] => [[]]
  | c :: l' =>
      if decide (c = sep) then [] :: splitOn sep l'
      else match splitOn sep l' with
           | [] => [[c]]
           | piece :: pieces => (c :: piece) :: pieces
           end
  end.

Definition split (sep : ascii) (s : string) : list string :=
  string_of_list_ascii <$> splitOn sep (list_ascii_of_string s).

(** [pieces.join(sep)] *)
Fixpoint join (sep : string) (pieces : list string) : string :=
  match pieces with
  | [] => ""
  | [piece] => piece
  | piece :: rest => piece ++ sep ++ join sep rest
  end.

(** The white space and the line terminators of ECMAScript, which
    [trim()] removes, each as the bytes of its UTF-8 text: U+0009 to
    U+000D, U+0020, U+00A0, U+1680, U+2000 to U+200A, U+2028, U+2029,
    U+202F, U+205F, U+3000 and U+FEFF. *)
Definition whiteSpace : list (list ascii) :=
  (map ascii_of_nat) <$>
    [[9]; [10]; [11]; [12]; [13]; [32]; [194; 160]; [225; 154; 128];
     [226; 128; 128]; [226; 128; 129]; [226; 128; 130]; [226; 128; 131];
     [226; 128; 132]; [226; 128; 133]; [226; 128; 134]; [226; 128; 135];
     [226; 128; 136]; [226; 128; 137]; [226; 128; 138];
     [226; 128; 168]; [226; 128; 169]; [226; 128; 175];
     [226; 129; 159]; [227; 128; 128]; [239; 187; 191]]%nat.

(** [l] without the characters [w] it starts with. *)
Definition stripPrefix (w l : list ascii) : option (list ascii) :=
  if bool_decide (take (length w) l = w) then Some (drop (length w) l)
  else None.

(** [l] without the first of the [ws] it starts with. *)
Fixpoint dropAny (ws : list (list ascii)) (l : list ascii)
  : option (list ascii) :=
  match ws with
  | [] => None
  | w :: ws' =>
      match stripPrefix w l with
      | Some rest => Some rest
      | None => dropAny ws' l
      end
  end.

(** The [ws] at the start of [l] removed, one at a time. *)
Fixpoint dropAll (ws : list (list ascii)) (fuel : nat) (l : list ascii)
  : list ascii :=
  match fuel with
  | O => l
  | S fuel' =>
      match dropAny ws l with
      | Some rest => dropAll ws fuel' rest
      | None => l
      end
  end.

Definition trimStart (l : list ascii) : list ascii :=
  dropAll whiteSpace (length l) l.

Definition trimEnd (l : list ascii) : list ascii :=
  reverse (dropAll (reverse <$> whiteSpace) (length l) (reverse l)).

(** [s.trim()] *)
Definition trim (s : string) : string :=
  string_of_list_ascii (trimEnd (trimStart (list_ascii_of_string s))).

(** [parseSearchList]; [!envValue] holds for [undefined] and for the empty
    string. *)
Definition parseSearchList (envValue : option string) : list SearchItem :=
  match envValue with
  | None | Some EmptyString => []
  | Some s =>
      mkItem <$> filter (λ idx, (0 < String.length idx)%nat)
                        (trim <$> split "," s)
  end.

Definition parseTargetEmailList (envValue : option string) : list string :=
  match envValue with
  | None | Some EmptyString => []
  | Some s =>
      filter (λ email, (0 < String.length email)%nat) (trim <$> split "," s)
  end.

(** [!value] for a value of the environment. *)
Definition isUnset (value : option string) : bool :=
  match value with
  | None | Some EmptyString => true
  | Some _ => false
  end.

(** The check made when the module is loaded: the error thrown, if any. *)
Definition startupCheck (isDevelopment : bool)
    (SENDER_GMAIL_USER SENDER_GMAIL_PASSWORD TARGET_GMAIL_USER : option string)
  : option string :=
  let targetEmailList := parseTargetEmailList TARGET_GMAIL_USER in
  if (isUnset SENDER_GMAIL_USER || isUnset SENDER_GMAIL_PASSWORD
      || (length targetEmailList =? 0)%nat)
     && negb isDevelopment
  then Some "SENDER_GMAIL_USER, SENDER_GMAIL_PASSWORD, TARGET_GMAIL_USER must be set"
  else None.


(** ** Batches

    [for (let i = 0; i < searchTasks.length; i += CONCURRENT_LIMIT)] with
    [searchTasks.slice(i, i + CONCURRENT_LIMIT)]; [fuel] bounds the number of
    iterations. *)
Fixpoint batchesFrom {A} (fuel : nat) (K i : nat) (tasks : list A)
  : list (list A) :=
  match fuel with
  | O => []
  | S fuel' =>
      if (i <? length tasks)%nat
      then take K (drop i tasks) :: batchesFrom fuel' K (i + K) tasks
      else []
  end.

Definition batches {A} (K : nat) (tasks : list A) : list (list A) :=
  batchesFrom (length tasks) K 0 tasks.

(** ** The browser, the mail transport and the event loop

    An async function runs until its next [await], where it hands a request
    to the outside and is suspended; it is resumed with the answer.  One
    record type carries every answer: each request reads the fields it
    needs. *)

(** An element that [document.querySelectorAll('a, button')] returns:
    [el_text] is [textContent?.trim() || ''], [el_html] is
    [instanceof HTMLElement]. *)
Record DomElem := mkElem { el_text : string; el_html : bool }.

Record Resp := mkResp {
  r_now : Z;                 (* [Date.now()] when the function is resumed *)
  r_throw : option string;   (* the awaited promise was rejected *)
  r_dialogs : list string;   (* dialogs the page raised in the meantime *)
  r_url : string;            (* [page.url()] when the function is resumed *)
  r_handles : list nat;      (* the element handles of [page.$$('a')] *)
  r_text : string;           (* the string an [evaluate] or [content] returns *)
  r_dom : list DomElem       (* the elements seen by the page function *)
}.

Inductive Cmd :=
| CmdLaunch                          (* puppeteer.launch *)
| CmdBrowserClose                    (* browser.close *)
| CmdNewPage                         (* browser.newPage *)
| CmdGoto (u : string)               (* page.goto *)
| CmdSetViewport                     (* page.setViewport *)
| CmdQueryAnchors                    (* page.$$('a') *)
| CmdTextOf (handle : nat)           (* button.evaluate(el => text) *)
| CmdClick (handle : nat)            (* button.click *)
| CmdReadDetail                      (* page.evaluate(detail text) *)
| CmdReload                          (* page.reload *)
| CmdDelay (ms : Z)                  (* delay(ms) *)
| CmdContent                         (* page.content *)
| CmdEvalNonMember                   (* page.evaluate(find and click) *)
| CmdSendMail (u name : string)      (* transporter.sendMail *)
| CmdResolved                        (* await of a promise already resolved *)
| CmdPageClose.                      (* page.close *)

(** The [console.log] and [console.error] lines. *)
Inductive LogMsg :=
| LogStart (i formattedDate : string)
| LogUrl (u : string)
| LogAlertRaised (msg : string)
| LogReserveFound (attempt : nat)
| LogReserveClicked
| LogReserveRetry (attempt : nat)
| LogReserveMissing
| LogHtml (html : string)
| LogNonMemberClicked (attempt : nat)
| LogNonMemberRetry (attempt : nat)
| LogNonMemberMissing
| LogUnavailable
| LogRedirected
| LogBookingName (name : string)
| LogMailSent
| LogMailSkipped (minutesAgo : Z)
| LogNoRedirect
| LogError (e : string)
| LogDevMail (u name : string)
| LogCleanup (n : nat)
| LogCycleStart (cycleNumber : nat)
| LogDates (weekDates : list string)
| LogTaskCount (tasks targets dates : nat)
| LogProgress (globalIndex total : nat)
| LogCycleDone (cycleNumber : nat)
| LogLoopStart
| LogLoopEnd
| LogCycleError (cycleNumber : nat) (e : string).

(** What a run leaves behind, in order: the printed lines, the requests and
    their answers, and the calls of the functions of the module that the
    claims speak of. *)
Inductive Event :=
| EvLog (m : LogMsg)
| EvAwait (c : Cmd)
| EvResume (c : Cmd) (r : Resp)
| EvDismiss (msg : string)                 (* dialog.dismiss() *)
| EvCanSend (u : string) (t : Z) (ok : bool) (* canSendEmail(u) at time t *)
| EvSendEmail (u name : string)            (* sendEmail({url, name}) called *)
| EvRecordSent (u : string) (t : Z)        (* recordEmailSent(u) at time t *)
| EvClickInPage (el : DomElem)             (* button.click() in the page *)
| EvCleanup (deleted : nat)                (* cleanupOldEmailHistory() called *)
| EvWeekDates (weekDates : list string).   (* getWeekDates() called *)

(** What the code between two suspensions reads and writes: the clock, the
    history shared by all tasks, the output, and the [alertAppeared] variable
    of the running task ([None] until the dialog listener is installed). *)
Record Sync := mkSync {
  now : Z;
  emailSentHistory : gmap string Z;
  out : list Event;
  alertAppeared : option bool
}.

(** An async function in progress: it has returned, it has thrown, it is
    suspended at an [await], or it reads [Sync], prints, or writes the
    history or its [alertAppeared], and goes on. *)
Inductive Proc (A : Type) : Type :=
| Ret (a : A)
| Throw (e : string)
| Await (c : Cmd) (k : Resp → Proc A)
| Read (k : Sync → Proc A)
| Emit (e : Event) (k : Proc A)
| SetHistory (h : gmap string Z) (k : Proc A)
| SetAlert (b : bool) (k : Proc A).
Arguments Ret {A} a.
Arguments Throw {A} e.
Arguments Await {A} c k.
Arguments Read {A} k.
Arguments Emit {A} e k.
Arguments SetHistory {A} h k.
Arguments SetAlert {A} b k.

Fixpoint bind {A B} (p : Proc A) (f : A → Proc B) : Proc B :=
  match p with
  | Ret a => f a
  | Throw e => Throw e
  | Await c k => Await c (λ r, bind (k r) f)
  | Read k => Read (λ σ, bind (k σ) f)
  | Emit e k => Emit e (bind k f)
  | SetHistory h k => SetHistory h (bind k f)
  | SetAlert b k => SetAlert b (bind k f)
  end.

Declare Scope proc_scope.
Delimit Scope proc_scope with proc.
Notation "x ← y ; z" := (bind y (λ x, z))
  (at level 20, y at level 100, z at level 200, only parsing) : proc_scope.
Notation "x ;; z" := (bind x (λ _, z))
  (at level 100, z at level 200, only parsing, right associativity)
  : proc_scope.
Open Scope proc_scope.

(** [try { p }], its exception made a value. *)
Fixpoint try_ {A} (p : Proc A) : Proc (string + A) :=
  match p with
  | Ret a => Ret (inr a)
  | Throw e => Ret (inl e)
  | Await c k => Await c (λ r, try_ (k r))
  | Read k => Read (λ σ, try_ (k σ))
  | Emit e k => Emit e (try_ k)
  | SetHistory h k => SetHistory h (try_ k)
  | SetAlert b k => SetAlert b (try_ k)
  end.

Definition rethrow {A} (r : string + A) : Proc A :=
  match r with
  | inl e => Throw e
  | inr a => Ret a
  end.

(** [try { body } catch (e) { handler } finally { fin }]. *)
Definition tryCatchFinally {A} (body : Proc A) (handler : string → Proc A)
    (fin : Proc unit) : Proc A :=
  r ← try_ body;
  r' ← match r with
       | inl e => try_ (handler e)
       | inr a => Ret (inr a)
       end;
  fin;;
  rethrow r'.

Definition emit (e : Event) : Proc unit := Emit e (Ret tt).

Definition log (m : LogMsg) : Proc unit := emit (EvLog m).

Definition read : Proc Sync := Read Ret.

(** The listener installed by [page.on('dialog', ...)], run for the dialogs
    raised while the task was suspended. *)
Fixpoint deliverDialogs (msgs : list string) : Proc unit :=
  match msgs with
  | [] => Ret tt
  | msg :: rest =>
      SetAlert true (Ret tt);;
      log (LogAlertRaised msg);;
      emit (EvDismiss msg);;
      deliverDialogs rest
  end.

(** The function is resumed from its request [c]; the dialogs raised in
    the meantime go to the listener when one is installed. *)
Definition awaitAny (c : Cmd) : Proc Resp :=
  Await c (λ r,
    σ ← read;
    match alertAppeared σ with
    | Some _ => deliverDialogs (r_dialogs r)
    | None => Ret tt
    end;;
    Ret r).

(** [await] of a request to the browser or to the mail transport, which
    may fail. *)
Definition await (c : Cmd) : Proc Resp :=
  r ← awaitAny c;
  match r_throw r with
  | Some e => Throw e
  | None => Ret r
  end.

(** [await delay(ms)]: the promise of [setTimeout] is never rejected. *)
Definition delay (ms : Z) : Proc Resp := awaitAny (CmdDelay ms).

(** [await] of the promise of an async function that finished without
    suspending: the caller goes on at a later turn of the job queue. *)
Definition awaitResolved : Proc unit := Await CmdResolved (λ _, Ret tt).

(** ** The cache operations as the tasks call them *)

Definition canSendEmail (u : string) : Proc bool :=
  σ ← read;
  let ok := Dedup.canSendEmail (now σ) (emailSentHistory σ) u in
  emit (EvCanSend u (now σ) ok);;
  Ret ok.

Definition recordEmailSent (u : string) : Proc unit :=
  σ ← read;
  SetHistory (Dedup.recordEmailSent (now σ) (emailSentHistory σ) u)
    (emit (EvRecordSent u (now σ))).

Definition cleanupOldEmailHistory : Proc unit :=
  σ ← read;
  let '(h, printed) := Dedup.cleanupOldEmailHistory (now σ) (emailSentHistory σ) in
  emit (EvCleanup (length (Dedup.keysToDelete (now σ) (emailSentHistory σ))));;
  SetHistory h
    match printed with
    | Some n => log (LogCleanup n)
    | None => Ret tt
    end.

(** ** The prober: [checkReservation] *)

Record Config := mkConfig {
  isDevelopment : bool;               (* NODE_ENV === 'development' *)
  gSearchList : list SearchItem       (* parseSearchList(G_SEARCH_LIST) *)
}.

Inductive ProbeOutcome :=
| Available (bookingName : string)    (* redirect seen *)
| Unavailable                         (* alert seen *)
| Inconclusive                        (* no non-member button, or no redirect *)
| PageError                           (* no reserve button after all attempts *)
| Failed (e : string).                (* the catch block ran *)

Definition reserveMarker : string := "예약하기".
Definition nonMemberMarker : string := "비회원".
Definition reserveWord : string := "예약".
Definition noName : string := "(이름 없음)".

Definition maxReserveButtonAttempts : nat := 5.
Definition maxNonMemberButtonAttempts : nat := 5.

(** [s.includes(pat)] *)
Fixpoint includes (s pat : string) : bool :=
  if String.prefix pat s then true
  else match s with
       | EmptyString => false
       | String _ s' => includes s' pat
       end.

(** [dayjs(date, 'YYYYMMDD').format('YYYY-MM-DD')] on a string of eight
    digits. *)
Definition formatDashed (d : string) : string :=
  (substring 0 4 d ++ "-" ++ substring 4 2 d ++ "-" ++ substring 6 2 d)%string.

(** [sendEmail], awaited by its caller. *)
Definition sendEmail (cfg : Config) (u name : string) : Proc unit :=
  emit (EvSendEmail u name);;
  if isDevelopment cfg
  then log (LogDevMail u name);; awaitResolved
  else await (CmdSendMail u name);; Ret tt.

(** The [for ... of reserveButtons] loop. *)
Fixpoint scanReserveButtons (attempt : nat) (buttons : list nat)
  : Proc (option string) :=
  match buttons with
  | [] => Ret None
  | button :: rest =>
      t ← await (CmdTextOf button);
      if includes (r_text t) reserveMarker
      then
        log (LogReserveFound attempt);;
        await (CmdClick button);;
        log LogReserveClicked;;
        d ← await CmdReadDetail;
        Ret (Some (r_text d))
      else scanReserveButtons attempt rest
  end.

(** What follows a failed attempt to find the reserve button. *)
Definition reserveRetry (attempt : nat) : Proc unit :=
  if (attempt <? maxReserveButtonAttempts)%nat
  then log (LogReserveRetry attempt);;
       await CmdReload;;
       delay 500;;
       Ret tt
  else Ret tt.

(** The retry loop of the reserve button, [n] iterations left; the result is
    [bookingName] when [reserveButtonFound]. *)
Fixpoint locateReserveButton (n attempt : nat) : Proc (option string) :=
  match n with
  | O => Ret None
  | S n' =>
      q ← await CmdQueryAnchors;
      found ← scanReserveButtons attempt (r_handles q);
      match found with
      | Some bookingName => Ret (Some bookingName)
      | None => reserveRetry attempt;; locateReserveButton n' (S attempt)
      end
  end.

(** The function that [page.evaluate] runs in the page: the first element
    whose text has both markers, which is clicked when it is an
    [HTMLElement]. *)
Definition nonMemberButton (dom : list DomElem) : option DomElem :=
  find (λ btn, includes (el_text btn) nonMemberMarker
               && includes (el_text btn) reserveWord) dom.

Definition nonMemberClick (dom : list DomElem) : option DomElem :=
  match nonMemberButton dom with
  | Some button => if el_html button then Some button else None
  | None => None
  end.

(** What follows a failed attempt to click the non-member button. *)
Definition nonMemberRetry (attempt : nat) : Proc unit :=
  if (attempt <? maxNonMemberButtonAttempts)%nat
  then log (LogNonMemberRetry attempt);; delay 500;; Ret tt
  else Ret tt.

(** The retry loop of the non-member button, [n] iterations left; the
    result is [nonMemberButtonClicked]. *)
Fixpoint clickNonMember (n attempt : nat) : Proc bool :=
  match n with
  | O => Ret false
  | S n' =>
      q ← await CmdEvalNonMember;
      match nonMemberClick (r_dom q) with
      | Some button =>
          emit (EvClickInPage button);;
          log (LogNonMemberClicked attempt);;
          Ret true
      | None => nonMemberRetry attempt;; clickNonMember n' (S attempt)
      end
  end.

(** The branch taken after a redirect: mail unless one went out less than
    the cooldown ago. *)
Definition notify (cfg : Config) (task : SearchTask)
    (formattedDate bookingName : string) : Proc unit :=
  ok ← canSendEmail (url task);
  if ok
  then
    sendEmail cfg (url task) (formattedDate ++ " / " ++ bookingName)%string;;
    recordEmailSent (url task);;
    log LogMailSent
  else
    σ ← read;
    let minutesAgo :=
      match emailSentHistory σ !! url task with
      | Some lastSent =>
          if lastSent =? 0 then 0 else (now σ - lastSent) / 1000 / 60
      | None => 0
      end in
    log (LogMailSkipped minutesAgo).

(** After the click on the non-member button: alert or redirect. *)
Definition observeResult (cfg : Config) (task : SearchTask)
    (currentUrl bookingName : string) : Proc ProbeOutcome :=
  delay 1000;;
  σ ← read;
  if bool_decide (alertAppeared σ = Some true)
  then log LogUnavailable;; Ret Unavailable
  else
    w ← delay 1000;
    let newUrl := r_url w in
    let redirected := negb (String.eqb currentUrl newUrl) in
    if redirected
    then
      log LogRedirected;;
      log (LogBookingName
             (if String.eqb bookingName "" then noName else bookingName));;
      notify cfg task (formatDashed (date task)) bookingName;;
      Ret (Available bookingName)
    else log LogNoRedirect;; Ret Inconclusive.

(** The start of the [try] block: the page is loaded, the dialog listener
    installed; the result is [currentUrl]. *)
Definition navigate (task : SearchTask) : Proc string :=
  log (LogStart (idx task) (formatDashed (date task)));;
  log (LogUrl (url task));;
  await (CmdGoto (url task));;
  v ← await CmdSetViewport;
  SetAlert false (Ret (r_url v)).

(** The wait for the popup and the retry loop of the non-member button. *)
Definition engageNonMember : Proc bool :=
  delay 500;;
  clickNonMember maxNonMemberButtonAttempts 1.

(** The reserve button was not found: the markup of the page is printed. *)
Definition reportMissing : Proc ProbeOutcome :=
  log LogReserveMissing;;
  c ← await CmdContent;
  log (LogHtml (r_text c));;
  Ret PageError.

(** The [try] block. *)
Definition probe (cfg : Config) (task : SearchTask) : Proc ProbeOutcome :=
  currentUrl ← navigate task;
  found ← locateReserveButton maxReserveButtonAttempts 1;
  match found with
  | None => reportMissing
  | Some bookingName =>
      clicked ← engageNonMember;
      if clicked
      then observeResult cfg task currentUrl bookingName
      else log LogNonMemberMissing;; Ret Inconclusive
  end.

(** [checkReservation(browser, task)]; the promise is of [void], the value
    returned here names the branch that printed the verdict. *)
Definition checkReservation (cfg : Config) (task : SearchTask)
  : Proc ProbeOutcome :=
  await CmdNewPage;;
  o ← tryCatchFinally (probe cfg task)
        (λ e, log (LogError e);; Ret (Failed e))
        (await CmdPageClose;; Ret tt);
  delay 1000;;
  Ret o.

(** ** Running one async function to its end

    The outside is a function: what the [n]-th request of the run is
    answered, given the request. *)

Definition Driver : Type := nat → Cmd → Resp.

Inductive Settled (A : Type) : Type :=
| Resolved (a : A)
| Rejected (e : string).
Arguments Resolved {A} a.
Arguments Rejected {A} e.

Definition emitted (e : Event) (σ : Sync) : Sync :=
  mkSync (now σ) (emailSentHistory σ) (out σ ++ [e]) (alertAppeared σ).

Definition withHistory (h : gmap string Z) (σ : Sync) : Sync :=
  mkSync (now σ) h (out σ) (alertAppeared σ).

Definition withAlert (b : bool) (σ : Sync) : Sync :=
  mkSync (now σ) (emailSentHistory σ) (out σ) (Some b).

(** The function is resumed with the answer [r] to its request [c]: the
    clock has moved. *)
Definition resumed (c : Cmd) (r : Resp) (σ : Sync) : Sync :=
  mkSync (r_now r) (emailSentHistory σ)
         (out σ ++ [EvAwait c; EvResume c r]) (alertAppeared σ).

Fixpoint run {A} (p : Proc A) (env : Driver) (n : nat) (σ : Sync)
  : Sync * Settled A * nat :=
  match p with
  | Ret a => (σ, Resolved a, n)
  | Throw e => (σ, Rejected e, n)
  | Read k => run (k σ) env n σ
  | Emit e k => run k env n (emitted e σ)
  | SetHistory h k => run k env n (withHistory h σ)
  | SetAlert b k => run k env n (withAlert b σ)
  | Await c k => run (k (env n c)) env (S n) (resumed c (env n c) σ)
  end.

(** The state in which a call starts: nothing printed, no listener. *)
Definition startSync (t : Z) (h : gmap string Z) : Sync := mkSync t h [] None.

(** ** The event loop: several calls of [checkReservation] in flight

    What the process leaves behind: the events of [runCrawlingCycle] and of
    the main loop themselves, and those of each call of [checkReservation],
    tagged with the position of its task in [searchTasks]. *)
Inductive CycleEvent :=
| CyOwn (e : Event)
| CyCall (i : nat)                    (* checkReservation(browser, task i) *)
| CyTask (i : nat) (e : Event)
| CySettled (i : nat) (ok : bool).    (* its promise resolved or rejected *)

Record World := mkWorld {
  w_now : Z;                          (* the clock *)
  w_history : gmap string Z;          (* emailSentHistory *)
  w_trace : list CycleEvent
}.

(** The code up to the next suspension, return or throw. *)
Fixpoint advance {A} (p : Proc A) (σ : Sync) : Sync * Proc A :=
  match p with
  | Read k => advance (k σ) σ
  | Emit e k => advance k (emitted e σ)
  | SetHistory h k => advance k (withHistory h σ)
  | SetAlert b k => advance k (withAlert b σ)
  | _ => (σ, p)
  end.

(** A call in flight: its [alertAppeared] and what is left of it. *)
Definition TaskState : Type := option bool * Proc ProbeOutcome.

Definition settlement {A} (i : nat) (p : Proc A) : list CycleEvent :=
  match p with
  | Ret _ => [CySettled i true]
  | Throw _ => [CySettled i false]
  | Await c _ => [CyTask i (EvAwait c)]
  | _ => []
  end.

(** Task [i] runs from [p] to its next suspension; [pre] is what the
    resumption itself leaves in the trace. *)
Definition segment (i : nat) (alert : option bool) (p : Proc ProbeOutcome)
    (pre : list Event) (w : World) : World * TaskState :=
  let '(σ, p') := advance p (mkSync (w_now w) (w_history w) pre alert) in
  (mkWorld (w_now w) (emailSentHistory σ)
           (w_trace w ++ (CyTask i <$> out σ) ++ settlement i p'),
   (alertAppeared σ, p')).

Definition own (evs : list Event) (w : World) : World :=
  mkWorld (w_now w) (w_history w) (w_trace w ++ (CyOwn <$> evs)).

Definition at_time (t : Z) (w : World) : World :=
  mkWorld t (w_history w) (w_trace w).

Definition called (i : nat) (w : World) : World :=
  mkWorld (w_now w) (w_history w) (w_trace w ++ [CyCall i]).

(** [batch.map((task, index) => ...)]: the calls are made in order, each
    running to its first [await]. *)
Fixpoint startBatch (cfg : Config) (total i index : nat)
    (batch : list SearchTask) (w : World) : list TaskState * World :=
  match batch with
  | [] => ([], w)
  | task :: rest =>
      let globalIndex := (i + index + 1)%nat in
      let w1 := own [EvLog (LogProgress globalIndex total)] w in
      let '(w2, st) :=
        segment (i + index) None (checkReservation cfg task) []
                (called (i + index) w1) in
      let '(sts, w3) := startBatch cfg total i (S index) rest w2 in
      (st :: sts, w3)
  end.

(** An answer about to arrive: what it is depends on the request that the
    call is waiting for. *)
Definition Answer : Type := Cmd → Resp.

(** The answer [a] arrives for the call at position [index] of the batch;
    an answer for a call that waits for none is dropped. *)
Definition resumeTask (i index : nat) (a : Answer) (sts : list TaskState)
    (w : World) : list TaskState * World :=
  match sts !! index with
  | Some (alert, Await c k) =>
      let '(w1, st) :=
        segment (i + index) alert (k (a c)) [EvResume c (a c)]
                (at_time (r_now (a c)) w) in
      (<[index := st]> sts, w1)
  | _ => (sts, w)
  end.

Definition rejection (st : TaskState) : option string :=
  match st.2 with
  | Throw e => Some e
  | _ => None
  end.

Definition resolved (st : TaskState) : bool :=
  match st.2 with
  | Ret _ => true
  | _ => false
  end.

(** [await Promise.all(batchPromises)]: rejected as soon as one call is,
    resolved when all are; [None] when the answers run out before.  The
    calls still in flight at a rejection are not followed further. *)
Fixpoint awaitAll (i : nat) (sched : list (nat * Answer))
    (sts : list TaskState) (w : World) : World * option (Settled unit) :=
  match omap rejection sts with
  | e :: _ => (w, Some (Rejected e))
  | [] =>
      if forallb resolved sts then (w, Some (Resolved tt))
      else
        match sched with
        | [] => (w, None)
        | (index, a) :: sched' =>
            let '(sts', w') := resumeTask i index a sts w in
            awaitAll i sched' sts' w'
        end
  end.

(** The [for] loop over the batches, [i] the index of the first task of the
    next batch. *)
Fixpoint runBatches (cfg : Config) (total i : nat)
    (bs : list (list SearchTask)) (scheds : list (list (nat * Answer)))
    (w : World) : World * option (Settled unit) :=
  match bs with
  | [] => (w, Some (Resolved tt))
  | batch :: bs' =>
      let '(sts, w1) := startBatch cfg total i 0 batch w in
      match awaitAll i (hd [] scheds) sts w1 with
      | (w2, Some (Resolved _)) =>
          runBatches cfg total (i + CONCURRENT_LIMIT) bs' (tl scheds) w2
      | other => other
      end
  end.

(** What the outside answers during one cycle. *)
Record CycleEnv := mkCycleEnv {
  ce_today : CalDate;                     (* dayjs().tz('Asia/Seoul') *)
  ce_launch : Resp;                       (* puppeteer.launch *)
  ce_batches : list (list (nat * Answer)); (* per batch: who is answered *)
  ce_close : Resp                         (* browser.close *)
}.

(** [runCrawlingCycle] up to [puppeteer.launch]. *)
Definition cycleHead (cfg : Config) (cycleNumber : nat) (today : CalDate)
  : Proc (list SearchTask) :=
  log (LogCycleStart cycleNumber);;
  cleanupOldEmailHistory;;
  let weekDates := getWeekDates today in
  emit (EvWeekDates weekDates);;
  log (LogDates (formatDashed <$> weekDates));;
  let searchTasks := buildSearchTasks (gSearchList cfg) weekDates in
  log (LogTaskCount (length searchTasks) (length (gSearchList cfg))
                    (length weekDates));;
  await CmdLaunch;;
  Ret searchTasks.

(** The end of [runCrawlingCycle]: the last line of the [try] block when
    the batches went through, and the [finally] block. *)
Definition cycleTail (cycleNumber : nat) (body : Settled unit) : Proc unit :=
  match body with
  | Resolved _ => log (LogCycleDone cycleNumber)
  | Rejected _ => Ret tt
  end;;
  await CmdBrowserClose;;
  rethrow match body with
          | Resolved _ => inr tt
          | Rejected e => inl e
          end.

(** A part of [runCrawlingCycle] that awaits no task, run in the world; its
    one request is answered [r]. *)
Definition runOwn {A} (p : Proc A) (r : Resp) (w : World)
  : World * Settled A :=
  let '(σ, res, _) := run p (λ _ _, r) 0 (startSync (w_now w) (w_history w)) in
  (mkWorld (now σ) (emailSentHistory σ) (w_trace w ++ (CyOwn <$> out σ)), res).

(** [runCrawlingCycle(cycleNumber)]; [None] when an awaited answer never
    comes. *)
Definition runCrawlingCycle (cfg : Config) (cycleNumber : nat)
    (env : CycleEnv) (w : World) : World * option (Settled unit) :=
  match runOwn (cycleHead cfg cycleNumber (ce_today env)) (ce_launch env) w with
  | (w1, Resolved searchTasks) =>
      match runBatches cfg (length searchTasks) 0
              (batches CONCURRENT_LIMIT searchTasks) (ce_batches env) w1 with
      | (w2, Some body) =>
          let '(w3, res) := runOwn (cycleTail cycleNumber body) (ce_close env) w2 in
          (w3, Some res)
      | (w2, None) => (w2, None)
      end
  | (w1, Rejected e) => (w1, Some (Rejected e))
  end.

(** The state of the main loop: at the head of the [while (true)], or
    suspended inside a cycle whose awaited answer did not come.  The loop
    has no other state: it has no [break], no [return] and no exit. *)
Inductive LoopStatus := AtLoopHead | SuspendedInCycle.

Record LoopState := mkLoop {
  l_world : World;
  l_cycleNumber : nat;
  l_attempts : nat;              (* calls of runCrawlingCycle so far *)
  l_status : LoopStatus
}.

(** One iteration of [while (true) { try { ... } catch (e) { ... } }]. *)
Definition loopBody (cfg : Config) (env : CycleEnv) (s : LoopState)
  : LoopState :=
  let w := own [EvLog LogLoopStart] (l_world s) in
  match runCrawlingCycle cfg (l_cycleNumber s) env w with
  | (w1, Some (Resolved _)) =>
      mkLoop (own [EvLog LogLoopEnd] w1) (S (l_cycleNumber s))
             (S (l_attempts s)) AtLoopHead
  | (w1, Some (Rejected e)) =>
      mkLoop (own [EvLog (LogCycleError (l_cycleNumber s) e)] w1)
             (l_cycleNumber s) (S (l_attempts s)) AtLoopHead
  | (w1, None) =>
      mkLoop w1 (l_cycleNumber s) (S (l_attempts s)) SuspendedInCycle
  end.

(** The main loop, for as many iterations as there are environments. *)
Fixpoint mainLoop (cfg : Config) (envs : list CycleEnv) (s : LoopState)
  : LoopState :=
  match envs with
  | [] => s
  | env :: envs' =>
      match l_status s with
      | AtLoopHead => mainLoop cfg envs' (loopBody cfg env s)
      | SuspendedInCycle => s
      end
  end.

(** The start of the process: [let cycleNumber = 1]. *)
Definition initialLoop (t : Z) : LoopState :=
  mkLoop (mkWorld t ∅ []) 1 0 AtLoopHead.

(** ** Notions used in the statements *)

(** A date of the calendar whose week stays within four-digit years. *)
Definition validDate (d : CalDate) : Prop :=
  0 ≤ year d < 9999 ∧ 1 ≤ month d ≤ 12
  ∧ 1 ≤ day d ≤ daysInMonth (year d) (month d).

(** The date [YYYYMMDD] read as a number. *)
Definition dateKey (d : CalDate) : Z := year d * 10000 + month d * 100 + day d.

(** [n] consecutive days of the calendar, the first being [d]. *)
Fixpoint daysFrom (n : nat) (d : CalDate) : list CalDate :=
  match n with
  | O => []
  | S n' => d :: daysFrom n' (addDay d)
  end.

(** What stays true along a week that starts in year [y0]: the month and
    the day are those of a calendar date, and the year has moved by one
    at most, in which case the date is one of the first days of
    January. *)
Definition inWeekOf (y0 : Z) (j : Z) (d : CalDate) : Prop :=
  1 ≤ month d ≤ 12 ∧ 1 ≤ day d ≤ daysInMonth (year d) (month d)
  ∧ (year d = y0 ∨ (year d = y0 + 1 ∧ month d = 1 ∧ day d ≤ j)).

(** The task of a target and a date. *)
Definition taskOf (item : SearchItem) (d : string) : SearchTask :=
  mkTask (item_idx item) d (taskUrl (item_idx item) d).

(** The requests of a run, in order. *)
Definition awaited (tr : list Event) : list Cmd :=
  omap (λ e, match e with EvAwait c => Some c | _ => None end) tr.

(** The calls of [sendEmail] of a run: the invocations of the notifier. *)
Definition notifications (tr : list Event) : list (string * string) :=
  omap (λ e, match e with EvSendEmail u name => Some (u, name) | _ => None end)
       tr.

(** What the dialog listener leaves behind for the dialogs [msgs]. *)
Definition dialogEvents (msgs : list string) : list Event :=
  flat_map (λ msg, [EvLog (LogAlertRaised msg); EvDismiss msg]) msgs.

(** The state after the answer [r] went through the dialog listener. *)
Definition delivered (r : Resp) (σ : Sync) : Sync :=
  match alertAppeared σ, r_dialogs r with
  | Some _, _ :: _ =>
      mkSync (now σ) (emailSentHistory σ)
             (out σ ++ dialogEvents (r_dialogs r)) (Some true)
  | _, _ => σ
  end.

(** A function whose requests all satisfy [okC], whose own events all
    satisfy [okE], and which writes the history only when [okH]. *)
Inductive Obeys {A} (okC : Cmd → bool) (okE : Event → bool) (okH : bool)
  : Proc A → Prop :=
| Ob_Ret a : Obeys okC okE okH (Ret a)
| Ob_Throw e : Obeys okC okE okH (Throw e)
| Ob_Await c k :
    okC c = true → (∀ r, Obeys okC okE okH (k r)) →
    Obeys okC okE okH (Await c k)
| Ob_Read k : (∀ σ, Obeys okC okE okH (k σ)) → Obeys okC okE okH (Read k)
| Ob_Emit e k :
    okE e = true → Obeys okC okE okH k → Obeys okC okE okH (Emit e k)
| Ob_SetHistory h k :
    okH = true → Obeys okC okE okH k → Obeys okC okE okH (SetHistory h k)
| Ob_SetAlert b k : Obeys okC okE okH k → Obeys okC okE okH (SetAlert b k).

(** The events that a function obeying [okC] and [okE] can leave. *)
Definition okEvent (okC : Cmd → bool) (okE : Event → bool) (e : Event) : bool :=
  okE e || match e with
           | EvAwait c | EvResume c _ => okC c
           | _ => false
           end.

(** The page is opened or closed by this request and the request fails. *)
Definition boundaryFailure (c : Cmd) (r : Resp) : bool :=
  match c with
  | CmdNewPage | CmdPageClose => bool_decide (is_Some (r_throw r))
  | _ => false
  end.

(** A function that cannot throw unless the opening or the closing of the
    page fails, and whose results satisfy [Q]. *)
Inductive Contained {A} (Q : A → Prop) : Proc A → Prop :=
| Ct_Ret a : Q a → Contained Q (Ret a)
| Ct_Await c k :
    (∀ r, boundaryFailure c r = false → Contained Q (k r)) →
    Contained Q (Await c k)
| Ct_Read k : (∀ σ, Contained Q (k σ)) → Contained Q (Read k)
| Ct_Emit e k : Contained Q k → Contained Q (Emit e k)
| Ct_SetHistory h k : Contained Q k → Contained Q (SetHistory h k)
| Ct_SetAlert b k : Contained Q k → Contained Q (SetAlert b k).

(** The steps of the protocol in a run: all events but the requests for
    the text of an anchor, the answers, and what the dialog listener
    does. *)
Definition isProtocol (e : Event) : bool :=
  match e with
  | EvAwait (CmdTextOf _) => false
  | EvResume _ _ => false
  | EvLog (LogAlertRaised _) => false
  | EvDismiss _ => false
  | _ => true
  end.

Definition protocol (tr : list Event) : list Event := filter isProtocol tr.

(** The state after the request [c] was answered [r]. *)
Definition answered (c : Cmd) (r : Resp) (σ : Sync) : Sync :=
  delivered r (resumed c r σ).
Arguments answered : simpl never.

(** From [σ] to [σ'] the protocol went through [steps], and nothing else
    changed: no call of the notifier, no write to the history, the dialog
    listener still installed. *)
Definition quietly (σ σ' : Sync) (steps : list Event) : Prop :=
  protocol (out σ') = (protocol (out σ) ++ steps)%list
  ∧ notifications (out σ') = notifications (out σ)
  ∧ emailSentHistory σ' = emailSentHistory σ
  ∧ (alertAppeared σ ≠ None → alertAppeared σ' ≠ None).



(** [checkReservation] up to the end of the retry loop of the reserve
    button: the page opened and loaded, the button looked for; the result
    is [currentUrl] and, when the button was found and clicked,
    [bookingName]. *)
Definition enterReservation (task : SearchTask)
  : Proc (string * option string) :=
  await CmdNewPage;;
  currentUrl ← navigate task;
  found ← locateReserveButton maxReserveButtonAttempts 1;
  Ret (currentUrl, found).

(** Sample inputs. *)
Definition sampleConfig : Config := mkConfig false [mkItem "25"].

Definition sampleTask : SearchTask := taskOf (mkItem "25") "20251103".


(** The requests of a call of [checkReservation]: those of a page. *)
Definition taskCmd (c : Cmd) : bool :=
  match c with
  | CmdLaunch | CmdBrowserClose => false
  | _ => true
  end.

(** The requests between the opening and the closing of the page. *)
Definition insideCmd (c : Cmd) : bool :=
  match c with
  | CmdLaunch | CmdBrowserClose | CmdNewPage | CmdPageClose => false
  | _ => true
  end.

(** The events of a call of [checkReservation] other than its requests:
    not those of the cycle. *)
Definition taskEvent (e : Event) : bool :=
  match e with
  | EvAwait _ | EvResume _ _ => false
  | EvCleanup _ | EvWeekDates _ => false
  | EvLog (LogCleanup _) | EvLog (LogCycleStart _) | EvLog (LogDates _)
  | EvLog (LogTaskCount _ _ _) | EvLog (LogProgress _ _)
  | EvLog (LogCycleDone _) | EvLog LogLoopStart | EvLog LogLoopEnd
  | EvLog (LogCycleError _ _) => false
  | _ => true
  end.

(** The events of a call that do not touch the notifier or the cache. *)
Definition quietEvent (e : Event) : bool :=
  match e with
  | EvCanSend _ _ _ | EvSendEmail _ _ | EvRecordSent _ _ => false
  | _ => taskEvent e
  end.


(** The name under which a slot is announced. *)
Definition mailName (task : SearchTask) (bookingName : string) : string :=
  (formatDashed (date task) ++ " / " ++ bookingName)%string.

(** The state when [canSendEmail] has answered true and [sendEmail] has
    been called. *)
Definition sending (u name : string) (σ : Sync) : Sync :=
  emitted (EvSendEmail u name) (emitted (EvCanSend u (now σ) true) σ).

(** The state when the send has been recorded, at the time of [σ]. *)
Definition recorded (u : string) (σ : Sync) : Sync :=
  emitted (EvLog LogMailSent)
    (emitted (EvRecordSent u (now σ))
       (withHistory (<[u := now σ]> (emailSentHistory σ)) σ)).

(** [checkReservation] from the [try] on, for a [try] block [body]. *)
Definition guarded (body : Proc ProbeOutcome) : Proc ProbeOutcome :=
  o ← tryCatchFinally body
        (λ e, log (LogError e);; Ret (Failed e))
        (await CmdPageClose;; Ret tt);
  delay 1000;;
  Ret o.

(** The state when the page has been closed and the last delay is over. *)
Definition closed (env : Driver) (n : nat) (σ : Sync) : Sync :=
  answered (CmdDelay 1000) (env (S n) (CmdDelay 1000))
    (answered CmdPageClose (env n CmdPageClose) σ).

(** The state when the two settle delays of the observation are over and
    the redirect has been announced. *)
Definition redirected (env : Driver) (n : nat) (bookingName : string)
    (σ : Sync) : Sync :=
  emitted (EvLog (LogBookingName
                    (if String.eqb bookingName "" then noName else bookingName)))
    (emitted (EvLog LogRedirected)
       (answered (CmdDelay 1000) (env (S n) (CmdDelay 1000))
          (answered (CmdDelay 1000) (env n (CmdDelay 1000)) σ))).

(** A page where the slot can be booked: the second anchor is the reserve
    button, the detail panel reads "ROOM A", the non-member button is
    there, and the page has moved to the booking form by the end of a
    delay of one second.  The requests in [dialogOn] raise a dialog. *)
Definition bookablePage (dialogOn : nat → Cmd → bool) : Driver :=
  λ n c,
    mkResp (1000 + Z.of_nat n) None
           (if dialogOn n c then ["sold out"] else [])
           match c with
           | CmdDelay 1000 => "https://www.dpsnnn.com/booking"
           | _ => "https://www.dpsnnn.com/reserve_g"
           end
           [1%nat; 2%nat]
           match c with
           | CmdTextOf 2 => reserveMarker
           | CmdReadDetail => "ROOM A"
           | _ => "login"
           end
           [mkElem "login" true;
            mkElem (nonMemberMarker ++ " " ++ reserveMarker)%string true].

(** The calls of [canSendEmail] of a run, with the clock and the answer,
    and the calls of [recordEmailSent], with the time recorded. *)
Definition checks (tr : list Event) : list (string * Z * bool) :=
  omap (λ e, match e with EvCanSend u t ok => Some (u, t, ok) | _ => None end)
       tr.

Definition records (tr : list Event) : list (string * Z) :=
  omap (λ e, match e with EvRecordSent u t => Some (u, t) | _ => None end) tr.



(** The call that an event of the trace belongs to. *)
Definition taskIndex (e : CycleEvent) : option nat :=
  match e with
  | CyOwn _ => None
  | CyCall i | CyTask i _ | CySettled i _ => Some i
  end.

(** An event of the cycle itself, or of a call in [lo, hi). *)
Definition within (lo hi : nat) (e : CycleEvent) : Prop :=
  match taskIndex e with
  | Some j => (lo ≤ j < hi)%nat
  | None => True
  end.

(** The task at position [a] of [searchTasks] is in the batch at position
    [p] of [bs], the first batch starting at position [i]. *)
Definition inBatch (i : nat) (bs : list (list SearchTask)) (p a : nat) : Prop :=
  ∃ batch, bs !! p = Some batch
           ∧ (i + p * CONCURRENT_LIMIT ≤ a
              < i + p * CONCURRENT_LIMIT + length batch)%nat.

(** In the stretch [new] of a trace, a call of a batch is made only when
    every call of every earlier batch has been resolved. *)
Definition barrier (i : nat) (bs : list (list SearchTask))
    (new : list CycleEvent) : Prop :=
  ∀ l1 l2 b,
    new = (l1 ++ CyCall b :: l2)%list →
    ∃ q, inBatch i bs q b
         ∧ ∀ p a, (p < q)%nat → inBatch i bs p a → CySettled a true ∈ l1.

(** The white space at neither end of a string. *)
Definition trimmed (s : string) : Prop :=
  dropAny whiteSpace (list_ascii_of_string s) = None
  ∧ dropAny (reverse <$> whiteSpace) (reverse (list_ascii_of_string s)) = None.

(** The characters of a string. *)
Definition chars (s : string) : list ascii := list_ascii_of_string s.

(** A site that cannot be reached: [page.goto] fails, every other request
    succeeds. *)
Definition unreachablePage : Driver :=
  λ n c,
    mkResp (1000 + Z.of_nat n)
           match c with
           | CmdGoto _ => Some "net::ERR_CONNECTION_REFUSED"
           | _ => None
           end
           [] "about:blank" [] "" [].

(** The page of [bookablePage] without dialogs, with a mail transport that
    rejects every mail. *)
Definition mailDownPage : Driver :=
  λ n c,
    let r := bookablePage (λ _ _, false) n c in
    mkResp (r_now r)
           match c with
           | CmdSendMail _ _ => Some "EAUTH"
           | _ => None
           end
           (r_dialogs r) (r_url r) (r_handles r) (r_text r) (r_dom r).

(** From [σ] to [σ'] the output has grown by [evs], which hold no call of
    the notifier and no record of a send, and the history is as it was. *)
Definition untouched (σ σ' : Sync) : Prop :=
  ∃ evs, out σ' = (out σ ++ evs)%list
         ∧ notifications evs = [] ∧ records evs = []
         ∧ emailSentHistory σ' = emailSentHistory σ.

(** From [σ] to [σ'] the notifier was called at most once, for the url [u],
    and a send was recorded at most once, for [u] and after that call. *)
Definition notifiedAtMostOnce (u : string) (σ σ' : Sync) : Prop :=
  ∃ evs,
    out σ' = (out σ ++ evs)%list
    ∧ ((notifications evs = [] ∧ records evs = []
        ∧ emailSentHistory σ' = emailSentHistory σ)
       ∨ (∃ name,
            notifications evs = [(u, name)] ∧ records evs = []
            ∧ emailSentHistory σ' = emailSentHistory σ)
       ∨ (∃ name ts,
            notifications evs = [(u, name)] ∧ records evs = [(u, ts)]
            ∧ emailSentHistory σ' = <[u := ts]> (emailSentHistory σ))).

(** From [σ] to [σ'] either the notifier was not called, or it was called
    once for [u], the notice was printed and the send recorded. *)
Definition printedAndRecorded (u : string) (σ σ' : Sync) : Prop :=
  ∃ evs,
    out σ' = (out σ ++ evs)%list
    ∧ ((notifications evs = [] ∧ records evs = []
        ∧ emailSentHistory σ' = emailSentHistory σ)
       ∨ (∃ name ts,
            notifications evs = [(u, name)] ∧ records evs = [(u, ts)]
            ∧ emailSentHistory σ' = <[u := ts]> (emailSentHistory σ)
            ∧ EvLog (LogDevMail u name) ∈ evs)).

(** A function all of whose runs leave the notifier and the history
    untouched. *)
Definition Quiet {A} (p : Proc A) : Prop :=
  ∀ env n σ σ' res n', run p env n σ = (σ', res, n') → untouched σ σ'.

(** A function all of whose runs are in the relation [N]. *)
Definition Always {A} (N : Sync → Sync → Prop) (p : Proc A) : Prop :=
  ∀ env n σ σ' res n', run p env n σ = (σ', res, n') → N σ σ'.

(** The requests other than a mail handed to the transport. *)
Definition notMail (c : Cmd) : bool :=
  match c with
  | CmdSendMail _ _ => false
  | _ => true
  end.

(** The requests made on a page that is open, the mail apart. *)
Definition pageCmd (c : Cmd) : bool :=
  match c with
  | CmdLaunch | CmdBrowserClose | CmdNewPage | CmdPageClose
  | CmdSendMail _ _ | CmdResolved => false
  | _ => true
  end.

(** The events of the cycle and of the main loop themselves in a trace,
    and the calls of [checkReservation], by the position of their task. *)
Definition ownEvents (tr : list CycleEvent) : list Event :=
  omap (λ e, match e with CyOwn e => Some e | _ => None end) tr.

Definition calls (tr : list CycleEvent) : list nat :=
  omap (λ e, match e with CyCall i => Some i | _ => None end) tr.

(** What the start of the call at position [j] leaves in the trace: the
    line of progress, the call, and its first request, for a page. *)
Definition callStart (total j : nat) : list CycleEvent :=
  [CyOwn (EvLog (LogProgress (j + 1) total)); CyCall j;
   CyTask j (EvAwait CmdNewPage)].

(** Every call of the batch that is resolved has said so in the trace. *)
Definition settledInTrace (i : nat) (sts : list TaskState)
    (tr : list CycleEvent) : Prop :=
  ∀ index st, sts !! index = Some st → resolved st = true →
              CySettled (i + index) true ∈ tr.

(** The positions of the calls that [runBatches] makes when every batch is
    started: batch after batch, the tasks of a batch in order. *)
Fixpoint batchCalls (i : nat) (bs : list (list SearchTask)) : list nat :=
  match bs with
  | [] => []
  | batch :: bs' =>
      (seq i (length batch) ++ batchCalls (i + CONCURRENT_LIMIT) bs')%list
  end.

(** What [runCrawlingCycle] leaves in the trace up to the launch of the
    browser, at the clock reading [t] and with the history [h]. *)
Definition cycleHeadEvents (cfg : Config) (cycleNumber : nat)
    (today : CalDate) (t : Z) (h : gmap string Z) (launch : Resp)
  : list Event :=
  let weekDates := getWeekDates today in
  ([EvLog (LogCycleStart cycleNumber);
    EvCleanup (length (Dedup.keysToDelete t h))]
   ++ match (Dedup.cleanupOldEmailHistory t h).2 with
      | Some n => [EvLog (LogCleanup n)]
      | None => []
      end
   ++ [EvWeekDates weekDates;
       EvLog (LogDates (formatDashed <$> weekDates));
       EvLog (LogTaskCount
                (length (buildSearchTasks (gSearchList cfg) weekDates))
                (length (gSearchList cfg)) (length weekDates));
       EvAwait CmdLaunch; EvResume CmdLaunch launch])%list.

(** What the end of [runCrawlingCycle] leaves in the trace: the last line
    when the batches went through, and the closing of the browser. *)
Definition cycleTailEvents (cycleNumber : nat) (body : Settled unit)
    (close : Resp) : list Event :=
  (match body with
   | Resolved _ => [EvLog (LogCycleDone cycleNumber)]
   | Rejected _ => []
   end
   ++ [EvAwait CmdBrowserClose; EvResume CmdBrowserClose close])%list.


(** A machine on which the browser cannot be launched. *)
Definition noBrowser : CycleEnv :=
  mkCycleEnv (mkDate 2025 11 3)
             (mkResp 1000 (Some "Failed to launch the browser process")
                     [] "" [] "" [])
             []
             (mkResp 2000 None [] "" [] "" []).


(** The line of progress printed before the call at position [j]. *)
Definition progressLine (total j : nat) : Event :=
  EvLog (LogProgress (j + 1) total).

(** What the main loop and the cycles print of their progress: the
    numbers in the opening lines of the cycles, the closing lines of the
    iterations that ended without error, and the errors caught by the
    loop with the number printed. *)
Definition cycleStarts (tr : list CycleEvent) : list nat :=
  omap (λ e, match e with EvLog (LogCycleStart n) => Some n | _ => None end)
       (ownEvents tr).

Definition loopEnds (tr : list CycleEvent) : list unit :=
  omap (λ e, match e with EvLog LogLoopEnd => Some tt | _ => None end)
       (ownEvents tr).

Definition cycleErrors (tr : list CycleEvent) : list (nat * string) :=
  omap (λ e, match e with
             | EvLog (LogCycleError n e) => Some (n, e)
             | _ => None
             end)
       (ownEvents tr).

(** The requests of the cycles and of the main loop themselves. *)
Definition ownRequests (tr : list CycleEvent) : list Cmd :=
  awaited (ownEvents tr).

(** A machine on which everything answers at once and without error. *)
Definition idleEnv : CycleEnv :=
  mkCycleEnv (mkDate 2025 11 3)
             (mkResp 1000 None [] "" [] "" [])
             []
             (mkResp 2000 None [] "" [] "" []).

(** The cost of a list of requests, each request [c] weighing [wt c]. *)
Definition cost (wt : Cmd → nat) (cs : list Cmd) : nat :=
  foldr (λ c n, (wt c + n)%nat) 0%nat cs.

(** A function whose requests cost [n] at most, whatever they are
    answered. *)
Inductive AtMost {A} (wt : Cmd → nat) : nat → Proc A → Prop :=
| Am_Ret n a : AtMost wt n (Ret a)
| Am_Throw n e : AtMost wt n (Throw e)
| Am_Await n c k :
    (∀ r, AtMost wt n (k r)) → AtMost wt (wt c + n) (Await c k)
| Am_Read n k : (∀ σ, AtMost wt n (k σ)) → AtMost wt n (Read k)
| Am_Emit n e k : awaited [e] = [] → AtMost wt n k → AtMost wt n (Emit e k)
| Am_SetHistory n h k : AtMost wt n k → AtMost wt n (SetHistory h k)
| Am_SetAlert n b k : AtMost wt n k → AtMost wt n (SetAlert b k)
| Am_le n m p : AtMost wt n p → (n ≤ m)%nat → AtMost wt m p.

(** The number of requests of a kind, and the time asked of the timer. *)
Definition one (kind : Cmd → bool) (c : Cmd) : nat :=
  if kind c then 1%nat else 0%nat.

Definition isQueryAnchors (c : Cmd) : bool :=
  match c with CmdQueryAnchors => true | _ => false end.

Definition isReload (c : Cmd) : bool :=
  match c with CmdReload => true | _ => false end.

Definition isEvalNonMember (c : Cmd) : bool :=
  match c with CmdEvalNonMember => true | _ => false end.

Definition isGoto (c : Cmd) : bool :=
  match c with CmdGoto _ => true | _ => false end.

Definition isSendMail (c : Cmd) : bool :=
  match c with CmdSendMail _ _ => true | _ => false end.

Definition isDelay (c : Cmd) : bool :=
  match c with CmdDelay _ => true | _ => false end.

Definition sleep (c : Cmd) : nat :=
  match c with CmdDelay ms => Z.to_nat ms | _ => 0%nat end.

(** A page that shows its reserve button on the fifth look only, and its
    non-member button on the fifth look only; the click redirects. *)
Definition slowPage : Driver :=
  λ n c,
    mkResp (1000 + Z.of_nat n) None []
           match c with
           | CmdDelay 1000 => "https://www.dpsnnn.com/booking"
           | _ => "https://www.dpsnnn.com/reserve_g"
           end
           (if (15 <=? n)%nat then [1%nat] else [])
           match c with
           | CmdTextOf _ => reserveMarker
           | _ => "ROOM A"
           end
           (if (28 <=? n)%nat then [mkElem "비회원 예약" true] else []).

(** * Properties *)

(** ** The notification history *)

Section dedup_facts.
Import Dedup.
Implicit Types (h : gmap string Z) (k u : string) (t : Z).

Lemma canSendEmail_true t0 h k :
  canSendEmail t0 h k = true ↔
  h !! k = None ∨ h !! k = Some 0 ∨
  ∃ t, h !! k = Some t ∧ EMAIL_COOLDOWN_MS ≤ t0 - t.
Proof.
  unfold canSendEmail. destruct (h !! k) as [t|] eqn:E; [|naive_solver].
  destruct (Z.eqb_spec t 0) as [->|Hne].
  - naive_solver.
  - rewrite Z.leb_le. split.
    + intros ?. right; right. eauto.
    + intros [?|[?|(t' & ? & ?)]]; simplify_eq; done.
Qed.

Lemma elem_of_keysToDelete t0 h k :
  k ∈ keysToDelete t0 h ↔ ∃ t, h !! k = Some t ∧ EMAIL_COOLDOWN_MS ≤ t0 - t.
Proof.
  unfold keysToDelete. rewrite list_elem_of_fmap. split.
  - intros ([k' t] & -> & Hin). apply list_elem_of_filter in Hin as [Hold Hin].
    apply elem_of_map_to_list in Hin. eauto.
  - intros (t & Hk & Hold). exists (k, t). split; [done|].
    apply list_elem_of_filter. split; [done|]. by apply elem_of_map_to_list.
Qed.

Lemma lookup_cleanup t0 h k :
  (cleanupOldEmailHistory t0 h).1 !! k =
  match h !! k with
  | Some t => if bool_decide (EMAIL_COOLDOWN_MS ≤ t0 - t) then None else Some t
  | None => None
  end.
Proof.
  unfold cleanupOldEmailHistory. simpl.
  destruct (decide (k ∈ keysToDelete t0 h)) as [Hin|Hout].
  - rewrite lookup_foldr_delete by done.
    apply elem_of_keysToDelete in Hin as (t & -> & Hold).
    by rewrite bool_decide_eq_true_2.
  - rewrite lookup_foldr_delete_not_elem_of by done.
    destruct (h !! k) as [t|] eqn:E; [|done].
    case_bool_decide; [|done]. exfalso. apply Hout.
    apply elem_of_keysToDelete. eauto.
Qed.

Lemma keysToDelete_fresh t0 h :
  (∀ k t, h !! k = Some t → t0 - t < EMAIL_COOLDOWN_MS) →
  keysToDelete t0 h = [].
Proof.
  intros Hfresh. destruct (keysToDelete t0 h) as [|k ks] eqn:E; [done|].
  assert (k ∈ keysToDelete t0 h) as Hin by (rewrite E; left).
  apply elem_of_keysToDelete in Hin as (t & Hk & Hold).
  specialize (Hfresh _ _ Hk). lia.
Qed.

Lemma cleanup_fresh t0 h :
  (∀ k t, h !! k = Some t → t0 - t < EMAIL_COOLDOWN_MS) →
  cleanupOldEmailHistory t0 h = (h, None).
Proof.
  intros Hfresh. unfold cleanupOldEmailHistory.
  by rewrite keysToDelete_fresh.
Qed.

Lemma cleanup_leaves_fresh t0 h k t :
  (cleanupOldEmailHistory t0 h).1 !! k = Some t → t0 - t < EMAIL_COOLDOWN_MS.
Proof.
  rewrite lookup_cleanup. destruct (h !! k) as [t'|]; [|done].
  case_bool_decide; [done|]. intros [= <-]. lia.
Qed.

Lemma cleanup_printed t0 h :
  (cleanupOldEmailHistory t0 h).2 = None ↔ keysToDelete t0 h = [].
Proof.
  unfold cleanupOldEmailHistory. simpl.
  destruct (keysToDelete t0 h); simpl; naive_solver.
Qed.

End dedup_facts.

(** C5, as stated, fails: with "the age exceeds the cooldown" read as a
    strict comparison, an entry whose age equals the cooldown is a url for
    which [canSendEmail] answers true although the entry exists and its age
    does not exceed the cooldown. *)
Lemma C5_exact_cooldown_counterexample :
  ¬ (∀ (t0 : Z) (h : gmap string Z) (k : string),
       Dedup.canSendEmail t0 h k = true ↔
       h !! k = None ∨ ∃ t, h !! k = Some t ∧ EMAIL_COOLDOWN_MS < t0 - t).
Proof.
  intros H.
  destruct (H (1 + EMAIL_COOLDOWN_MS) {["u" := 1]} "u") as [Hcode _].
  destruct Hcode as [Hnone|(t & Ht & Hage)].
  - apply canSendEmail_true. right; right. exists 1.
    rewrite lookup_singleton_eq. split; [done|lia].
  - by rewrite lookup_singleton_eq in Hnone.
  - rewrite lookup_singleton_eq in Ht. simplify_eq. lia.
Qed.

(** C5, amended: when the time recorded for [k] is not the number 0 (a
    clock reading never is), [canSendEmail] answers true iff the history has
    no entry for [k] or the entry is at least the cooldown (30 minutes) old;
    it answers true on the empty history, false right after
    [recordEmailSent] at a clock reading other than 0, and true again once
    the clock is at least the cooldown past the recorded time. *)
Theorem C5_canSendEmail_spec (t0 : Z) (h : gmap string Z) (k : string)
    (Hrec : ∀ t, h !! k = Some t → t ≠ 0) (Hclock : t0 ≠ 0) :
  (Dedup.canSendEmail t0 h k = true ↔
     h !! k = None ∨ ∃ t, h !! k = Some t ∧ EMAIL_COOLDOWN_MS ≤ t0 - t)
  ∧ EMAIL_COOLDOWN_MS = 1800000
  ∧ Dedup.canSendEmail t0 ∅ k = true
  ∧ Dedup.canSendEmail t0 (Dedup.recordEmailSent t0 h k) k = false
  ∧ (∀ later, t0 + EMAIL_COOLDOWN_MS ≤ later →
       Dedup.canSendEmail later (Dedup.recordEmailSent t0 h k) k = true).
Proof.
  split; [split|split; [|split; [|split]]].
  - intros [?|[H0|?]]%canSendEmail_true; [by left| |by right].
    by apply Hrec in H0.
  - intros [?|?]; apply canSendEmail_true; auto.
  - reflexivity.
  - unfold Dedup.canSendEmail. by rewrite lookup_empty.
  - unfold Dedup.canSendEmail, Dedup.recordEmailSent.
    rewrite lookup_insert_eq. destruct (Z.eqb_spec t0 0); [done|].
    apply Z.leb_gt. unfold EMAIL_COOLDOWN_MS. lia.
  - intros later Hlater. apply canSendEmail_true. right; right. exists t0.
    unfold Dedup.recordEmailSent. rewrite lookup_insert_eq. split; [done|lia].
Qed.

Lemma C5_canSendEmail_spec_witness :
  (Dedup.canSendEmail 5 {["u" := 1]} "u" = true ↔
     ({["u" := 1]} : gmap string Z) !! "u" = None
     ∨ ∃ t, ({["u" := 1]} : gmap string Z) !! "u" = Some t
            ∧ EMAIL_COOLDOWN_MS ≤ 5 - t)
  ∧ EMAIL_COOLDOWN_MS = 1800000
  ∧ Dedup.canSendEmail 5 ∅ "u" = true
  ∧ Dedup.canSendEmail 5 (Dedup.recordEmailSent 5 {["u" := 1]} "u") "u" = false
  ∧ (∀ later, 5 + EMAIL_COOLDOWN_MS ≤ later →
       Dedup.canSendEmail later (Dedup.recordEmailSent 5 {["u" := 1]} "u") "u"
       = true).
Proof.
  apply (C5_canSendEmail_spec 5 {["u" := 1]} "u").
  - intros t. rewrite lookup_singleton_eq. intros [= <-]. lia.
  - lia.
Defined.

(** * The rolling window and the search tasks *)

Section calendar.
Implicit Types (d x : CalDate) (n : nat) (j : Z).

Lemma daysInMonth_bounds y m : 28 ≤ daysInMonth y m ≤ 31.
Proof.
  unfold daysInMonth.
  destruct (m =? 2); [destruct (isLeapYear y); lia|].
  destruct ((m =? 4) || (m =? 6) || (m =? 9) || (m =? 11)); lia.
Qed.

Lemma daysInMonth_january y : daysInMonth y 1 = 31.
Proof. reflexivity. Qed.

Lemma addDay_inWeekOf y0 j d :
  0 ≤ j ≤ 30 → inWeekOf y0 j d → inWeekOf y0 (j + 1) (addDay d).
Proof.
  intros Hj (Hm & Hd & Hy). unfold addDay, inWeekOf.
  pose proof (daysInMonth_bounds (year d) (month d)) as Hb.
  destruct (Z.ltb_spec (day d) (daysInMonth (year d) (month d))); simpl.
  - split; [done|]. split; [lia|]. destruct Hy as [?|(? & ? & ?)]; [by left|].
    right. lia.
  - destruct (Z.ltb_spec (month d) 12); simpl.
    + pose proof (daysInMonth_bounds (year d) (month d + 1)).
      split; [lia|]. split; [lia|].
      destruct Hy as [?|(? & Hjan & ?)]; [by left|].
      rewrite Hjan, daysInMonth_january in *. lia.
    + rewrite daysInMonth_january. split; [lia|]. split; [lia|].
      destruct Hy as [?|(? & Hjan & ?)]; [right; lia|]. lia.
Qed.

Lemma addDay_dateKey y0 j d :
  inWeekOf y0 j d → dateKey d < dateKey (addDay d).
Proof.
  intros (Hm & Hd & _). unfold addDay, dateKey.
  pose proof (daysInMonth_bounds (year d) (month d)) as Hb.
  destruct (Z.ltb_spec (day d) (daysInMonth (year d) (month d))); simpl;
    [lia|].
  destruct (Z.ltb_spec (month d) 12); simpl; lia.
Qed.

Lemma daysFrom_inWeekOf y0 n d j0 x :
  0 ≤ j0 → j0 + Z.of_nat n ≤ 31 → inWeekOf y0 j0 d →
  x ∈ daysFrom n d →
  inWeekOf y0 (j0 + Z.of_nat n) x.
Proof.
  revert d j0. induction n as [|n IH]; intros d j0 Hj0 Hn Hd Hx;
    simpl in Hx; [by apply elem_of_nil in Hx|].
  apply elem_of_cons in Hx as [->|Hx].
  - destruct Hd as (? & ? & Hy). repeat split; lia.
  - replace (j0 + Z.of_nat (S n)) with ((j0 + 1) + Z.of_nat n) by lia.
    apply (IH (addDay d) (j0 + 1)); [lia|lia| |done].
    apply addDay_inWeekOf; [lia|done].
Qed.

Lemma daysFrom_keys_above y0 n d j0 x :
  0 ≤ j0 → j0 + Z.of_nat n ≤ 31 → inWeekOf y0 j0 d →
  x ∈ daysFrom n (addDay d) → dateKey d < dateKey x.
Proof.
  revert d j0. induction n as [|n IH]; intros d j0 Hj0 Hn Hd Hx;
    simpl in Hx; [by apply elem_of_nil in Hx|].
  pose proof (addDay_dateKey _ _ _ Hd) as Hlt.
  apply elem_of_cons in Hx as [->|Hx]; [done|].
  etrans; [exact Hlt|].
  apply (IH (addDay d) (j0 + 1)); [lia|lia| |done].
  apply addDay_inWeekOf; [lia|done].
Qed.

Lemma daysFrom_sorted y0 n d j0 :
  0 ≤ j0 → j0 + Z.of_nat n ≤ 31 → inWeekOf y0 j0 d →
  StronglySorted Z.lt (dateKey <$> daysFrom n d).
Proof.
  revert d j0. induction n as [|n IH]; intros d j0 Hj0 Hn Hd; simpl;
    [constructor|].
  constructor.
  - apply (IH (addDay d) (j0 + 1)); [lia|lia|].
    apply addDay_inWeekOf; [lia|done].
  - apply Forall_fmap, Forall_forall. intros x Hx. simpl.
    eapply (daysFrom_keys_above y0 n d j0); [lia|lia|done|done].
Qed.

Lemma validDate_inWeekOf d : validDate d → inWeekOf (year d) 0 d.
Proof. intros (? & ? & ?). repeat split; lia. Qed.

Lemma weekLoop_daysFrom n d :
  weekLoop n d = formatYYYYMMDD <$> daysFrom n d.
Proof. revert d. induction n as [|n IH]; intros d; simpl; [done|]. by rewrite IH. Qed.

Lemma length_weekLoop n d : length (weekLoop n d) = n.
Proof. revert d. induction n as [|n IH]; intros d; simpl; [done|]. by rewrite IH. Qed.

End calendar.

Section format.

Lemma digitChar_inj a b :
  0 ≤ a < 10 → 0 ≤ b < 10 → digitChar a = digitChar b → a = b.
Proof.
  intros Ha Hb Heq. apply (f_equal nat_of_ascii) in Heq.
  unfold digitChar in Heq.
  rewrite !nat_ascii_embedding in Heq by lia. lia.
Qed.

Lemma pad2_inj a b : 0 ≤ a < 100 → 0 ≤ b < 100 → pad2 a = pad2 b → a = b.
Proof.
  intros Ha Hb [= H1 H0].
  apply digitChar_inj in H1, H0;
    try (split; [apply Z.mod_pos_bound|apply Z.mod_pos_bound]; lia).
  Z.to_euclidean_division_equations. lia.
Qed.

Lemma pad4_app_inj a b s t :
  0 ≤ a < 10000 → 0 ≤ b < 10000 →
  (pad4 a ++ s)%string = (pad4 b ++ t)%string → a = b ∧ s = t.
Proof.
  intros Ha Hb [= H3 H2 H1 H0 Hst]. split; [|done].
  apply digitChar_inj in H3, H2, H1, H0;
    try (split; [apply Z.mod_pos_bound|apply Z.mod_pos_bound]; lia).
  Z.to_euclidean_division_equations. lia.
Qed.

Lemma pad2_app_inj a b s t :
  0 ≤ a < 100 → 0 ≤ b < 100 →
  (pad2 a ++ s)%string = (pad2 b ++ t)%string → a = b ∧ s = t.
Proof.
  intros Ha Hb [= H1 H0 Hst]. split; [|done].
  apply pad2_inj; [done|done|]. unfold pad2. by rewrite H1, H0.
Qed.

Lemma formatYYYYMMDD_inj d1 d2 :
  0 ≤ year d1 < 10000 → 0 ≤ month d1 < 100 → 0 ≤ day d1 < 100 →
  0 ≤ year d2 < 10000 → 0 ≤ month d2 < 100 → 0 ≤ day d2 < 100 →
  formatYYYYMMDD d1 = formatYYYYMMDD d2 → d1 = d2.
Proof.
  destruct d1 as [y1 m1 dd1], d2 as [y2 m2 dd2]. simpl.
  intros ? ? ? ? ? ?. unfold formatYYYYMMDD. simpl year; simpl month; simpl day.
  intros [-> Hrest]%pad4_app_inj; [|done|done].
  apply pad2_app_inj in Hrest as [-> Hd]; [|done|done].
  apply pad2_inj in Hd as ->; done.
Qed.

Lemma inWeekOf_printable y0 j d :
  0 ≤ y0 < 9999 → inWeekOf y0 j d →
  0 ≤ year d < 10000 ∧ 0 ≤ month d < 100 ∧ 0 ≤ day d < 100.
Proof.
  intros Hy (Hm & Hd & Hyear).
  pose proof (daysInMonth_bounds (year d) (month d)). lia.
Qed.

Lemma sorted_lt_NoDup (l : list Z) : StronglySorted Z.lt l → NoDup l.
Proof.
  induction 1 as [|x l _ IH Hall]; constructor; [|done].
  intros Hin. rewrite Forall_forall in Hall. specialize (Hall _ Hin). lia.
Qed.

Lemma getWeekDates_NoDup today :
  validDate today → NoDup (getWeekDates today).
Proof.
  intros Hvalid. unfold getWeekDates. rewrite weekLoop_daysFrom.
  pose proof (validDate_inWeekOf _ Hvalid) as Hweek.
  assert (0 ≤ year today < 9999) as Hy by apply Hvalid.
  apply NoDup_fmap_2_strong.
  - intros x y Hx Hy' Heq.
    apply (daysFrom_inWeekOf (year today) 7 today 0) in Hx, Hy';
      [|lia..|done|lia|lia|done].
    apply (inWeekOf_printable _ _ _ Hy) in Hx as (? & ? & ?).
    apply (inWeekOf_printable _ _ _ Hy) in Hy' as (? & ? & ?).
    by apply formatYYYYMMDD_inj.
  - apply (NoDup_fmap_1 dateKey).
    pose proof (daysFrom_sorted (year today) 7 today 0) as Hsorted.
    apply sorted_lt_NoDup, Hsorted; [lia|simpl; lia|done].
Qed.

End format.

Section tasks.
Implicit Types (targets : list SearchItem) (dates : list string)
  (t : SearchTask).

Lemma buildSearchTasks_cons item targets dates :
  buildSearchTasks (item :: targets) dates =
  ((taskOf item <$> dates) ++ buildSearchTasks targets dates)%list.
Proof. reflexivity. Qed.

Lemma length_buildSearchTasks targets dates :
  length (buildSearchTasks targets dates)
  = (length targets * length dates)%nat.
Proof.
  induction targets as [|item targets IH]; [done|].
  rewrite buildSearchTasks_cons, length_app, length_fmap, IH. simpl. lia.
Qed.

Lemma elem_of_buildSearchTasks t targets dates :
  t ∈ buildSearchTasks targets dates ↔
  ∃ item d, item ∈ targets ∧ d ∈ dates ∧ t = taskOf item d.
Proof.
  induction targets as [|item targets IH].
  - simpl. split; [by intros ?%elem_of_nil|].
    by intros (? & ? & ?%elem_of_nil & _).
  - rewrite buildSearchTasks_cons, elem_of_app, IH, list_elem_of_fmap.
    split.
    + intros [(d & -> & Hd)|(it & d & Hit & Hd & ->)].
      * exists item, d. split; [left|done].
      * exists it, d. split; [by right|done].
    + intros (it & d & Hit & Hd & ->).
      apply elem_of_cons in Hit as [->|Hit]; [left; eauto|right; eauto].
Qed.

Lemma lookup_buildSearchTasks targets dates i j item d :
  targets !! i = Some item → dates !! j = Some d →
  buildSearchTasks targets dates !! (i * length dates + j)%nat
  = Some (taskOf item d).
Proof.
  revert i. induction targets as [|it targets IH]; intros i Hi Hj; [done|].
  rewrite buildSearchTasks_cons. destruct i as [|i]; simpl in Hi.
  - simplify_eq. change (0 * length dates + j)%nat with j.
    rewrite lookup_app_l.
    + by rewrite list_lookup_fmap, Hj.
    + rewrite length_fmap. by apply lookup_lt_Some in Hj.
  - rewrite lookup_app_r; rewrite length_fmap; [|simpl; lia].
    replace (S i * length dates + j - length dates)%nat
      with (i * length dates + j)%nat by (simpl; lia).
    by apply IH.
Qed.

Lemma buildSearchTasks_NoDup targets dates :
  NoDup (item_idx <$> targets) → NoDup dates →
  NoDup ((λ t, (idx t, date t)) <$> buildSearchTasks targets dates).
Proof.
  intros Htargets Hdates.
  induction targets as [|item targets IH]; [constructor|].
  rewrite fmap_cons in Htargets. apply NoDup_cons in Htargets as [Hnew Hrest].
  rewrite buildSearchTasks_cons, fmap_app. apply NoDup_app. split; [|split].
  - rewrite <- list_fmap_compose.
    apply NoDup_fmap_2; [|done]. by intros d1 d2 [= ->].
  - intros [i d]. rewrite <- list_fmap_compose.
    intros (d' & [= -> ->] & _)%list_elem_of_fmap
           (t & [= Hi Hd] & Ht)%list_elem_of_fmap.
    apply elem_of_buildSearchTasks in Ht as (it & d'' & Hit & _ & ->).
    simpl in Hi. apply Hnew. rewrite Hi. by apply list_elem_of_fmap_2.
  - by apply IH.
Qed.

End tasks.

(** C3, as stated, fails: the target list is not purged of repeated
    identifiers, and a list that names one identifier twice yields the same
    (identifier, date) pair twice ([G_SEARCH_LIST] set to "5,5" gives this
    list). *)
Lemma C3_repeated_target_counterexample :
  ¬ (∀ (targets : list SearchItem) (today : CalDate),
       targets ≠ [] → validDate today →
       NoDup ((λ t, (idx t, date t))
                <$> buildSearchTasks targets (getWeekDates today))).
Proof.
  intros H.
  specialize (H [mkItem "5"; mkItem "5"] (mkDate 2025 11 3)).
  assert (validDate (mkDate 2025 11 3)) as Hvalid
    by (unfold validDate; simpl; vm_compute; intuition discriminate).
  specialize (H ltac:(done) Hvalid).
  vm_compute in H. apply NoDup_cons in H as [Hnotin _].
  apply Hnotin. apply list_elem_of_lookup. by exists 6%nat.
Qed.

(** C3, amended: for a target list of size T whose identifiers are pairwise
    distinct and a date [today] of the calendar (read in Asia/Seoul), one
    cycle generates exactly T × 7 tasks: the task at position [i * 7 + j] is
    that of target [i] and of the [j]-th of the 7 consecutive calendar dates
    starting today, the dates being in strictly ascending order; the
    (identifier, date) pairs are pairwise distinct; the url of each task is
    [taskUrl] of its identifier and date; the empty list yields no task. *)
Theorem C3_task_generation (targets : list SearchItem) (today : CalDate)
    (Hvalid : validDate today)
    (Hdistinct : NoDup (item_idx <$> targets)) :
  let weekDates := getWeekDates today in
  let tasks := buildSearchTasks targets weekDates in
  length tasks = (length targets * 7)%nat
  ∧ weekDates = formatYYYYMMDD <$> daysFrom 7 today
  ∧ StronglySorted Z.lt (dateKey <$> daysFrom 7 today)
  ∧ (∀ i j item d,
       targets !! i = Some item → weekDates !! j = Some d →
       tasks !! (i * 7 + j)%nat
       = Some (mkTask (item_idx item) d (taskUrl (item_idx item) d)))
  ∧ NoDup ((λ t, (idx t, date t)) <$> tasks)
  ∧ (∀ t, t ∈ tasks → url t = taskUrl (idx t) (date t))
  ∧ buildSearchTasks [] weekDates = [].
Proof.
  intros weekDates tasks. subst weekDates tasks.
  split; [|split; [|split; [|split; [|split; [|split]]]]].
  - rewrite length_buildSearchTasks. unfold getWeekDates.
    by rewrite length_weekLoop.
  - apply weekLoop_daysFrom.
  - apply (daysFrom_sorted (year today) 7 today 0); [lia|simpl; lia|].
    by apply validDate_inWeekOf.
  - intros i j item d Hi Hj.
    pose proof (lookup_buildSearchTasks _ _ _ _ _ _ Hi Hj) as Hlook.
    unfold getWeekDates in *. by rewrite length_weekLoop in Hlook.
  - apply buildSearchTasks_NoDup; [done|]. by apply getWeekDates_NoDup.
  - intros t (item & d & _ & _ & ->)%elem_of_buildSearchTasks. done.
  - done.
Qed.

Lemma C3_task_generation_witness :
  let targets := [mkItem "25"; mkItem "5"] in
  let today := mkDate 2024 12 29 in
  let weekDates := getWeekDates today in
  let tasks := buildSearchTasks targets weekDates in
  length tasks = (length targets * 7)%nat
  ∧ weekDates = formatYYYYMMDD <$> daysFrom 7 today
  ∧ StronglySorted Z.lt (dateKey <$> daysFrom 7 today)
  ∧ (∀ i j item d,
       targets !! i = Some item → weekDates !! j = Some d →
       tasks !! (i * 7 + j)%nat
       = Some (mkTask (item_idx item) d (taskUrl (item_idx item) d)))
  ∧ NoDup ((λ t, (idx t, date t)) <$> tasks)
  ∧ (∀ t, t ∈ tasks → url t = taskUrl (idx t) (date t))
  ∧ buildSearchTasks [] weekDates = [].
Proof.
  apply (C3_task_generation [mkItem "25"; mkItem "5"] (mkDate 2024 12 29)).
  - unfold validDate. simpl. vm_compute. intuition discriminate.
  - simpl. apply NoDup_cons. split; [|apply NoDup_singleton].
    intros Hin%list_elem_of_singleton. discriminate.
Defined.

(** * Batches *)

Section batching.
Context {A : Type}.
Implicit Types (tasks batch : list A) (K i fuel : nat).

Lemma batchesFrom_concat fuel K i tasks :
  (0 < K)%nat → (length tasks - i ≤ fuel)%nat →
  concat (batchesFrom fuel K i tasks) = drop i tasks.
Proof.
  intros HK. revert i.
  induction fuel as [|fuel IH]; intros i Hfuel; simpl.
  - rewrite drop_ge; [done|lia].
  - destruct (Nat.ltb_spec i (length tasks)); simpl.
    + rewrite IH by lia. rewrite <- drop_drop. apply take_drop.
    + rewrite drop_ge; [done|lia].
Qed.

Lemma batchesFrom_sizes fuel K i tasks :
  (0 < K)%nat →
  Forall (λ batch, (0 < length batch ≤ K)%nat) (batchesFrom fuel K i tasks).
Proof.
  intros HK. revert i. induction fuel as [|fuel IH]; intros i; simpl;
    [constructor|].
  destruct (Nat.ltb_spec i (length tasks)); [|constructor].
  constructor; [|apply IH].
  rewrite length_take, length_drop. lia.
Qed.

(** More fuel than tasks changes nothing: the loop has ended. *)
Lemma batchesFrom_fuel fuel fuel' K i tasks :
  (0 < K)%nat → (length tasks - i ≤ fuel)%nat →
  (length tasks - i ≤ fuel')%nat →
  batchesFrom fuel K i tasks = batchesFrom fuel' K i tasks.
Proof.
  intros HK. revert fuel' i.
  induction fuel as [|fuel IH]; intros [|fuel'] i Hfuel Hfuel'; simpl;
    try done.
  - destruct (Nat.ltb_spec i (length tasks)); [lia|done].
  - destruct (Nat.ltb_spec i (length tasks)); [lia|done].
  - destruct (Nat.ltb_spec i (length tasks)); [|done].
    f_equal. apply IH; lia.
Qed.

Lemma batchesFrom_lookup fuel K i tasks j :
  (0 < K)%nat → (length tasks - i ≤ fuel)%nat →
  batchesFrom fuel K i tasks !! j =
  if decide (i + j * K < length tasks)%nat
  then Some (take K (drop (i + j * K) tasks)) else None.
Proof.
  intros HK. revert i j.
  induction fuel as [|fuel IH]; intros i j Hfuel; simpl.
  - rewrite decide_False; [done|]. nia.
  - destruct (Nat.ltb_spec i (length tasks)) as [Hlt|Hge].
    + destruct j as [|j]; simpl.
      * rewrite Nat.add_0_r. by rewrite decide_True.
      * rewrite IH by lia.
        replace (i + K + j * K)%nat with (i + (K + j * K))%nat by lia.
        done.
    + rewrite decide_False; [done|]. nia.
Qed.

End batching.

(** ** Runs of async functions *)

Section runs.
Context {A B : Type}.
Implicit Types (env : Driver) (σ : Sync) (n : nat).

Lemma run_bind (p : Proc A) (f : A → Proc B) env n σ :
  run (bind p f) env n σ =
  match run p env n σ with
  | (σ1, Resolved a, n1) => run (f a) env n1 σ1
  | (σ1, Rejected e, n1) => (σ1, Rejected e, n1)
  end.
Proof.
  revert n σ. induction p as [a|e|c k IH|k IH|e k IH|h k IH|b k IH];
    intros n σ; simpl; auto.
Qed.

Lemma run_try (p : Proc A) env n σ :
  run (try_ p) env n σ =
  match run p env n σ with
  | (σ1, Resolved a, n1) => (σ1, Resolved (inr a), n1)
  | (σ1, Rejected e, n1) => (σ1, Resolved (inl e), n1)
  end.
Proof.
  revert n σ. induction p as [a|e|c k IH|k IH|e k IH|h k IH|b k IH];
    intros n σ; simpl; auto.
Qed.

End runs.

Lemma run_deliverDialogs msgs env n σ :
  alertAppeared σ ≠ None →
  run (deliverDialogs msgs) env n σ =
  (match msgs with
   | [] => σ
   | _ => mkSync (now σ) (emailSentHistory σ)
                 (out σ ++ dialogEvents msgs) (Some true)
   end, Resolved tt, n).
Proof.
  revert σ. induction msgs as [|msg msgs IH]; intros σ Hlisten; [done|].
  simpl. rewrite IH by done.
  destruct msgs as [|msg' msgs]; unfold emitted, withAlert; simpl.
  - by rewrite <- !app_assoc.
  - by rewrite <- !app_assoc.
Qed.

Lemma run_awaitAny c env n σ :
  run (awaitAny c) env n σ = (answered c (env n c) σ, Resolved (env n c), S n).
Proof.
  unfold awaitAny, answered, delivered. simpl.
  destruct (alertAppeared σ) as [b|] eqn:Halert; simpl; [|done].
  rewrite run_bind, run_deliverDialogs by (simpl; congruence).
  by destruct (r_dialogs (env n c)).
Qed.

Lemma run_await c env n σ :
  run (await c) env n σ =
  (answered c (env n c) σ,
   match r_throw (env n c) with
   | Some e => Rejected e
   | None => Resolved (env n c)
   end, S n).
Proof.
  unfold await. rewrite run_bind, run_awaitAny.
  by destruct (r_throw (env n c)).
Qed.

Lemma run_delay ms env n σ :
  run (delay ms) env n σ =
  (answered (CmdDelay ms) (env n (CmdDelay ms)) σ,
   Resolved (env n (CmdDelay ms)), S n).
Proof. apply run_awaitAny. Qed.

Lemma run_emit e env n σ : run (emit e) env n σ = (emitted e σ, Resolved tt, n).
Proof. reflexivity. Qed.

Lemma run_log m env n σ :
  run (log m) env n σ = (emitted (EvLog m) σ, Resolved tt, n).
Proof. reflexivity. Qed.

Lemma run_read env n σ : run read env n σ = (σ, Resolved σ, n).
Proof. reflexivity. Qed.

(** ** The state along a run *)

Section states.
Implicit Types (σ : Sync) (c : Cmd) (r : Resp) (tr : list Event).

Lemma protocol_app tr1 tr2 :
  protocol (tr1 ++ tr2) = (protocol tr1 ++ protocol tr2)%list.
Proof. apply filter_app. Qed.

Lemma protocol_dialogEvents msgs : protocol (dialogEvents msgs) = [].
Proof. induction msgs as [|msg msgs IH]; [done|]. simpl. exact IH. Qed.

Lemma awaited_app tr1 tr2 :
  awaited (tr1 ++ tr2) = (awaited tr1 ++ awaited tr2)%list.
Proof. apply omap_app. Qed.

Lemma notifications_app tr1 tr2 :
  notifications (tr1 ++ tr2) = (notifications tr1 ++ notifications tr2)%list.
Proof. apply omap_app. Qed.

Lemma notifications_dialogEvents msgs : notifications (dialogEvents msgs) = [].
Proof. induction msgs as [|msg msgs IH]; [done|]. simpl. exact IH. Qed.

Lemma out_answered c r σ :
  out (answered c r σ) =
  (out σ ++ [EvAwait c; EvResume c r]
     ++ match alertAppeared σ with
        | Some _ => dialogEvents (r_dialogs r)
        | None => []
        end)%list.
Proof.
  unfold answered, delivered, resumed. simpl.
  destruct (alertAppeared σ), (r_dialogs r); simpl;
    rewrite <- ?app_assoc; simpl; by rewrite ?app_nil_r.
Qed.

Lemma history_answered c r σ :
  emailSentHistory (answered c r σ) = emailSentHistory σ.
Proof.
  unfold answered, delivered, resumed. simpl.
  by destruct (alertAppeared σ), (r_dialogs r).
Qed.

Lemma now_answered c r σ : now (answered c r σ) = r_now r.
Proof.
  unfold answered, delivered, resumed. simpl.
  by destruct (alertAppeared σ), (r_dialogs r).
Qed.

Lemma alert_answered c r σ :
  alertAppeared (answered c r σ) =
  match alertAppeared σ with
  | Some b => Some (b || bool_decide (r_dialogs r ≠ []))
  | None => None
  end.
Proof.
  unfold answered, delivered, resumed. simpl.
  destruct (alertAppeared σ) as [[]|], (r_dialogs r); simpl; done.
Qed.

Lemma protocol_answered c r σ :
  protocol (out (answered c r σ)) =
  (protocol (out σ) ++ protocol [EvAwait c])%list.
Proof.
  rewrite out_answered, !protocol_app.
  replace (protocol [EvAwait c; EvResume c r]) with (protocol [EvAwait c])
    by (by destruct c).
  destruct (alertAppeared σ); rewrite ?protocol_dialogEvents;
    by rewrite app_nil_r.
Qed.

Lemma notifications_answered c r σ :
  notifications (out (answered c r σ)) = notifications (out σ).
Proof.
  rewrite out_answered, !notifications_app. simpl.
  destruct (alertAppeared σ); rewrite ?notifications_dialogEvents;
    by rewrite app_nil_r.
Qed.

Lemma listening_answered c r σ :
  alertAppeared σ ≠ None → alertAppeared (answered c r σ) ≠ None.
Proof. rewrite alert_answered. by destruct (alertAppeared σ). Qed.

End states.

(** ** Quiet stretches of a run *)

Section quiet.
Implicit Types (σ : Sync) (c : Cmd) (r : Resp) (steps : list Event).


Lemma quietly_trans σ1 σ2 σ3 steps1 steps2 :
  quietly σ1 σ2 steps1 → quietly σ2 σ3 steps2 →
  quietly σ1 σ3 (steps1 ++ steps2).
Proof.
  intros (Hp1 & Hn1 & Hh1 & Hl1) (Hp2 & Hn2 & Hh2 & Hl2).
  unfold quietly. rewrite Hp2, Hp1, Hn2, Hn1, Hh2, Hh1, app_assoc.
  repeat split; auto.
Qed.

Lemma quietly_answered c r σ :
  quietly σ (answered c r σ) (protocol [EvAwait c]).
Proof.
  unfold quietly.
  rewrite protocol_answered, notifications_answered, history_answered.
  repeat split; auto using listening_answered.
Qed.

Lemma quietly_log m σ :
  quietly σ (emitted (EvLog m) σ) (protocol [EvLog m]).
Proof. unfold quietly. simpl. rewrite protocol_app, notifications_app. simpl.
  by rewrite app_nil_r. Qed.

Lemma quietly_withAlert b σ : quietly σ (withAlert b σ) [].
Proof. unfold quietly. simpl. by rewrite app_nil_r. Qed.

End quiet.

Ltac run_step :=
  cbn beta iota;
  first [ rewrite run_bind | rewrite run_try | rewrite run_await
        | rewrite run_delay | rewrite run_awaitAny | rewrite run_log
        | rewrite run_emit | rewrite run_read ];
  cbn beta iota.

Ltac run_steps := repeat run_step.




(** ** The reserve button is never found *)

Section never_found.
Context (env : Driver).
Hypothesis Hok : ∀ n c, r_throw (env n c) = None.
Hypothesis Hnone :
  ∀ n handle, includes (r_text (env n (CmdTextOf handle))) reserveMarker = false.



End never_found.



(** ** The non-member button is never found *)

Section non_member_never_found.
Context (env : Driver) (n1 : nat).
Hypothesis Hok : ∀ n c, (n1 ≤ n)%nat → r_throw (env n c) = None.
Hypothesis Hnone :
  ∀ n, (n1 ≤ n)%nat → nonMemberClick (r_dom (env n CmdEvalNonMember)) = None.


End non_member_never_found.

(** What [enterReservation] having found the button says of its parts. *)
Lemma enterReservation_found task env σ0 σ1 n1 currentUrl bookingName :
  run (enterReservation task) env 0 σ0
  = (σ1, Resolved (currentUrl, Some bookingName), n1) →
  ∃ σb nb,
    r_throw (env 0%nat CmdNewPage) = None
    ∧ run (navigate task) env 1 (answered CmdNewPage (env 0%nat CmdNewPage) σ0)
      = (σb, Resolved currentUrl, nb)
    ∧ run (locateReserveButton maxReserveButtonAttempts 1) env nb σb
      = (σ1, Resolved (Some bookingName), n1).
Proof.
  unfold enterReservation. run_step. run_step.
  destruct (r_throw (env 0%nat CmdNewPage)); [done|].
  run_step.
  destruct (run (navigate task) env 1 _) as [[σb [cur|e]] nb] eqn:Hnav;
    [|done].
  run_step.
  destruct (run (locateReserveButton _ _) env nb σb) as [[σc [found|e]] nc]
    eqn:Hloc; [|done].
  cbn [run]. intros [= -> -> -> ->]. eauto.
Qed.


(** ** What a function can leave behind *)

Section obeys.
Context {A : Type} (okC : Cmd → bool) (okE : Event → bool) (okH : bool).

Lemma Obeys_bind {B} (p : Proc A) (f : A → Proc B) :
  Obeys okC okE okH p → (∀ a, Obeys okC okE okH (f a)) →
  Obeys okC okE okH (bind p f).
Proof. induction 1; intros Hf; simpl; try constructor; auto. Qed.

Lemma Obeys_try (p : Proc A) :
  Obeys okC okE okH p → Obeys okC okE okH (try_ p).
Proof. induction 1; simpl; constructor; auto. Qed.

Lemma Obeys_run (p : Proc A) env n σ σ' res n' :
  Obeys okC okE okH p → run p env n σ = (σ', res, n') →
  ∃ evs, out σ' = (out σ ++ evs)%list
         ∧ Forall (λ e, okEvent okC okE e = true) evs
         ∧ (okH = false → emailSentHistory σ' = emailSentHistory σ).
Proof.
  intros Hp. revert n σ.
  induction Hp as [a|e|c k Hc _ IH|k _ IH|e k He _ IH|h k Hh _ IH|b k _ IH];
    intros n σ Hrun; simpl in Hrun.
  - simplify_eq. exists []. by rewrite app_nil_r.
  - simplify_eq. exists []. by rewrite app_nil_r.
  - apply IH in Hrun as (evs & -> & Hall & Hhist).
    exists ([EvAwait c; EvResume c (env n c)] ++ evs)%list. simpl.
    split; [by rewrite <- app_assoc|]. split; [|done].
    repeat constructor; [| |done]; unfold okEvent; rewrite Hc;
      by rewrite orb_true_r.
  - by apply IH in Hrun.
  - apply IH in Hrun as (evs & -> & Hall & Hhist).
    exists (e :: evs). simpl. split; [by rewrite <- app_assoc|].
    split; [|done]. constructor; [|done]. unfold okEvent. by rewrite He.
  - apply IH in Hrun as (evs & -> & Hall & Hhist).
    exists evs. simpl. split; [done|]. split; [done|]. congruence.
  - apply IH in Hrun as (evs & -> & Hall & Hhist). by exists evs.
Qed.

Lemma Obeys_advance (p p' : Proc A) σ σ' :
  Obeys okC okE okH p → advance p σ = (σ', p') →
  Obeys okC okE okH p'
  ∧ (∃ evs, out σ' = (out σ ++ evs)%list
            ∧ Forall (λ e, okE e = true) evs)
  ∧ (okH = false → emailSentHistory σ' = emailSentHistory σ).
Proof.
  intros Hp. revert σ.
  induction Hp as [a|e|c k Hc Hk IH|k _ IH|e k He _ IH|h k Hh _ IH|b k _ IH];
    intros σ Hadv; simpl in Hadv.
  - simplify_eq. split; [constructor|]. split; [|done].
    exists []. by rewrite app_nil_r.
  - simplify_eq. split; [constructor|]. split; [|done].
    exists []. by rewrite app_nil_r.
  - simplify_eq. split; [by constructor|]. split; [|done].
    exists []. by rewrite app_nil_r.
  - by apply IH in Hadv.
  - apply IH in Hadv as (Hp' & (evs & -> & Hall) & Hhist).
    split; [done|]. split; [|done].
    exists (e :: evs). simpl. split; [by rewrite <- app_assoc|].
    by constructor.
  - apply IH in Hadv as (Hp' & (evs & -> & Hall) & Hhist).
    split; [done|]. split; [by exists evs|]. congruence.
  - apply IH in Hadv as (Hp' & (evs & -> & Hall) & Hhist).
    split; [done|]. split; [by exists evs|done].
Qed.

End obeys.

Lemma Obeys_deliverDialogs okC okE okH msgs :
  (∀ msg, okE (EvLog (LogAlertRaised msg)) = true) →
  (∀ msg, okE (EvDismiss msg) = true) →
  Obeys okC okE okH (deliverDialogs msgs).
Proof.
  intros Hlog Hdismiss. induction msgs as [|msg msgs IH]; simpl;
    repeat constructor; auto.
Qed.

Lemma Obeys_awaitAny okC okE okH c :
  okC c = true →
  (∀ msg, okE (EvLog (LogAlertRaised msg)) = true) →
  (∀ msg, okE (EvDismiss msg) = true) →
  Obeys okC okE okH (awaitAny c).
Proof.
  intros Hc Hlog Hdismiss. unfold awaitAny. constructor; [done|]. intros r.
  simpl. constructor. intros σ. apply Obeys_bind; [|constructor].
  destruct (alertAppeared σ); [|constructor].
  by apply Obeys_deliverDialogs.
Qed.

Lemma Obeys_await okC okE okH c :
  okC c = true →
  (∀ msg, okE (EvLog (LogAlertRaised msg)) = true) →
  (∀ msg, okE (EvDismiss msg) = true) →
  Obeys okC okE okH (await c).
Proof.
  intros Hc Hlog Hdismiss. unfold await.
  apply Obeys_bind; [by apply Obeys_awaitAny|].
  intros r. destruct (r_throw r); constructor.
Qed.

Section prober_obeys.
Context (okC : Cmd → bool) (okE : Event → bool) (okH : bool).
Hypothesis HokC : ∀ c, insideCmd c = true → okC c = true.
Hypothesis HokE : ∀ e, quietEvent e = true → okE e = true.

Local Hint Extern 1 (okC _ = true) => (apply HokC; reflexivity) : core.
Local Hint Extern 1 (okE _ = true) => (apply HokE; reflexivity) : core.

Ltac obeys' :=
  repeat first
    [ assumption
    | solve [auto 2]
    | apply Obeys_await
    | apply Obeys_awaitAny
    | apply Obeys_deliverDialogs
    | apply Obeys_try
    | apply Obeys_bind
    | progress unfold delay, log, emit, read, awaitResolved, rethrow
    | (apply HokC; reflexivity)
    | (apply HokE; reflexivity)
    | constructor
    | intros ?
    | case_match ].

Lemma Obeys_scanReserveButtons attempt handles :
  Obeys okC okE okH (scanReserveButtons attempt handles).
Proof.
  induction handles as [|handle handles IH]; simpl; obeys'.
Qed.

Lemma Obeys_locateReserveButton k attempt :
  Obeys okC okE okH (locateReserveButton k attempt).
Proof.
  revert attempt. induction k as [|k IH]; intros attempt; simpl;
    [constructor|].
  pose proof Obeys_scanReserveButtons.
  unfold reserveRetry. obeys'.
Qed.

Lemma Obeys_clickNonMember k attempt :
  Obeys okC okE okH (clickNonMember k attempt).
Proof.
  revert attempt. induction k as [|k IH]; intros attempt; simpl;
    [constructor|].
  unfold nonMemberRetry. obeys'.
Qed.

Lemma Obeys_navigate task : Obeys okC okE okH (navigate task).
Proof. unfold navigate. obeys'. Qed.

Lemma Obeys_engageNonMember : Obeys okC okE okH engageNonMember.
Proof.
  pose proof Obeys_clickNonMember. unfold engageNonMember. obeys'.
Qed.

End prober_obeys.

Lemma quietEvent_taskEvent e : quietEvent e = true → taskEvent e = true.
Proof. by destruct e. Qed.

Section task_obeys.
Context (okC : Cmd → bool) (okE : Event → bool).
Hypothesis HokC : ∀ c, insideCmd c = true → okC c = true.
Hypothesis HokE : ∀ e, taskEvent e = true → okE e = true.

Lemma HokE_quiet e : quietEvent e = true → okE e = true.
Proof. intros ?. by apply HokE, quietEvent_taskEvent. Qed.

Ltac obeys'' :=
  repeat first
    [ assumption
    | solve [auto 2]
    | apply Obeys_await
    | apply Obeys_awaitAny
    | apply Obeys_deliverDialogs
    | apply Obeys_try
    | apply Obeys_bind
    | progress unfold delay, log, emit, read, awaitResolved, rethrow
    | (apply HokC; reflexivity)
    | (apply HokE; reflexivity)
    | constructor
    | intros ?
    | case_match ].

Lemma Obeys_notify cfg task formattedDate bookingName :
  Obeys okC okE true (notify cfg task formattedDate bookingName).
Proof.
  unfold notify, canSendEmail, sendEmail, recordEmailSent. obeys''.
Qed.

Lemma Obeys_observeResult cfg task currentUrl bookingName :
  Obeys okC okE true (observeResult cfg task currentUrl bookingName).
Proof.
  pose proof Obeys_notify. unfold observeResult. obeys''.
Qed.

Lemma Obeys_probe cfg task : Obeys okC okE true (probe cfg task).
Proof.
  pose proof (Obeys_navigate okC okE true HokC HokE_quiet).
  pose proof (Obeys_locateReserveButton okC okE true HokC HokE_quiet).
  pose proof (Obeys_scanReserveButtons okC okE true HokC HokE_quiet).
  pose proof (Obeys_clickNonMember okC okE true HokC HokE_quiet).
  pose proof (Obeys_engageNonMember okC okE true HokC HokE_quiet).
  pose proof Obeys_observeResult.
  unfold probe, reportMissing. obeys''.
Qed.

Hypothesis HnewPage : okC CmdNewPage = true.
Hypothesis HpageClose : okC CmdPageClose = true.

Lemma Obeys_checkReservation cfg task :
  Obeys okC okE true (checkReservation cfg task).
Proof.
  pose proof Obeys_probe.
  pose proof (Obeys_scanReserveButtons okC okE true HokC HokE_quiet).
  pose proof (Obeys_clickNonMember okC okE true HokC HokE_quiet).
  unfold checkReservation, tryCatchFinally. obeys''.
Qed.

End task_obeys.

(** The page is entered without a word to the notifier or the cache. *)
Lemma notifications_quiet evs :
  Forall (λ e, okEvent taskCmd quietEvent e = true) evs → notifications evs = [].
Proof.
  induction 1 as [|e evs He _ IH]; [done|].
  destruct e; try done; simpl; exact IH.
Qed.

Lemma Obeys_enterReservation task :
  Obeys taskCmd quietEvent false (enterReservation task).
Proof.
  assert (∀ c, insideCmd c = true → taskCmd c = true) as HokC
    by (by intros []).
  pose proof (Obeys_navigate taskCmd quietEvent false HokC (λ e H, H)).
  pose proof (Obeys_locateReserveButton taskCmd quietEvent false HokC (λ e H, H)).
  unfold enterReservation.
  apply Obeys_bind; [by apply Obeys_await|]. intros _.
  apply Obeys_bind; [done|]. intros currentUrl.
  apply Obeys_bind; [done|]. intros found. constructor.
Qed.



(** ** The notification branch *)

Section notify_runs.
Context (cfg : Config) (task : SearchTask) (bookingName : string).
Context (env : Driver) (n : nat) (σ : Sync).

Lemma run_notify_skip :
  Dedup.canSendEmail (now σ) (emailSentHistory σ) (url task) = false →
  ∃ m, run (notify cfg task (formatDashed (date task)) bookingName) env n σ
       = (emitted (EvLog (LogMailSkipped m))
                  (emitted (EvCanSend (url task) (now σ) false) σ),
          Resolved tt, n).
Proof.
  intros Hno. unfold notify, canSendEmail.
  repeat (run_step || rewrite Hno || (progress cbn [run])). eauto.
Qed.

Lemma run_notify_production_sent :
  Dedup.canSendEmail (now σ) (emailSentHistory σ) (url task) = true →
  isDevelopment cfg = false →
  r_throw (env n (CmdSendMail (url task) (mailName task bookingName))) = None →
  run (notify cfg task (formatDashed (date task)) bookingName) env n σ
  = (recorded (url task)
       (answered (CmdSendMail (url task) (mailName task bookingName))
                 (env n (CmdSendMail (url task) (mailName task bookingName)))
                 (sending (url task) (mailName task bookingName) σ)),
     Resolved tt, S n).
Proof.
  intros Hyes Hprod Hsent.
  unfold notify, canSendEmail, sendEmail, recordEmailSent.
  fold (mailName task bookingName). rewrite Hprod.
  repeat (run_step || rewrite Hyes || rewrite Hsent || (progress cbn [run])).
  reflexivity.
Qed.

Lemma run_notify_production_failed e :
  Dedup.canSendEmail (now σ) (emailSentHistory σ) (url task) = true →
  isDevelopment cfg = false →
  r_throw (env n (CmdSendMail (url task) (mailName task bookingName)))
  = Some e →
  run (notify cfg task (formatDashed (date task)) bookingName) env n σ
  = (answered (CmdSendMail (url task) (mailName task bookingName))
              (env n (CmdSendMail (url task) (mailName task bookingName)))
              (sending (url task) (mailName task bookingName) σ),
     Rejected e, S n).
Proof.
  intros Hyes Hprod Hfail.
  unfold notify, canSendEmail, sendEmail, recordEmailSent.
  fold (mailName task bookingName). rewrite Hprod.
  repeat (run_step || rewrite Hyes || rewrite Hfail || (progress cbn [run])).
  reflexivity.
Qed.

Lemma run_notify_development :
  Dedup.canSendEmail (now σ) (emailSentHistory σ) (url task) = true →
  isDevelopment cfg = true →
  run (notify cfg task (formatDashed (date task)) bookingName) env n σ
  = (recorded (url task)
       (resumed CmdResolved (env n CmdResolved)
          (emitted (EvLog (LogDevMail (url task) (mailName task bookingName)))
                   (sending (url task) (mailName task bookingName) σ))),
     Resolved tt, S n).
Proof.
  intros Hyes Hdev.
  unfold notify, canSendEmail, sendEmail, recordEmailSent.
  fold (mailName task bookingName). rewrite Hdev.
  repeat (run_step || rewrite Hyes || (progress cbn [run])).
  reflexivity.
Qed.

End notify_runs.

(** ** The [try] block and what follows it *)


Lemma checkReservation_guarded cfg task :
  checkReservation cfg task = (await CmdNewPage;; guarded (probe cfg task)).
Proof. reflexivity. Qed.

Section guarded_runs.
Context {A : Type} (env : Driver).
Implicit Types (body : Proc ProbeOutcome) (σ : Sync) (n : nat).

Lemma run_guarded_bind (p : Proc A) (f : A → Proc ProbeOutcome) n σ σ' a n' :
  run p env n σ = (σ', Resolved a, n') →
  run (guarded (bind p f)) env n σ = run (guarded (f a)) env n' σ'.
Proof.
  intros Hp. unfold guarded, tryCatchFinally.
  rewrite !run_bind, !run_try, run_bind, Hp. reflexivity.
Qed.

Lemma run_guarded_resolved body n σ σ' o n' :
  run body env n σ = (σ', Resolved o, n') →
  r_throw (env n' CmdPageClose) = None →
  run (guarded body) env n σ = (closed env n' σ', Resolved o, S (S n')).
Proof.
  intros Hbody Hclose. unfold guarded, tryCatchFinally.
  repeat (run_step || rewrite Hbody || rewrite Hclose
          || (progress cbn [run rethrow])).
  reflexivity.
Qed.

Lemma run_guarded_rejected body n σ σ' e n' :
  run body env n σ = (σ', Rejected e, n') →
  r_throw (env n' CmdPageClose) = None →
  run (guarded body) env n σ
  = (closed env n' (emitted (EvLog (LogError e)) σ'),
     Resolved (Failed e), S (S n')).
Proof.
  intros Hbody Hclose. unfold guarded, tryCatchFinally.
  repeat (run_step || rewrite Hbody || rewrite Hclose
          || (progress cbn [run rethrow])).
  reflexivity.
Qed.

Lemma run_guarded_close_failed body n σ σ' res n' e :
  run body env n σ = (σ', res, n') →
  r_throw (env n' CmdPageClose) = Some e →
  run (guarded body) env n σ
  = (answered CmdPageClose (env n' CmdPageClose)
       match res with
       | Resolved _ => σ'
       | Rejected e' => emitted (EvLog (LogError e')) σ'
       end,
     Rejected e, S n').
Proof.
  intros Hbody Hclose. unfold guarded, tryCatchFinally.
  destruct res;
    repeat (run_step || rewrite Hbody || rewrite Hclose
            || (progress cbn [run rethrow]));
    reflexivity.
Qed.

End guarded_runs.


Section engaged.
Context (cfg : Config) (task : SearchTask) (env : Driver).
Context (t : Z) (h : gmap string Z).
Context (σ1 σ2 : Sync) (n1 n2 : nat) (currentUrl bookingName : string).
Hypothesis Hentered :
  run (enterReservation task) env 0 (startSync t h)
  = (σ1, Resolved (currentUrl, Some bookingName), n1).
Hypothesis Hengaged : run engageNonMember env n1 σ1 = (σ2, Resolved true, n2).


(** Both buttons clicked: what is left of the call is the observation of
    the result, the [finally] block and the last delay. *)
Lemma run_checkReservation_engaged :
  run (checkReservation cfg task) env 0 (startSync t h)
  = run (guarded (observeResult cfg task currentUrl bookingName)) env n2 σ2.
Proof.
  destruct (enterReservation_found _ _ _ _ _ _ _ Hentered)
    as (σb & nb & Hnew & Hnav & Hloc).
  rewrite checkReservation_guarded, run_bind, run_await, Hnew.
  unfold probe.
  rewrite (run_guarded_bind _ _ _ _ _ _ _ _ Hnav).
  rewrite (run_guarded_bind _ _ _ _ _ _ _ _ Hloc).
  rewrite (run_guarded_bind _ _ _ _ _ _ _ _ Hengaged).
  reflexivity.
Qed.

End engaged.

(** ** The observation of the result *)

Section observe_runs.
Context (cfg : Config) (task : SearchTask) (currentUrl bookingName : string).
Context (env : Driver) (n : nat) (σ : Sync).


Lemma run_observe_no_alert :
  alertAppeared σ = Some false →
  r_dialogs (env n (CmdDelay 1000)) = [] →
  run (observeResult cfg task currentUrl bookingName) env n σ
  = if String.eqb currentUrl (r_url (env (S n) (CmdDelay 1000)))
    then (emitted (EvLog LogNoRedirect)
            (answered (CmdDelay 1000) (env (S n) (CmdDelay 1000))
               (answered (CmdDelay 1000) (env n (CmdDelay 1000)) σ)),
          Resolved Inconclusive, S (S n))
    else
      match run (notify cfg task (formatDashed (date task)) bookingName)
                env (S (S n)) (redirected env n bookingName σ) with
      | (σ', Resolved _, n') => (σ', Resolved (Available bookingName), n')
      | (σ', Rejected e, n') => (σ', Rejected e, n')
      end.
Proof.
  intros Hb Hquiet. unfold observeResult. run_steps.
  rewrite alert_answered, Hb, Hquiet. cbn [orb].
  assert (bool_decide (@nil string ≠ []) = false) as ->
    by (by apply bool_decide_eq_false_2; intros []).
  assert (bool_decide (Some false = Some true) = false) as -> by done.
  run_steps.
  destruct (String.eqb currentUrl (r_url (env (S n) (CmdDelay 1000))));
    simpl negb; cbn beta iota.
  - reflexivity.
  - run_steps. unfold redirected.
    destruct (run (notify _ _ _ _) _ _ _) as [[σ' [[]|e]] n']; reflexivity.
Qed.


End observe_runs.





(** ** A call that ends as [Available] *)



Section projections.
Implicit Types (σ : Sync) (c : Cmd) (r : Resp) (tr : list Event).

Lemma checks_app tr1 tr2 : checks (tr1 ++ tr2) = (checks tr1 ++ checks tr2)%list.
Proof. apply omap_app. Qed.

Lemma records_app tr1 tr2 :
  records (tr1 ++ tr2) = (records tr1 ++ records tr2)%list.
Proof. apply omap_app. Qed.

Lemma checks_dialogEvents msgs : checks (dialogEvents msgs) = [].
Proof. induction msgs as [|msg msgs IH]; [done|]. simpl. exact IH. Qed.

Lemma records_dialogEvents msgs : records (dialogEvents msgs) = [].
Proof. induction msgs as [|msg msgs IH]; [done|]. simpl. exact IH. Qed.

Lemma awaited_dialogEvents msgs : awaited (dialogEvents msgs) = [].
Proof. induction msgs as [|msg msgs IH]; [done|]. simpl. exact IH. Qed.

Lemma checks_answered c r σ : checks (out (answered c r σ)) = checks (out σ).
Proof.
  rewrite out_answered, !checks_app. simpl.
  destruct (alertAppeared σ); rewrite ?checks_dialogEvents;
    by rewrite app_nil_r.
Qed.

Lemma records_answered c r σ :
  records (out (answered c r σ)) = records (out σ).
Proof.
  rewrite out_answered, !records_app. simpl.
  destruct (alertAppeared σ); rewrite ?records_dialogEvents;
    by rewrite app_nil_r.
Qed.

Lemma checks_quiet evs :
  Forall (λ e, okEvent taskCmd quietEvent e = true) evs → checks evs = [].
Proof.
  induction 1 as [|e evs He _ IH]; [done|].
  destruct e; try done; simpl; exact IH.
Qed.

Lemma records_quiet evs :
  Forall (λ e, okEvent taskCmd quietEvent e = true) evs → records evs = [].
Proof.
  induction 1 as [|e evs He _ IH]; [done|].
  destruct e; try done; simpl; exact IH.
Qed.

End projections.

(** Up to the observation of the result, neither the notifier nor the
    cache is touched. *)
Lemma engaged_quiet task env t h σ1 n1 res1 σ2 n2 res2 :
  run (enterReservation task) env 0 (startSync t h) = (σ1, res1, n1) →
  run engageNonMember env n1 σ1 = (σ2, res2, n2) →
  notifications (out σ2) = [] ∧ checks (out σ2) = [] ∧ records (out σ2) = []
  ∧ emailSentHistory σ2 = h.
Proof.
  intros Hent Heng.
  destruct (Obeys_run _ _ _ _ _ _ _ _ _ _ (Obeys_enterReservation task) Hent)
    as (evs1 & Hout1 & Hall1 & Hhist1).
  assert (Obeys taskCmd quietEvent false engageNonMember) as Hobeys.
  { apply Obeys_engageNonMember; [by intros []|done]. }
  destruct (Obeys_run _ _ _ _ _ _ _ _ _ _ Hobeys Heng)
    as (evs2 & Hout2 & Hall2 & Hhist2).
  rewrite Hout2, Hout1. simpl.
  rewrite notifications_app, checks_app, records_app.
  rewrite !notifications_quiet, !checks_quiet, !records_quiet by done.
  rewrite Hhist2, Hhist1 by done. done.
Qed.

(** [sync_norm], with the calls of the cache operations. *)
Ltac sync_norm' :=
  repeat first
    [ rewrite protocol_answered | rewrite notifications_answered
    | rewrite checks_answered | rewrite records_answered
    | rewrite history_answered | rewrite now_answered
    | rewrite protocol_app | rewrite notifications_app
    | rewrite checks_app | rewrite records_app
    | progress cbn [out emitted withAlert withHistory emailSentHistory
                    alertAppeared now startSync resumed] ].






(** ** The page of a call *)

Lemma awaited_answered c r σ :
  awaited (out (answered c r σ)) = (awaited (out σ) ++ [c])%list.
Proof.
  rewrite out_answered, !awaited_app. simpl.
  destruct (alertAppeared σ); by rewrite ?awaited_dialogEvents.
Qed.

Lemma awaited_inside evs :
  Forall (λ e, okEvent insideCmd taskEvent e = true) evs →
  Forall (λ c, insideCmd c = true) (awaited evs).
Proof.
  induction 1 as [|e evs He _ IH]; [constructor|].
  destruct e; simpl; try exact IH. constructor; [|exact IH]. exact He.
Qed.

Lemma Obeys_probe_inside cfg task :
  Obeys insideCmd taskEvent true (probe cfg task).
Proof. by apply Obeys_probe. Qed.

Section page_lifecycle.
Context (cfg : Config) (task : SearchTask) (env : Driver).
Context (t : Z) (h : gmap string Z).


Lemma run_checkReservation_page :
  r_throw (env 0%nat CmdNewPage) = None →
  ∃ σ res n inside k,
    run (checkReservation cfg task) env 0 (startSync t h) = (σ, res, n)
    ∧ Forall (λ c, insideCmd c = true) inside
    ∧ match r_throw (env k CmdPageClose) with
      | Some e =>
          res = Rejected e
          ∧ awaited (out σ)
            = (CmdNewPage :: inside ++ [CmdPageClose])%list
      | None =>
          (∃ o, res = Resolved o)
          ∧ awaited (out σ)
            = (CmdNewPage :: inside ++ [CmdPageClose; CmdDelay 1000])%list
      end.
Proof.
  intros Hnew. rewrite checkReservation_guarded, run_bind, run_await, Hnew.
  cbn beta iota.
  set (σa := answered CmdNewPage (env 0%nat CmdNewPage) (startSync t h)).
  destruct (run (probe cfg task) env 1 σa) as [[σp res] np] eqn:Hprobe.
  destruct (Obeys_run _ _ _ _ _ _ _ _ _ _ (Obeys_probe_inside cfg task) Hprobe)
    as (evs & Hout & Hall & _).
  apply awaited_inside in Hall.
  assert (awaited (out σa) = [CmdNewPage]) as Ha
    by (unfold σa; by rewrite awaited_answered).
  destruct (r_throw (env np CmdPageClose)) as [e|] eqn:Hclose.
  - rewrite (run_guarded_close_failed _ _ _ _ _ _ _ _ Hprobe Hclose).
    eexists _, _, _, (awaited evs), np. split; [reflexivity|].
    split; [done|]. rewrite Hclose. split; [done|].
    rewrite awaited_answered.
    destruct res; cbn [out emitted]; rewrite Hout, ?awaited_app, Ha; simpl;
      by rewrite ?app_nil_r.
  - destruct res as [o|e].
    + rewrite (run_guarded_resolved _ _ _ _ _ _ _ Hprobe Hclose).
      eexists _, _, _, (awaited evs), np. split; [reflexivity|].
      split; [done|]. rewrite Hclose. split; [eauto|].
      unfold closed. rewrite !awaited_answered, Hout, awaited_app, Ha.
      simpl. by rewrite <- app_assoc.
    + rewrite (run_guarded_rejected _ _ _ _ _ _ _ Hprobe Hclose).
      eexists _, _, _, (awaited evs), np. split; [reflexivity|].
      split; [done|]. rewrite Hclose. split; [eauto|].
      unfold closed. rewrite !awaited_answered. cbn [out emitted].
      rewrite Hout, !awaited_app, Ha. simpl.
      by rewrite app_nil_r, <- app_assoc.
Qed.

End page_lifecycle.

(** ** Failures stay inside the call *)

Section contained.
Context {A : Type}.


Lemma Contained_weaken (Q Q' : A → Prop) (p : Proc A) :
  (∀ a, Q a → Q' a) → Contained Q p → Contained Q' p.
Proof. intros HQ. induction 1; constructor; auto. Qed.




End contained.






(** ** More on the notification history *)

Section cleanup_facts.
Import Dedup.
Implicit Types (h : gmap string Z) (k u : string) (t : Z).

Lemma keysToDelete_NoDup t0 h : NoDup (keysToDelete t0 h).
Proof.
  unfold keysToDelete. apply NoDup_fmap_fst.
  - intros k t1 t2 [_ H1%elem_of_map_to_list]%list_elem_of_filter
                   [_ H2%elem_of_map_to_list]%list_elem_of_filter.
    congruence.
  - apply NoDup_filter, NoDup_map_to_list.
Qed.

Lemma cleanup_filter t0 h :
  (cleanupOldEmailHistory t0 h).1
  = filter (λ kt : string * Z, t0 - kt.2 < EMAIL_COOLDOWN_MS) h.
Proof.
  apply map_eq. intros k. rewrite lookup_cleanup.
  apply option_eq. intros t. rewrite map_lookup_filter_Some. simpl.
  destruct (h !! k) as [t'|]; [|split; [done|by intros [? _]]].
  case_bool_decide.
  - split; [done|]. intros [[= ->] ?]. lia.
  - split; [intros [= ->]; split; [done|lia]|by intros [? _]].
Qed.

Lemma keysToDelete_size t0 h :
  (size (cleanupOldEmailHistory t0 h).1 + length (keysToDelete t0 h))%nat
  = size h.
Proof.
  rewrite cleanup_filter.
  rewrite <- (map_filter_union_complement
                (λ kt : string * Z, t0 - kt.2 < EMAIL_COOLDOWN_MS) h) at 3.
  rewrite map_size_disj_union by apply map_disjoint_filter_complement.
  f_equal.
  rewrite <- (size_dom (D := gset string)).
  rewrite <- (size_list_to_set (C := gset string) (keysToDelete t0 h))
    by apply keysToDelete_NoDup.
  f_equal. apply set_eq. intros k.
  rewrite elem_of_list_to_set, elem_of_keysToDelete, elem_of_dom.
  unfold is_Some. setoid_rewrite map_lookup_filter_Some. simpl.
  split.
  - intros (t & Hk & Hold). exists t. split; [done|lia].
  - intros (t & Hk & Hold). exists t. split; [done|lia].
Qed.

End cleanup_facts.

(** X1: [cleanupOldEmailHistory] deletes exactly the entries whose age is
    at least the cooldown - what is left is the history filtered to the
    entries younger than the cooldown, each with the time it had - and
    it prints the number of deleted entries when, and only when, at least
    one entry was deleted. *)
Theorem X1_cleanup_exact (t0 : Z) (h : gmap string Z) :
  let h' := (Dedup.cleanupOldEmailHistory t0 h).1 in
  h' = filter (λ kt : string * Z, t0 - kt.2 < EMAIL_COOLDOWN_MS) h
  ∧ (size h' ≤ size h)%nat
  ∧ (Dedup.cleanupOldEmailHistory t0 h).2
    = if decide (size h' < size h)%nat
      then Some (size h - size h')%nat else None.
Proof.
  intros h'. pose proof (keysToDelete_size t0 h) as Hsize. fold h' in Hsize.
  split; [apply cleanup_filter|]. split; [lia|].
  unfold Dedup.cleanupOldEmailHistory. cbn [snd].
  destruct (Nat.ltb_spec 0 (length (Dedup.keysToDelete t0 h))).
  - rewrite decide_True by lia. f_equal. lia.
  - rewrite decide_False by lia. done.
Qed.

(** X2: cleanups compose.  A cleanup followed by a cleanup at a later
    reading of the clock leaves the history that the later cleanup alone
    leaves; a second cleanup at the same reading changes nothing and prints
    nothing. *)
Theorem X2_cleanup_twice (t0 later : Z) (h : gmap string Z)
    (Hlater : t0 ≤ later) :
  (Dedup.cleanupOldEmailHistory later (Dedup.cleanupOldEmailHistory t0 h).1).1
  = (Dedup.cleanupOldEmailHistory later h).1
  ∧ Dedup.cleanupOldEmailHistory t0 (Dedup.cleanupOldEmailHistory t0 h).1
    = ((Dedup.cleanupOldEmailHistory t0 h).1, None).
Proof.
  split.
  - rewrite !cleanup_filter, map_filter_filter.
    apply map_filter_ext. intros k t _. simpl. lia.
  - apply cleanup_fresh. intros k t. apply cleanup_leaves_fresh.
Qed.

Lemma X2_cleanup_twice_witness :
  (Dedup.cleanupOldEmailHistory 2000000
     (Dedup.cleanupOldEmailHistory 1900000 {["u" := 1; "v" := 150000]}).1).1
  = (Dedup.cleanupOldEmailHistory 2000000 {["u" := 1; "v" := 150000]}).1
  ∧ Dedup.cleanupOldEmailHistory 1900000
      (Dedup.cleanupOldEmailHistory 1900000 {["u" := 1; "v" := 150000]}).1
    = ((Dedup.cleanupOldEmailHistory 1900000 {["u" := 1; "v" := 150000]}).1,
       None).
Proof.
  apply (X2_cleanup_twice 1900000 2000000 {["u" := 1; "v" := 150000]}). lia.
Defined.

(** X3: a cleanup never changes what [canSendEmail] answers, at the
    reading of the clock of the cleanup or at any later one: the entries it
    deletes are those that no longer hold a mail back. *)
Theorem X3_cleanup_keeps_answers (t0 later : Z) (h : gmap string Z)
    (u : string) (Hlater : t0 ≤ later) :
  Dedup.canSendEmail later (Dedup.cleanupOldEmailHistory t0 h).1 u
  = Dedup.canSendEmail later h u.
Proof.
  unfold Dedup.canSendEmail. rewrite lookup_cleanup.
  destruct (h !! u) as [t|]; [|done].
  case_bool_decide; [|done].
  destruct (Z.eqb_spec t 0); [done|].
  symmetry. apply Z.leb_le. lia.
Qed.

Lemma X3_cleanup_keeps_answers_witness :
  Dedup.canSendEmail 2000000
    (Dedup.cleanupOldEmailHistory 1900000 {["u" := 1]}).1 "u"
  = Dedup.canSendEmail 2000000 {["u" := 1]} "u".
Proof. apply (X3_cleanup_keeps_answers 1900000 2000000 {["u" := 1]} "u"). lia. Defined.

(** X4: when no recorded time is the number 0, the urls that the history
    holds after a cleanup are exactly those for which [canSendEmail]
    answers false at the reading of the clock of the cleanup. *)
Theorem X4_cleanup_keeps_blocking (t0 : Z) (h : gmap string Z) (u : string)
    (Hrec : ∀ k t, h !! k = Some t → t ≠ 0) :
  is_Some ((Dedup.cleanupOldEmailHistory t0 h).1 !! u)
  ↔ Dedup.canSendEmail t0 h u = false.
Proof.
  unfold Dedup.canSendEmail. rewrite lookup_cleanup.
  destruct (h !! u) as [t|] eqn:Hu.
  - apply Hrec in Hu. destruct (Z.eqb_spec t 0); [done|].
    case_bool_decide as Hold.
    + split; [by intros [? ?]|]. intros Hc. apply Z.leb_gt in Hc. lia.
    + split; [|eauto]. intros _. apply Z.leb_gt. lia.
  - split; [by intros [? ?]|done].
Qed.

Lemma X4_cleanup_keeps_blocking_witness :
  is_Some ((Dedup.cleanupOldEmailHistory 1900000 {["u" := 150000]}).1 !! "u")
  ↔ Dedup.canSendEmail 1900000 {["u" := 150000]} "u" = false.
Proof.
  apply (X4_cleanup_keeps_blocking 1900000 {["u" := 150000]} "u").
  intros k t Hk. apply lookup_singleton_Some in Hk as [_ <-]. lia.
Defined.

(** ** The urls of the tasks and the batches of a cycle *)

Section urls.
Implicit Types (a b x y i d : string).

Lemma string_length_app a b :
  String.length (a ++ b) = (String.length a + String.length b)%nat.
Proof. induction a as [|c a IH]; simpl; [done|]. by rewrite IH. Qed.

Lemma string_app_inj_length a b x y :
  String.length a = String.length b →
  (a ++ x)%string = (b ++ y)%string → a = b ∧ x = y.
Proof.
  revert b. induction a as [|c a IH]; intros [|c' b] Hlen Heq;
    simpl in *; try done.
  injection Heq as -> Heq. injection Hlen as Hlen.
  destruct (IH b Hlen Heq) as [-> ->]. done.
Qed.

Lemma taskUrl_inj i d i' d' :
  String.length d = String.length d' →
  taskUrl i d = taskUrl i' d' → i = i' ∧ d = d'.
Proof.
  intros Hlen Heq. unfold taskUrl in Heq.
  apply (inj (String.app _)) in Heq. apply (inj (String.app _)) in Heq.
  pose proof (f_equal String.length Heq) as Hl.
  rewrite !string_length_app in Hl. simpl in Hl.
  apply string_app_inj_length in Heq as [-> Heq]; [|lia].
  split; [done|].
  apply (inj (String.app _)) in Heq.
  by apply string_app_inj_length in Heq as [-> _].
Qed.

Lemma length_formatYYYYMMDD c : String.length (formatYYYYMMDD c) = 8%nat.
Proof. reflexivity. Qed.

Lemma length_weekDate today d :
  d ∈ getWeekDates today → String.length d = 8%nat.
Proof.
  unfold getWeekDates. rewrite weekLoop_daysFrom.
  intros (c & -> & _)%list_elem_of_fmap. apply length_formatYYYYMMDD.
Qed.

End urls.

Section chunks.
Context {A B : Type} (f : B → list A) (K : nat).
Hypothesis HK : (0 < K)%nat.
Hypothesis Hf : ∀ x, length (f x) = K.

Lemma length_flat_map_chunks l : length (flat_map f l) = (length l * K)%nat.
Proof. induction l as [|x l IH]; simpl; [done|]. by rewrite length_app, Hf, IH. Qed.

Lemma flat_map_chunk l j :
  take K (drop (j * K) (flat_map f l)) = default [] (f <$> l !! j).
Proof.
  revert j. induction l as [|x l IH]; intros j; simpl.
  - by rewrite drop_nil, take_nil.
  - destruct j as [|j]; simpl.
    + rewrite drop_0. by rewrite take_app_length' by done.
    + rewrite drop_app_add' by done. apply IH.
Qed.

Lemma batches_flat_map l : batches K (flat_map f l) = f <$> l.
Proof.
  apply list_eq. intros j. unfold batches.
  rewrite batchesFrom_lookup by (done || lia). cbn [Nat.add].
  rewrite length_flat_map_chunks, flat_map_chunk, list_lookup_fmap.
  destruct (l !! j) as [x|] eqn:Hj; simpl.
  - apply lookup_lt_Some in Hj. rewrite decide_True by nia. done.
  - apply lookup_ge_None in Hj. rewrite decide_False by nia. done.
Qed.

End chunks.

Lemma batches_length {A} (K : nat) (tasks : list A) :
  (0 < K)%nat →
  length (batches K tasks) = ((length tasks + K - 1) / K)%nat.
Proof.
  intros HK.
  assert (∀ j, is_Some (batches K tasks !! j)
               ↔ (j < (length tasks + K - 1) / K)%nat) as Hdom.
  { intros j. unfold batches. rewrite batchesFrom_lookup by (done || lia).
    simpl. case_decide as Hj.
    - split; [intros _|eauto].
      apply Nat.div_le_lower_bound; [lia|]. nia.
    - split; [by intros [? ?]|]. intros Hlt. exfalso. apply Hj.
      assert (K * S j ≤ length tasks + K - 1)%nat; [|nia].
      etrans; [|apply (Nat.Div0.mul_div_le _ K)]. nia. }
  destruct (Nat.lt_trichotomy (length (batches K tasks))
              ((length tasks + K - 1) / K)) as [Hlt|[Heq|Hgt]]; [|done|].
  - apply Hdom in Hlt as [x Hx%lookup_lt_Some]. lia.
  - destruct (lookup_lt_is_Some_2 (batches K tasks)
               ((length tasks + K - 1) / K) Hgt) as [x Hx].
    assert (is_Some (batches K tasks !! ((length tasks + K - 1) / K)%nat))
      as Hs%Hdom by eauto. lia.
Qed.

(** X5: two tasks of one cycle that have the same url are the same task:
    the key of the notification history tells apart the targets and the
    dates of a cycle, whatever the identifiers are. *)
Theorem X5_task_url_key (targets : list SearchItem) (today : CalDate)
    (t1 t2 : SearchTask)
    (H1 : t1 ∈ buildSearchTasks targets (getWeekDates today))
    (H2 : t2 ∈ buildSearchTasks targets (getWeekDates today))
    (Hurl : url t1 = url t2) :
  t1 = t2.
Proof.
  apply elem_of_buildSearchTasks in H1 as (it1 & d1 & _ & Hd1 & ->).
  apply elem_of_buildSearchTasks in H2 as (it2 & d2 & _ & Hd2 & ->).
  apply length_weekDate in Hd1, Hd2. simpl in Hurl.
  apply taskUrl_inj in Hurl as [Hi ->]; [|congruence].
  unfold taskOf. by rewrite Hi.
Qed.

Lemma X5_task_url_key_witness :
  taskOf (mkItem "25") "20251104" = taskOf (mkItem "25") "20251104".
Proof.
  apply (X5_task_url_key [mkItem "25"; mkItem "5"] (mkDate 2025 11 3)).
  - vm_compute. right. left.
  - vm_compute. right. left.
  - reflexivity.
Defined.

(** X6: with the concurrency limit equal to the length of the window, the
    batches of a cycle are the targets: the batch at position [p] holds the
    tasks of the target at position [p], one for each of the 7 dates, in
    the order of the dates. *)
Theorem X6_batch_per_target (targets : list SearchItem) (today : CalDate) :
  batches CONCURRENT_LIMIT (buildSearchTasks targets (getWeekDates today))
  = (λ item, taskOf item <$> getWeekDates today) <$> targets.
Proof.
  unfold buildSearchTasks.
  apply (batches_flat_map (λ item, taskOf item <$> getWeekDates today)).
  - unfold CONCURRENT_LIMIT. lia.
  - intros item. rewrite length_fmap. apply length_weekLoop.
Qed.

(** X7: the [for] loop with [slice] cuts any task list into consecutive
    batches, for any limit [K] above 0: the batches put end to end are the
    list, there are [⌈n / K⌉] of them, the batch at position [j] is the
    [K] tasks from position [j * K] on (fewer at the end of the list), no
    batch is empty, and every batch but the last has exactly [K] tasks. *)
Theorem X7_batches_partition {A} (K : nat) (tasks : list A)
    (HK : (0 < K)%nat) :
  concat (batches K tasks) = tasks
  ∧ length (batches K tasks) = ((length tasks + K - 1) / K)%nat
  ∧ ∀ j batch,
      batches K tasks !! j = Some batch →
      batch = take K (drop (j * K) tasks)
      ∧ (0 < length batch ≤ K)%nat
      ∧ ((S j < length (batches K tasks))%nat → length batch = K).
Proof.
  split; [|split].
  - unfold batches. rewrite batchesFrom_concat by (done || lia).
    apply drop_0.
  - by apply batches_length.
  - intros j batch Hj.
    pose proof (batchesFrom_sizes (length tasks) K 0 tasks HK) as Hsizes.
    rewrite Forall_lookup in Hsizes. specialize (Hsizes j batch Hj).
    split; [|split; [done|]].
    + unfold batches in Hj. rewrite batchesFrom_lookup in Hj by (done || lia).
      simpl in Hj. case_decide; [|done]. by injection Hj as <-.
    + intros Hnext.
      destruct (lookup_lt_is_Some_2 _ _ Hnext) as [next Hnext'].
      unfold batches in Hj, Hnext'.
      rewrite batchesFrom_lookup in Hj, Hnext' by (done || lia).
      simpl in Hj, Hnext'. repeat case_decide; try done.
      injection Hj as <-. rewrite length_take, length_drop. lia.
Qed.

Lemma X7_batches_partition_witness :
  concat (batches 3 [1; 2; 3; 4; 5; 6; 7]) = [1; 2; 3; 4; 5; 6; 7]
  ∧ length (batches 3 [1; 2; 3; 4; 5; 6; 7]) = ((7 + 3 - 1) / 3)%nat
  ∧ ∀ j batch,
      batches 3 [1; 2; 3; 4; 5; 6; 7] !! j = Some batch →
      batch = take 3 (drop (j * 3) [1; 2; 3; 4; 5; 6; 7])
      ∧ (0 < length batch ≤ 3)%nat
      ∧ ((S j < length (batches 3 [1; 2; 3; 4; 5; 6; 7]))%nat
         → length batch = 3%nat).
Proof. apply (X7_batches_partition 3 [1; 2; 3; 4; 5; 6; 7]). lia. Defined.

(** ** The lists of the environment *)

Section splitting.
Implicit Types (l a b piece : list ascii) (sep c : ascii).

Lemma splitOn_cons sep l : ∃ piece pieces, splitOn sep l = piece :: pieces.
Proof.
  induction l as [|c l (piece & pieces & IH)]; simpl; [eauto|].
  case_decide; [eauto|]. rewrite IH. eauto.
Qed.

Lemma splitOn_app sep a b :
  splitOn sep (a ++ sep :: b) = (splitOn sep a ++ splitOn sep b)%list.
Proof.
  induction a as [|c a IH]; simpl.
  - by rewrite decide_True.
  - case_decide; [by rewrite IH|]. rewrite IH.
    by destruct (splitOn_cons sep a) as (piece & pieces & ->).
Qed.

Lemma splitOn_whole sep l : sep ∉ l → splitOn sep l = [l].
Proof.
  induction l as [|c l IH]; intros Hsep; simpl; [done|].
  apply not_elem_of_cons in Hsep as [Hc Hl].
  rewrite decide_False by done. by rewrite IH.
Qed.

Lemma splitOn_pieces sep l piece : piece ∈ splitOn sep l → sep ∉ piece.
Proof.
  revert piece. induction l as [|c l IH]; intros piece; simpl.
  - intros ->%list_elem_of_singleton. apply not_elem_of_nil.
  - case_decide as Hc.
    + intros [->|Hin]%elem_of_cons; [apply not_elem_of_nil|by apply IH].
    + destruct (splitOn_cons sep l) as (p & ps & Heq). rewrite Heq in IH |- *.
      intros [->|Hin]%elem_of_cons.
      * apply not_elem_of_cons. split; [done|]. apply IH. left.
      * apply IH. by right.
Qed.

Lemma splitOn_chars sep l piece c : piece ∈ splitOn sep l → c ∈ piece → c ∈ l.
Proof.
  revert piece. induction l as [|x l IH]; intros piece; simpl.
  - by intros ->%list_elem_of_singleton.
  - case_decide.
    + intros [->|Hl]%elem_of_cons; [by intros ?%elem_of_nil|].
      intros Hc. right. by eapply IH.
    + destruct (splitOn_cons sep l) as (p & ps & Heq).
      rewrite Heq in IH |- *.
      intros [->|Hl]%elem_of_cons.
      * intros [->|Hc]%elem_of_cons; [left|right].
        apply (IH p); [left|done].
      * intros Hc. right. apply (IH piece); [by right|done].
Qed.

End splitting.

Section strings_as_lists.
Implicit Types (s a b : string).

Lemma list_ascii_of_string_app a b :
  list_ascii_of_string (a ++ b)
  = (list_ascii_of_string a ++ list_ascii_of_string b)%list.
Proof. induction a as [|c a IH]; simpl; [done|]. by rewrite IH. Qed.

Lemma string_length_chars s : String.length s = length (chars s).
Proof. induction s as [|c s IH]; simpl; [done|]. by rewrite IH. Qed.

Lemma chars_inj s1 s2 : chars s1 = chars s2 → s1 = s2.
Proof.
  intros H. rewrite <- (string_of_list_ascii_of_string s1),
    <- (string_of_list_ascii_of_string s2). unfold chars in H. by rewrite H.
Qed.

Lemma split_app sep a b :
  split sep (a ++ String sep b) = (split sep a ++ split sep b)%list.
Proof.
  unfold split. rewrite list_ascii_of_string_app. simpl.
  by rewrite splitOn_app, fmap_app.
Qed.

Lemma split_whole sep s : sep ∉ chars s → split sep s = [s].
Proof.
  intros Hsep. unfold split. rewrite splitOn_whole by done. simpl.
  by rewrite string_of_list_ascii_of_string.
Qed.

Lemma split_join sep pieces :
  pieces ≠ [] → Forall (λ piece, sep ∉ chars piece) pieces →
  split sep (join (String sep "") pieces) = pieces.
Proof.
  intros Hne Hall. induction Hall as [|piece rest Hpiece Hrest IH]; [done|].
  destruct rest as [|next rest].
  - simpl. by apply split_whole.
  - change (join (String sep "") (piece :: next :: rest))
      with (piece ++ String sep (join (String sep "") (next :: rest)))%string.
    rewrite split_app, IH by done. by rewrite split_whole.
Qed.

End strings_as_lists.

Section trimming.
Implicit Types (l w rest : list ascii) (ws : list (list ascii)).

Lemma stripPrefix_Some w l rest :
  stripPrefix w l = Some rest ↔ l = (w ++ rest)%list.
Proof.
  unfold stripPrefix. case_bool_decide as Hw.
  - split.
    + intros [= <-]. by rewrite <- Hw at 1; rewrite take_drop.
    + intros ->. by rewrite drop_app_length.
  - split; [done|]. intros ->. destruct Hw. by rewrite take_app_length.
Qed.

Lemma dropAny_Some ws l rest :
  dropAny ws l = Some rest → ∃ w, w ∈ ws ∧ l = (w ++ rest)%list.
Proof.
  induction ws as [|w ws IH]; simpl; [done|].
  destruct (stripPrefix w l) as [r|] eqn:Hw.
  - intros [= ->]. apply stripPrefix_Some in Hw. exists w. split; [left|done].
  - intros (w' & Hin & ->)%IH. exists w'. split; [by right|done].
Qed.

Lemma dropAny_None ws l w rest :
  dropAny ws l = None → w ∈ ws → l ≠ (w ++ rest)%list.
Proof.
  induction ws as [|w' ws IH]; simpl; [by intros _ ?%elem_of_nil|].
  destruct (stripPrefix w' l) as [r|] eqn:Hw; [done|].
  intros Hrest [->|Hin]%elem_of_cons; [|by apply IH].
  intros Heq. apply stripPrefix_Some in Heq. congruence.
Qed.

Lemma dropAll_suffix ws fuel l : ∃ pre, l = (pre ++ dropAll ws fuel l)%list.
Proof.
  revert l. induction fuel as [|fuel IH]; intros l; simpl; [by exists []|].
  destruct (dropAny ws l) as [rest|] eqn:Hl; [|by exists []].
  apply dropAny_Some in Hl as (w & _ & ->).
  destruct (IH rest) as [pre Hpre]. exists (w ++ pre)%list.
  by rewrite <- app_assoc, <- Hpre.
Qed.

Lemma dropAll_done ws fuel l :
  Forall (λ w, w ≠ []) ws → (length l ≤ fuel)%nat →
  dropAny ws (dropAll ws fuel l) = None.
Proof.
  intros Hws. revert l. induction fuel as [|fuel IH]; intros l Hfuel; simpl.
  - destruct l; [|simpl in Hfuel; lia].
    destruct (dropAny ws []) as [rest|] eqn:Hl; [|done].
    apply dropAny_Some in Hl as (w & Hin & Heq).
    rewrite Forall_forall in Hws. apply Hws in Hin. by destruct w.
  - destruct (dropAny ws l) as [rest|] eqn:Hl; [|done].
    apply IH. apply dropAny_Some in Hl as (w & Hin & ->).
    rewrite Forall_forall in Hws. apply Hws in Hin.
    rewrite length_app in Hfuel. destruct w; [done|]. simpl in Hfuel. lia.
Qed.

Lemma dropAll_blank ws fuel l :
  dropAny ws l = None → dropAll ws fuel l = l.
Proof. intros Hl. destruct fuel; simpl; [done|]. by rewrite Hl. Qed.

Lemma whiteSpace_nonempty : Forall (λ w, w ≠ []) whiteSpace.
Proof. repeat constructor; done. Qed.

Lemma whiteSpace_rev_nonempty : Forall (λ w, w ≠ []) (reverse <$> whiteSpace).
Proof. repeat constructor; done. Qed.

Lemma trimStart_suffix l : ∃ pre, l = (pre ++ trimStart l)%list.
Proof. apply dropAll_suffix. Qed.

Lemma trimEnd_prefix l : ∃ post, l = (trimEnd l ++ post)%list.
Proof.
  unfold trimEnd.
  destruct (dropAll_suffix (reverse <$> whiteSpace) (length l) (reverse l))
    as [pre Hpre].
  exists (reverse pre). rewrite <- reverse_app, <- Hpre. by rewrite reverse_involutive.
Qed.

Lemma trimStart_done l : dropAny whiteSpace (trimStart l) = None.
Proof. apply dropAll_done; [apply whiteSpace_nonempty|done]. Qed.

Lemma trimEnd_done l :
  dropAny (reverse <$> whiteSpace) (reverse (trimEnd l)) = None.
Proof.
  unfold trimEnd. rewrite reverse_involutive.
  apply dropAll_done; [apply whiteSpace_rev_nonempty|].
  by rewrite length_reverse.
Qed.

(** What is cut at the end uncovers no white space at the start. *)
Lemma trimEnd_start l :
  dropAny whiteSpace l = None → dropAny whiteSpace (trimEnd l) = None.
Proof.
  intros Hl. destruct (dropAny whiteSpace (trimEnd l)) as [rest|] eqn:Ht;
    [|done].
  apply dropAny_Some in Ht as (w & Hin & Heq).
  destruct (trimEnd_prefix l) as [post Hpost].
  rewrite Heq, <- app_assoc in Hpost.
  by apply (dropAny_None _ _ _ _ Hl Hin) in Hpost.
Qed.

Lemma trim_trimmed s : trimmed (trim s).
Proof.
  unfold trimmed, trim. rewrite list_ascii_of_string_of_list_ascii.
  split; [apply trimEnd_start, trimStart_done|apply trimEnd_done].
Qed.

Lemma trimmed_trim s : trimmed s → trim s = s.
Proof.
  intros [Hstart Hend]. unfold trim, trimStart, trimEnd.
  rewrite (dropAll_blank _ _ _ Hstart), (dropAll_blank _ _ _ Hend).
  by rewrite reverse_involutive, string_of_list_ascii_of_string.
Qed.

Lemma trim_chars s c : c ∈ chars (trim s) → c ∈ chars s.
Proof.
  unfold trim, chars. rewrite list_ascii_of_string_of_list_ascii.
  destruct (trimStart_suffix (list_ascii_of_string s)) as [pre Hpre].
  destruct (trimEnd_prefix (trimStart (list_ascii_of_string s)))
    as [post Hpost].
  intros Hc. rewrite Hpre, Hpost. set_solver.
Qed.

(** A string of spaces is trimmed to nothing. *)
Lemma dropAll_spaces fuel l :
  Forall (λ c, c = " "%char) l → (length l ≤ fuel)%nat →
  dropAll whiteSpace fuel l = [].
Proof.
  intros Hl. revert fuel.
  induction Hl as [|c l -> _ IH]; intros fuel Hle.
  - by destruct fuel.
  - destruct fuel as [|fuel]; [simpl in Hle; lia|].
    assert (dropAny whiteSpace (" "%char :: l) = Some l) as Hdrop
      by reflexivity.
    cbn [dropAll]. rewrite Hdrop. apply IH. simpl in Hle. lia.
Qed.

Lemma trimStart_spaces l :
  Forall (λ c, c = " "%char) l → trimStart l = [].
Proof. intros Hl. by apply dropAll_spaces. Qed.

Lemma trim_spaces s : Forall (λ c, c = " "%char) (chars s) → trim s = "".
Proof.
  intros Hs. unfold trim, chars in *. by rewrite (trimStart_spaces _ Hs).
Qed.

End trimming.

Section parsing.
Implicit Types (s a b : string) (value : option string).

Lemma parseTargetEmailList_entries s :
  parseTargetEmailList (Some s)
  = filter (λ email, (0 < String.length email)%nat) (trim <$> split "," s).
Proof. by destruct s. Qed.

Lemma parseSearchList_emails value :
  parseSearchList value = mkItem <$> parseTargetEmailList value.
Proof. by destruct value as [[|c s]|]. Qed.


Lemma elem_of_parseTargetEmailList value email :
  email ∈ parseTargetEmailList value →
  ∃ s piece, value = Some s ∧ piece ∈ split "," s ∧ email = trim piece
             ∧ email ≠ "".
Proof.
  destruct value as [s|]; [|by intros ?%elem_of_nil].
  rewrite parseTargetEmailList_entries.
  intros [Hlen (piece & -> & Hin)%list_elem_of_fmap]%list_elem_of_filter.
  exists s, piece. repeat split; try done.
  intros Heq. rewrite Heq in Hlen. simpl in Hlen. lia.
Qed.

Lemma split_pieces sep s piece : piece ∈ split sep s → sep ∉ chars piece.
Proof.
  unfold split. intros (l & -> & Hin)%list_elem_of_fmap.
  unfold chars. rewrite list_ascii_of_string_of_list_ascii.
  by eapply splitOn_pieces.
Qed.

Lemma parseTargetEmailList_sound value email :
  email ∈ parseTargetEmailList value →
  email ≠ "" ∧ (","%char ∉ chars email) ∧ trimmed email.
Proof.
  intros (s & piece & -> & Hin & -> & Hne)%elem_of_parseTargetEmailList.
  split; [done|]. split; [|apply trim_trimmed].
  intros Hc%trim_chars. by apply split_pieces in Hin.
Qed.

Lemma parseTargetEmailList_join emails :
  Forall (λ email, email ≠ "" ∧ (","%char ∉ chars email) ∧ trimmed email)
         emails →
  parseTargetEmailList (Some (join "," emails)) = emails.
Proof.
  intros Hall. destruct emails as [|email emails]; [done|].
  rewrite parseTargetEmailList_entries, split_join; [|done|].
  2:{ eapply Forall_impl; [exact Hall|]. by intros ? (_ & ? & _). }
  induction Hall as [|e es (Hne & _ & Htrim) _ IH]; [done|].
  rewrite fmap_cons, filter_cons, decide_True.
  - by rewrite IH, trimmed_trim.
  - rewrite trimmed_trim by done. destruct e; [done|simpl; lia].
Qed.

Lemma parseTargetEmailList_blank s :
  Forall (λ c, c = ","%char ∨ c = " "%char) (chars s) →
  parseTargetEmailList (Some s) = [].
Proof.
  intros Hs. rewrite parseTargetEmailList_entries.
  assert (Forall (λ piece, Forall (λ c, c = " "%char) (chars piece))
                 (split "," s)) as Hpieces.
  { apply Forall_forall. intros piece Hin.
    apply Forall_forall. intros c Hc.
    pose proof (split_pieces _ _ _ Hin) as Hsep.
    assert (c ∈ chars s) as Hcs.
    { revert Hin Hc. unfold split, chars.
      intros (l & -> & Hl)%list_elem_of_fmap.
      rewrite list_ascii_of_string_of_list_ascii. by eapply splitOn_chars. }
    rewrite Forall_forall in Hs. destruct (Hs c Hcs) as [-> | ->]; [|done].
    by destruct Hsep. }
  induction Hpieces as [|piece pieces Hpiece _ IH]; [done|].
  rewrite fmap_cons, filter_cons, decide_False; [done|].
  rewrite trim_spaces by done. simpl. lia.
Qed.

End parsing.


(** X9: every identifier that [parseSearchList] returns, and every address
    that [parseTargetEmailList] returns, is not empty, holds no comma, and
    has no white space at either end: trimming it again changes
    nothing. *)
Theorem X9_parse_sound (value : option string) (entry : string)
    (Hin : mkItem entry ∈ parseSearchList value
           ∨ entry ∈ parseTargetEmailList value) :
  entry ≠ "" ∧ (","%char ∉ chars entry) ∧ trim entry = entry.
Proof.
  assert (entry ∈ parseTargetEmailList value) as Hentry.
  { destruct Hin as [Hin|Hin]; [|done].
    rewrite parseSearchList_emails in Hin.
    apply list_elem_of_fmap in Hin as (e & Heq & He). by simplify_eq. }
  apply parseTargetEmailList_sound in Hentry as (? & ? & ?%trimmed_trim).
  done.
Qed.

Lemma X9_parse_sound_witness :
  "5" ≠ "" ∧ (","%char ∉ chars "5") ∧ trim "5" = "5".
Proof.
  apply (X9_parse_sound (Some " 25 , 5 ,, ") "5").
  left. vm_compute. right. left.
Defined.

(** X10: parsing undoes joining.  A list of identifiers that are not
    empty, hold no comma and have no white space at either end, written
    with commas between them, is parsed back to the same list; and the
    list parsed from any value is parsed back from its own join. *)
Theorem X10_parse_join (targets : list SearchItem)
    (Hwell : Forall (λ item, item_idx item ≠ ""
                             ∧ (","%char ∉ chars (item_idx item))
                             ∧ trim (item_idx item) = item_idx item) targets) :
  parseSearchList (Some (join "," (item_idx <$> targets))) = targets
  ∧ parseTargetEmailList (Some (join "," (item_idx <$> targets)))
    = item_idx <$> targets
  ∧ ∀ value,
      parseSearchList
        (Some (join "," (item_idx <$> parseSearchList value)))
      = parseSearchList value.
Proof.
  assert (∀ emails,
            Forall (λ email, email ≠ "" ∧ (","%char ∉ chars email)
                             ∧ trimmed email) emails →
            parseSearchList (Some (join "," emails)) = mkItem <$> emails)
    as Hjoin.
  { intros emails Hall.
    by rewrite parseSearchList_emails, parseTargetEmailList_join. }
  assert (Forall (λ email, email ≠ "" ∧ (","%char ∉ chars email)
                           ∧ trimmed email) (item_idx <$> targets)) as Hall.
  { apply Forall_fmap. eapply Forall_impl; [exact Hwell|].
    intros item (? & ? & Htrim). simpl. split; [done|]. split; [done|].
    rewrite <- Htrim. apply trim_trimmed. }
  split; [|split].
  - rewrite Hjoin by done. rewrite <- list_fmap_compose.
    rewrite <- (list_fmap_id targets) at 2. apply list_fmap_ext.
    by intros _ [idx] _.
  - by apply parseTargetEmailList_join.
  - intros value. rewrite Hjoin.
    + rewrite <- list_fmap_compose.
      rewrite <- (list_fmap_id (parseSearchList value)) at 2.
      apply list_fmap_ext. by intros _ [idx] _.
    + rewrite parseSearchList_emails, <- list_fmap_compose.
      apply Forall_fmap, Forall_forall. intros email Hin. simpl.
      by apply (parseTargetEmailList_sound value).
Qed.

Lemma X10_parse_join_witness :
  parseSearchList (Some (join "," (item_idx <$> [mkItem "25"; mkItem "5"])))
  = [mkItem "25"; mkItem "5"]
  ∧ parseTargetEmailList
      (Some (join "," (item_idx <$> [mkItem "25"; mkItem "5"])))
    = item_idx <$> [mkItem "25"; mkItem "5"]
  ∧ ∀ value,
      parseSearchList
        (Some (join "," (item_idx <$> parseSearchList value)))
      = parseSearchList value.
Proof.
  apply (X10_parse_join [mkItem "25"; mkItem "5"]).
  repeat constructor; simpl; try done; vm_compute;
    intros H; repeat (apply elem_of_cons in H as [H|H]; [discriminate H|]);
    by apply elem_of_nil in H.
Defined.

(** X11: in development mode the check made when the module is loaded
    never throws.  In production it lets the module load exactly when both
    credentials are set to a string that is not empty and
    [TARGET_GMAIL_USER] names at least one address; a value made of commas
    and spaces only names none, and is refused like a variable that is not
    set. *)
Theorem X11_startup_check (user pass target : option string) :
  startupCheck true user pass target = None
  ∧ (startupCheck false user pass target = None
     ↔ isUnset user = false ∧ isUnset pass = false
       ∧ parseTargetEmailList target ≠ [])
  ∧ startupCheck false user pass None ≠ None
  ∧ ∀ s, Forall (λ c, c = ","%char ∨ c = " "%char) (chars s) →
         startupCheck false user pass (Some s) ≠ None.
Proof.
  unfold startupCheck. split; [by rewrite andb_false_r|]. split; [|split].
  - rewrite andb_true_r.
    destruct (isUnset user), (isUnset pass),
      (parseTargetEmailList target) as [|email emails]; simpl;
      split; try done; intros (? & ? & ?); done.
  - by rewrite !orb_true_r.
  - intros s Hs. rewrite parseTargetEmailList_blank by done.
    by rewrite !orb_true_r.
Qed.

(** ** The requests of a call, counted *)



(** X13: when the page cannot be loaded - [page.goto] fails with [e] - the
    error is caught inside the call: it is printed, nothing else is asked
    of the page, the page is closed, and the call is resolved after the
    last delay, without a word to the notifier and without a write to the
    history. *)
Theorem X13_navigation_failure (cfg : Config) (task : SearchTask)
    (env : Driver) (t : Z) (h : gmap string Z) (e : string)
    (Hnew : r_throw (env 0%nat CmdNewPage) = None)
    (Hgoto : r_throw (env 1%nat (CmdGoto (url task))) = Some e)
    (Hclose : r_throw (env 2%nat CmdPageClose) = None) :
  ∃ σ,
    run (checkReservation cfg task) env 0 (startSync t h)
    = (σ, Resolved (Failed e), 4%nat)
    ∧ out σ
      = [EvAwait CmdNewPage; EvResume CmdNewPage (env 0%nat CmdNewPage);
         EvLog (LogStart (idx task) (formatDashed (date task)));
         EvLog (LogUrl (url task));
         EvAwait (CmdGoto (url task));
         EvResume (CmdGoto (url task)) (env 1%nat (CmdGoto (url task)));
         EvLog (LogError e);
         EvAwait CmdPageClose; EvResume CmdPageClose (env 2%nat CmdPageClose);
         EvAwait (CmdDelay 1000);
         EvResume (CmdDelay 1000) (env 3%nat (CmdDelay 1000))]
    ∧ emailSentHistory σ = h.
Proof.
  unfold checkReservation, tryCatchFinally, probe, navigate.
  repeat (run_step || rewrite Hnew || rewrite Hgoto || rewrite Hclose
          || (progress cbn [run rethrow])).
  eexists. split; [reflexivity|].
  rewrite !out_answered, !history_answered. cbn. done.
Qed.

Lemma X13_navigation_failure_witness :
  ∃ σ,
    run (checkReservation sampleConfig sampleTask) unreachablePage 0
        (startSync 0 ∅)
    = (σ, Resolved (Failed "net::ERR_CONNECTION_REFUSED"), 4%nat)
    ∧ out σ
      = [EvAwait CmdNewPage;
         EvResume CmdNewPage (unreachablePage 0%nat CmdNewPage);
         EvLog (LogStart (idx sampleTask) (formatDashed (date sampleTask)));
         EvLog (LogUrl (url sampleTask));
         EvAwait (CmdGoto (url sampleTask));
         EvResume (CmdGoto (url sampleTask))
                  (unreachablePage 1%nat (CmdGoto (url sampleTask)));
         EvLog (LogError "net::ERR_CONNECTION_REFUSED");
         EvAwait CmdPageClose;
         EvResume CmdPageClose (unreachablePage 2%nat CmdPageClose);
         EvAwait (CmdDelay 1000);
         EvResume (CmdDelay 1000) (unreachablePage 3%nat (CmdDelay 1000))]
    ∧ emailSentHistory σ = ∅.
Proof.
  apply (X13_navigation_failure sampleConfig sampleTask unreachablePage 0 ∅
           "net::ERR_CONNECTION_REFUSED"); reflexivity.
Defined.

(** X14: a mail that the transport rejects is not recorded.  When a call
    finds the slot free, [canSendEmail] answers true and [sendMail] fails
    with [e] (production mode), the error is caught inside the call and
    printed, the page is closed, and the history is left as it was: the
    notifier was called once, [recordEmailSent] was not, so the next call
    that finds the slot free sends again. *)
Theorem X14_mail_failure (cfg : Config) (task : SearchTask) (env : Driver)
    (t : Z) (h : gmap string Z) (σ1 σ2 : Sync) (n1 n2 : nat)
    (currentUrl bookingName e : string)
    (Hentered : run (enterReservation task) env 0 (startSync t h)
                = (σ1, Resolved (currentUrl, Some bookingName), n1))
    (Hengaged : run engageNonMember env n1 σ1 = (σ2, Resolved true, n2))
    (Hprod : isDevelopment cfg = false)
    (Hquiet : alertAppeared σ2 = Some false)
    (Hsilent : r_dialogs (env n2 (CmdDelay 1000)) = [])
    (Hmoved : r_url (env (S n2) (CmdDelay 1000)) ≠ currentUrl)
    (Hcan : Dedup.canSendEmail (r_now (env (S n2) (CmdDelay 1000))) h (url task)
            = true)
    (Hfail : r_throw (env (S (S n2))
                        (CmdSendMail (url task) (mailName task bookingName)))
             = Some e)
    (Hclose : r_throw (env (S (S (S n2))) CmdPageClose) = None) :
  ∃ σ n,
    run (checkReservation cfg task) env 0 (startSync t h)
    = (σ, Resolved (Failed e), n)
    ∧ notifications (out σ) = [(url task, mailName task bookingName)]
    ∧ records (out σ) = []
    ∧ emailSentHistory σ = h
    ∧ EvLog (LogError e) ∈ out σ
    ∧ last (awaited (out σ)) = Some (CmdDelay 1000)
    ∧ CmdPageClose ∈ awaited (out σ).
Proof.
  destruct (engaged_quiet _ _ _ _ _ _ _ _ _ _ Hentered Hengaged)
    as (Hn2 & Hc2 & Hr2 & Hh2).
  rewrite (run_checkReservation_engaged cfg task env t h σ1 σ2 n1 n2
             currentUrl bookingName Hentered Hengaged).
  pose proof (run_observe_no_alert cfg task currentUrl bookingName env n2 σ2
                Hquiet Hsilent) as Hobs.
  destruct (String.eqb_spec currentUrl (r_url (env (S n2) (CmdDelay 1000))))
    as [Heq|_]; [by destruct Hmoved|].
  set (σr := redirected env n2 bookingName σ2) in *.
  assert (now σr = r_now (env (S n2) (CmdDelay 1000))) as Hnow.
  { unfold σr, redirected. sync_norm'. done. }
  assert (emailSentHistory σr = h) as Hh.
  { unfold σr, redirected. sync_norm'. exact Hh2. }
  assert (notifications (out σr) = []) as Hn.
  { unfold σr, redirected. sync_norm'. by rewrite Hn2. }
  assert (records (out σr) = []) as Hr.
  { unfold σr, redirected. sync_norm'. by rewrite Hr2. }
  rewrite (run_notify_production_failed cfg task bookingName env (S (S n2)) σr e)
    in Hobs; [|by rewrite Hnow, Hh|done|done].
  rewrite (run_guarded_rejected env _ _ _ _ _ _ Hobs) by done.
  eexists _, _. split; [reflexivity|].
  unfold closed, sending.
  split; [sync_norm'; by rewrite Hn|].
  split; [sync_norm'; by rewrite Hr|].
  split; [by sync_norm'|].
  split.
  - rewrite !out_answered. cbn [out emitted].
    apply elem_of_app. left. apply elem_of_app. left.
    apply elem_of_app. right. left.
  - rewrite !awaited_answered. split.
    + by rewrite last_snoc.
    + apply elem_of_app. left. apply elem_of_app. right. left.
Qed.

Lemma X14_mail_failure_witness :
  let env := mailDownPage in
  let σ1 := (run (enterReservation sampleTask) env 0 (startSync 0 ∅)).1.1 in
  let σ2 := (run engageNonMember env 8 σ1).1.1 in
  ∃ σ n,
    run (checkReservation sampleConfig sampleTask) env 0 (startSync 0 ∅)
    = (σ, Resolved (Failed "EAUTH"), n)
    ∧ notifications (out σ) = [(url sampleTask, mailName sampleTask "ROOM A")]
    ∧ records (out σ) = []
    ∧ emailSentHistory σ = ∅
    ∧ EvLog (LogError "EAUTH") ∈ out σ
    ∧ last (awaited (out σ)) = Some (CmdDelay 1000)
    ∧ CmdPageClose ∈ awaited (out σ).
Proof.
  intros env σ1 σ2.
  apply (X14_mail_failure sampleConfig sampleTask env 0 ∅ σ1 σ2 8 10
           "https://www.dpsnnn.com/reserve_g" "ROOM A" "EAUTH").
  - vm_compute. reflexivity.
  - vm_compute. reflexivity.
  - reflexivity.
  - vm_compute. reflexivity.
  - reflexivity.
  - vm_compute. discriminate.
  - vm_compute. reflexivity.
  - reflexivity.
  - reflexivity.
Defined.

(** ** The notifier and the history in any run *)

Section quiet_runs.
Context {A : Type}.
Implicit Types (p : Proc A) (σ : Sync).

Lemma untouched_refl σ : untouched σ σ.
Proof. exists []. by rewrite app_nil_r. Qed.

Lemma untouched_trans σ1 σ2 σ3 :
  untouched σ1 σ2 → untouched σ2 σ3 → untouched σ1 σ3.
Proof.
  intros (evs1 & Ho1 & Hn1 & Hr1 & Hh1) (evs2 & Ho2 & Hn2 & Hr2 & Hh2).
  exists (evs1 ++ evs2)%list.
  rewrite Ho2, Ho1, app_assoc, notifications_app, records_app, Hn1, Hn2,
    Hr1, Hr2, Hh2, Hh1. done.
Qed.

Lemma Quiet_Obeys p : Obeys taskCmd quietEvent false p → Quiet p.
Proof.
  intros Hp env n σ σ' res n' Hrun.
  destruct (Obeys_run _ _ _ _ _ _ _ _ _ _ Hp Hrun) as (evs & Hout & Hall & Hh).
  exists evs. rewrite (notifications_quiet evs), (records_quiet evs) by done.
  auto.
Qed.

Lemma Quiet_bind {B} p (f : A → Proc B) :
  Quiet p → (∀ a, Quiet (f a)) → Quiet (bind p f).
Proof.
  intros Hp Hf env n σ σ' res n'. rewrite run_bind.
  destruct (run p env n σ) as [[σ1 [a|e]] n1] eqn:Hrun.
  - intros Hrest. eapply untouched_trans; [by eapply Hp|by eapply Hf].
  - intros [= <- <- <-]. by eapply Hp.
Qed.

Lemma Quiet_try p : Quiet p → Quiet (try_ p).
Proof.
  intros Hp env n σ σ' res n'. rewrite run_try.
  destruct (run p env n σ) as [[σ1 [a|e]] n1] eqn:Hrun;
    intros [= <- <- <-]; by eapply Hp.
Qed.

Lemma Quiet_Ret (a : A) : Quiet (Ret a).
Proof. intros env n σ σ' res n' [= <- <- <-]. apply untouched_refl. Qed.

Lemma Quiet_Throw e : Quiet (@Throw A e).
Proof. intros env n σ σ' res n' [= <- <- <-]. apply untouched_refl. Qed.

End quiet_runs.

Ltac obeys_quiet :=
  repeat first
    [ assumption
    | apply Obeys_await
    | apply Obeys_awaitAny
    | apply Obeys_deliverDialogs
    | apply Obeys_try
    | apply Obeys_bind
    | progress unfold delay, log, emit, read, awaitResolved, rethrow
    | reflexivity
    | constructor
    | intros ?
    | case_match ].

Lemma Quiet_parts :
  (∀ task, Quiet (navigate task))
  ∧ (∀ k attempt, Quiet (locateReserveButton k attempt))
  ∧ Quiet engageNonMember
  ∧ Quiet reportMissing
  ∧ (∀ c, taskCmd c = true → Quiet (await c))
  ∧ (∀ ms, Quiet (delay ms))
  ∧ (∀ m, Quiet (log m))
  ∧ Quiet read.
Proof.
  assert (∀ c, insideCmd c = true → taskCmd c = true) as HokC
    by (by intros []).
  split_and!; intros.
  - by apply Quiet_Obeys, Obeys_navigate.
  - by apply Quiet_Obeys, Obeys_locateReserveButton.
  - by apply Quiet_Obeys, Obeys_engageNonMember.
  - apply Quiet_Obeys. unfold reportMissing. obeys_quiet.
  - apply Quiet_Obeys. obeys_quiet.
  - apply Quiet_Obeys. obeys_quiet.
  - intros env n σ σ' res n'. rewrite run_log. intros [= <- <- <-].
    by exists [EvLog m].
  - apply Quiet_Obeys. obeys_quiet.
Qed.

(** What holds of the call of [notify] holds of the whole call of
    [checkReservation], when it is not changed by what leaves the notifier
    and the history untouched. *)
Section around_notify.
Context (N : Sync → Sync → Prop).
Hypothesis N_untouched : ∀ σ σ', untouched σ σ' → N σ σ'.
Hypothesis N_before : ∀ σ1 σ2 σ3, untouched σ1 σ2 → N σ2 σ3 → N σ1 σ3.
Hypothesis N_after : ∀ σ1 σ2 σ3, N σ1 σ2 → untouched σ2 σ3 → N σ1 σ3.

Lemma Quiet_Always {A} (p : Proc A) : Quiet p → Always N p.
Proof. intros Hp env n σ σ' res n' Hrun. by eapply N_untouched, Hp. Qed.

Lemma Always_bind_l {A B} (p : Proc A) (f : A → Proc B) :
  Quiet p → (∀ a, Always N (f a)) → Always N (bind p f).
Proof.
  intros Hp Hf env n σ σ' res n'. rewrite run_bind.
  destruct (run p env n σ) as [[σ1 [a|e]] n1] eqn:Hrun.
  - intros Hrest. eapply N_before; [by eapply Hp|by eapply Hf].
  - intros [= <- <- <-]. by eapply N_untouched, Hp.
Qed.

Lemma Always_bind_r {A B} (p : Proc A) (f : A → Proc B) :
  Always N p → (∀ a, Quiet (f a)) → Always N (bind p f).
Proof.
  intros Hp Hf env n σ σ' res n'. rewrite run_bind.
  destruct (run p env n σ) as [[σ1 [a|e]] n1] eqn:Hrun.
  - intros Hrest. eapply N_after; [by eapply Hp|by eapply Hf].
  - intros [= <- <- <-]. by eapply Hp.
Qed.

Lemma Always_try {A} (p : Proc A) : Always N p → Always N (try_ p).
Proof.
  intros Hp env n σ σ' res n'. rewrite run_try.
  destruct (run p env n σ) as [[σ1 [a|e]] n1] eqn:Hrun;
    intros [= <- <- <-]; by eapply Hp.
Qed.

Context (cfg : Config) (task : SearchTask).
Hypothesis N_notify :
  ∀ bookingName,
    Always N (notify cfg task (formatDashed (date task)) bookingName).

Lemma Always_observeResult currentUrl bookingName :
  Always N (observeResult cfg task currentUrl bookingName).
Proof.
  destruct Quiet_parts as (_ & _ & _ & _ & _ & Hdelay & Hlog & Hread).
  unfold observeResult.
  apply Always_bind_l; [apply Hdelay|]. intros _.
  apply Always_bind_l; [apply Hread|]. intros σ.
  case_match.
  { apply Quiet_Always, Quiet_bind; [apply Hlog|]. intros _. apply Quiet_Ret. }
  apply Always_bind_l; [apply Hdelay|]. intros w. cbn zeta.
  case_match.
  - apply Always_bind_l; [apply Hlog|]. intros _.
    apply Always_bind_l; [apply Hlog|]. intros _.
    apply Always_bind_r; [apply N_notify|]. intros _. apply Quiet_Ret.
  - apply Quiet_Always, Quiet_bind; [apply Hlog|]. intros _. apply Quiet_Ret.
Qed.

Lemma Always_probe : Always N (probe cfg task).
Proof.
  destruct Quiet_parts as (Hnav & Hloc & Heng & Hmiss & _ & _ & Hlog & _).
  unfold probe.
  apply Always_bind_l; [apply Hnav|]. intros currentUrl.
  apply Always_bind_l; [apply Hloc|]. intros [bookingName|].
  - apply Always_bind_l; [apply Heng|]. intros [|].
    + apply Always_observeResult.
    + apply Quiet_Always, Quiet_bind; [apply Hlog|]. intros _.
      apply Quiet_Ret.
  - by apply Quiet_Always.
Qed.

Lemma Always_checkReservation : Always N (checkReservation cfg task).
Proof.
  destruct Quiet_parts as (_ & _ & _ & _ & Hawait & Hdelay & Hlog & _).
  unfold checkReservation, tryCatchFinally.
  apply Always_bind_l; [by apply Hawait|]. intros _.
  apply Always_bind_r.
  2:{ intros o. apply Quiet_bind; [apply Hdelay|]. intros _. apply Quiet_Ret. }
  apply Always_bind_r; [apply Always_try, Always_probe|]. intros r.
  apply Quiet_bind.
  { destruct r as [e|o]; [|apply Quiet_Ret].
    apply Quiet_try, Quiet_bind; [apply Hlog|]. intros _. apply Quiet_Ret. }
  intros r'. apply Quiet_bind.
  { apply Quiet_bind; [by apply Hawait|]. intros _. apply Quiet_Ret. }
  intros _. destruct r'; [apply Quiet_Throw|apply Quiet_Ret].
Qed.

End around_notify.

Section once.
Implicit Types (σ : Sync) (u : string).

Lemma notified_untouched u σ σ' : untouched σ σ' → notifiedAtMostOnce u σ σ'.
Proof. intros (evs & ? & ? & ? & ?). exists evs. auto. Qed.

Lemma notified_before u σ1 σ2 σ3 :
  untouched σ1 σ2 → notifiedAtMostOnce u σ2 σ3 → notifiedAtMostOnce u σ1 σ3.
Proof.
  intros (evs1 & Ho1 & Hn1 & Hr1 & Hh1) (evs2 & Ho2 & H).
  exists (evs1 ++ evs2)%list.
  rewrite Ho2, Ho1, app_assoc, notifications_app, records_app, Hn1, Hr1.
  split; [done|]. simpl. by rewrite <- Hh1.
Qed.

Lemma notified_after u σ1 σ2 σ3 :
  notifiedAtMostOnce u σ1 σ2 → untouched σ2 σ3 → notifiedAtMostOnce u σ1 σ3.
Proof.
  intros (evs1 & Ho1 & H) (evs2 & Ho2 & Hn2 & Hr2 & Hh2).
  exists (evs1 ++ evs2)%list.
  rewrite Ho2, Ho1, app_assoc, notifications_app, records_app, Hn2, Hr2.
  split; [done|]. rewrite !app_nil_r. by rewrite Hh2.
Qed.

Lemma notified_notify cfg task bookingName :
  Always (notifiedAtMostOnce (url task))
         (notify cfg task (formatDashed (date task)) bookingName).
Proof.
  intros env n σ σ' res n' Hrun.
  destruct (Dedup.canSendEmail (now σ) (emailSentHistory σ) (url task))
    eqn:Hcan.
  - destruct (isDevelopment cfg) eqn:Hdev.
    + rewrite run_notify_development in Hrun by done.
      injection Hrun as <- <- <-. unfold recorded, sending. eexists. split.
      { cbn [out emitted withHistory resumed].
        rewrite <- !app_assoc. reflexivity. }
      right; right. by eexists (mailName task bookingName), _.
    + destruct (r_throw (env n (CmdSendMail (url task)
                                  (mailName task bookingName)))) as [e|] eqn:Hsend.
      * rewrite (run_notify_production_failed _ _ _ _ _ _ e) in Hrun by done.
        injection Hrun as <- <- <-. unfold recorded, sending. eexists. split.
        { rewrite out_answered. cbn [out emitted].
          rewrite <- !app_assoc. reflexivity. }
        right; left. exists (mailName task bookingName).
        cbn [alertAppeared emitted].
        destruct (alertAppeared σ); simpl;
          rewrite ?notifications_app, ?records_app,
            ?notifications_dialogEvents, ?records_dialogEvents;
          by rewrite history_answered.
      * rewrite run_notify_production_sent in Hrun by done.
        injection Hrun as <- <- <-. unfold recorded, sending. eexists. split.
        { cbn [out emitted withHistory].
          rewrite out_answered. cbn [out emitted].
          rewrite <- !app_assoc. reflexivity. }
        right; right. eexists (mailName task bookingName), _.
        cbn [alertAppeared emitted emailSentHistory withHistory].
        rewrite history_answered.
        destruct (alertAppeared σ); simpl;
          rewrite ?notifications_app, ?records_app,
            ?notifications_dialogEvents, ?records_dialogEvents; done.
  - destruct (run_notify_skip cfg task bookingName env n σ Hcan) as [m Hskip].
    rewrite Hskip in Hrun. injection Hrun as <- <- <-.
    eexists. split; [cbn [out emitted]; by rewrite <- app_assoc|].
    by left.
Qed.

End once.

(** X15: whatever the page and the mail transport answer, and wherever a
    request fails, one call of [checkReservation] calls the notifier at
    most once and records at most one send, both for the url of its task:
    either nothing was sent and the history is as before; or one mail was
    handed over but not recorded (the send failed) and the history is as
    before; or one mail was sent and recorded, and the history differs from
    the one before by the entry of that url alone. *)
Theorem X15_notifier_discipline (cfg : Config) (task : SearchTask)
    (env : Driver) (t : Z) (h : gmap string Z) :
  let σ := (run (checkReservation cfg task) env 0 (startSync t h)).1.1 in
  (notifications (out σ) = [] ∧ records (out σ) = []
   ∧ emailSentHistory σ = h)
  ∨ (∃ name,
       notifications (out σ) = [(url task, name)] ∧ records (out σ) = []
       ∧ emailSentHistory σ = h)
  ∨ (∃ name ts,
       notifications (out σ) = [(url task, name)]
       ∧ records (out σ) = [(url task, ts)]
       ∧ emailSentHistory σ = <[url task := ts]> h).
Proof.
  intros σ. subst σ.
  destruct (run (checkReservation cfg task) env 0 (startSync t h))
    as [[σ res] n] eqn:Hrun.
  apply (Always_checkReservation (notifiedAtMostOnce (url task))) in Hrun.
  - destruct Hrun as (evs & Hout & H). simpl in *. by rewrite Hout.
  - apply notified_untouched.
  - apply notified_before.
  - apply notified_after.
  - apply notified_notify.
Qed.

(** ** Development mode *)

Section page_obeys.
Context (okC : Cmd → bool) (okE : Event → bool) (okH : bool).
Hypothesis HokC : ∀ c, pageCmd c = true → okC c = true.
Hypothesis HokE : ∀ e, quietEvent e = true → okE e = true.

Ltac obeys_page :=
  repeat first
    [ assumption
    | solve [auto 2]
    | apply Obeys_await
    | apply Obeys_awaitAny
    | apply Obeys_deliverDialogs
    | apply Obeys_try
    | apply Obeys_bind
    | progress unfold delay, log, emit, read, awaitResolved, rethrow
    | (apply HokC; reflexivity)
    | (apply HokE; reflexivity)
    | constructor
    | intros ?
    | case_match ].

Lemma page_scanReserveButtons attempt handles :
  Obeys okC okE okH (scanReserveButtons attempt handles).
Proof. induction handles as [|handle handles IH]; simpl; obeys_page. Qed.

Lemma page_locateReserveButton k attempt :
  Obeys okC okE okH (locateReserveButton k attempt).
Proof.
  revert attempt. induction k as [|k IH]; intros attempt; simpl;
    [constructor|].
  pose proof page_scanReserveButtons. unfold reserveRetry. obeys_page.
Qed.

Lemma page_clickNonMember k attempt :
  Obeys okC okE okH (clickNonMember k attempt).
Proof.
  revert attempt. induction k as [|k IH]; intros attempt; simpl;
    [constructor|].
  unfold nonMemberRetry. obeys_page.
Qed.

Lemma page_navigate task : Obeys okC okE okH (navigate task).
Proof. unfold navigate. obeys_page. Qed.

Lemma page_engageNonMember : Obeys okC okE okH engageNonMember.
Proof. pose proof page_clickNonMember. unfold engageNonMember. obeys_page. Qed.

Lemma page_reportMissing : Obeys okC okE okH reportMissing.
Proof. unfold reportMissing. obeys_page. Qed.

End page_obeys.

Section development.
Context (cfg : Config) (task : SearchTask).
Hypothesis Hdev : isDevelopment cfg = true.

Lemma development_notify formattedDate bookingName :
  Obeys notMail taskEvent true (notify cfg task formattedDate bookingName).
Proof.
  unfold notify, canSendEmail, sendEmail, recordEmailSent. rewrite Hdev.
  repeat first
    [ apply Obeys_bind
    | progress unfold log, emit, read, awaitResolved
    | reflexivity
    | constructor
    | intros ?
    | case_match ].
Qed.

Lemma development_checkReservation :
  Obeys notMail taskEvent true (checkReservation cfg task).
Proof.
  assert (∀ c, pageCmd c = true → notMail c = true) as HokC
    by (by intros []).
  pose proof quietEvent_taskEvent as HokE.
  pose proof (page_navigate notMail taskEvent true HokC HokE task).
  pose proof (page_locateReserveButton notMail taskEvent true HokC HokE).
  pose proof (page_engageNonMember notMail taskEvent true HokC HokE).
  pose proof (page_reportMissing notMail taskEvent true HokC HokE).
  pose proof (page_scanReserveButtons notMail taskEvent true HokC HokE).
  pose proof (page_clickNonMember notMail taskEvent true HokC HokE).
  pose proof development_notify.
  unfold checkReservation, tryCatchFinally, probe, observeResult.
  repeat first
    [ assumption
    | solve [auto 2]
    | apply Obeys_await
    | apply Obeys_awaitAny
    | apply Obeys_deliverDialogs
    | apply Obeys_try
    | apply Obeys_bind
    | progress unfold delay, log, emit, read, rethrow
    | reflexivity
    | constructor
    | intros ?
    | case_match ].
Qed.

End development.

Lemma awaited_notMail evs :
  Forall (λ e, okEvent notMail taskEvent e = true) evs →
  Forall (λ c, notMail c = true) (awaited evs).
Proof.
  induction 1 as [|e evs He _ IH]; [constructor|].
  destruct e; simpl; try exact IH. constructor; [|exact IH]. exact He.
Qed.

Section printed.
Implicit Types (σ : Sync) (u : string).

Lemma printed_untouched u σ σ' : untouched σ σ' → printedAndRecorded u σ σ'.
Proof. intros (evs & ? & ? & ? & ?). exists evs. auto. Qed.

Lemma printed_before u σ1 σ2 σ3 :
  untouched σ1 σ2 → printedAndRecorded u σ2 σ3 → printedAndRecorded u σ1 σ3.
Proof.
  intros (evs1 & Ho1 & Hn1 & Hr1 & Hh1) (evs2 & Ho2 & H).
  exists (evs1 ++ evs2)%list.
  rewrite Ho2, Ho1, app_assoc, notifications_app, records_app, Hn1, Hr1.
  split; [done|]. simpl. rewrite <- Hh1.
  destruct H as [H|(name & ts & ? & ? & ? & Hin)]; [by left|right].
  exists name, ts. split_and!; try done. apply elem_of_app. by right.
Qed.

Lemma printed_after u σ1 σ2 σ3 :
  printedAndRecorded u σ1 σ2 → untouched σ2 σ3 → printedAndRecorded u σ1 σ3.
Proof.
  intros (evs1 & Ho1 & H) (evs2 & Ho2 & Hn2 & Hr2 & Hh2).
  exists (evs1 ++ evs2)%list.
  rewrite Ho2, Ho1, app_assoc, notifications_app, records_app, Hn2, Hr2.
  split; [done|]. rewrite !app_nil_r, Hh2.
  destruct H as [H|(name & ts & ? & ? & ? & Hin)]; [by left|right].
  exists name, ts. split_and!; try done. apply elem_of_app. by left.
Qed.

Lemma printed_notify cfg task bookingName :
  isDevelopment cfg = true →
  Always (printedAndRecorded (url task))
         (notify cfg task (formatDashed (date task)) bookingName).
Proof.
  intros Hdev env n σ σ' res n' Hrun.
  destruct (Dedup.canSendEmail (now σ) (emailSentHistory σ) (url task))
    eqn:Hcan.
  - rewrite run_notify_development in Hrun by done.
    injection Hrun as <- <- <-. unfold recorded, sending. eexists. split.
    { cbn [out emitted withHistory resumed].
      rewrite <- !app_assoc. reflexivity. }
    right. eexists (mailName task bookingName), _.
    split_and!; try done. simpl. right; right; left.
  - destruct (run_notify_skip cfg task bookingName env n σ Hcan) as [m Hskip].
    rewrite Hskip in Hrun. injection Hrun as <- <- <-.
    eexists. split; [cbn [out emitted]; by rewrite <- app_assoc|].
    by left.
Qed.

End printed.

(** X16: in development mode no call ever hands a mail to the transport,
    whatever the page answers; a detection that [canSendEmail] lets through
    is printed and still recorded, so that the cooldown holds for the
    printed notices as it does for the mails. *)
Theorem X16_development_mode (cfg : Config) (task : SearchTask)
    (env : Driver) (t : Z) (h : gmap string Z)
    (Hdev : isDevelopment cfg = true) :
  let σ := (run (checkReservation cfg task) env 0 (startSync t h)).1.1 in
  (∀ u name, CmdSendMail u name ∉ awaited (out σ))
  ∧ ((notifications (out σ) = [] ∧ records (out σ) = []
      ∧ emailSentHistory σ = h)
     ∨ (∃ name ts,
          notifications (out σ) = [(url task, name)]
          ∧ records (out σ) = [(url task, ts)]
          ∧ emailSentHistory σ = <[url task := ts]> h
          ∧ EvLog (LogDevMail (url task) name) ∈ out σ)).
Proof.
  intros σ. subst σ.
  destruct (run (checkReservation cfg task) env 0 (startSync t h))
    as [[σ res] n] eqn:Hrun. simpl.
  split.
  - destruct (Obeys_run _ _ _ _ _ _ _ _ _ _
                (development_checkReservation cfg task Hdev) Hrun)
      as (evs & Hout & Hall & _).
    apply awaited_notMail in Hall. rewrite Hout. simpl.
    intros u name Hin. rewrite Forall_forall in Hall.
    by apply Hall in Hin.
  - apply (Always_checkReservation (printedAndRecorded (url task))) in Hrun.
    + destruct Hrun as (evs & Hout & H). simpl in *. by rewrite Hout.
    + apply printed_untouched.
    + apply printed_before.
    + apply printed_after.
    + intros bookingName. by apply printed_notify.
Qed.

Lemma X16_development_mode_witness :
  let cfg := mkConfig true [mkItem "25"] in
  let σ := (run (checkReservation cfg sampleTask) (bookablePage (λ _ _, false))
                0 (startSync 0 ∅)).1.1 in
  (∀ u name, CmdSendMail u name ∉ awaited (out σ))
  ∧ ((notifications (out σ) = [] ∧ records (out σ) = []
      ∧ emailSentHistory σ = ∅)
     ∨ (∃ name ts,
          notifications (out σ) = [(url sampleTask, name)]
          ∧ records (out σ) = [(url sampleTask, ts)]
          ∧ emailSentHistory σ = <[url sampleTask := ts]> ∅
          ∧ EvLog (LogDevMail (url sampleTask) name) ∈ out σ)).
Proof.
  apply (X16_development_mode (mkConfig true [mkItem "25"]) sampleTask
           (bookablePage (λ _ _, false)) 0 ∅).
  reflexivity.
Defined.

(** ** The calls of a batch in the trace *)

Section batch_trace.
Implicit Types (w : World) (sts : list TaskState) (i index : nat).

Lemma segment_spec i alert p pre w :
  ∃ σ p',
    advance p (mkSync (w_now w) (w_history w) pre alert) = (σ, p')
    ∧ segment i alert p pre w
      = (mkWorld (w_now w) (emailSentHistory σ)
           (w_trace w ++ (CyTask i <$> out σ) ++ settlement i p'),
         (alertAppeared σ, p')).
Proof.
  unfold segment.
  destruct (advance p _) as [σ p'] eqn:Hadv. eauto.
Qed.

Lemma advance_checkReservation cfg task σ :
  ∃ k, advance (checkReservation cfg task) σ = (σ, Await CmdNewPage k).
Proof. eexists. reflexivity. Qed.

Lemma startBatch_spec cfg total i index batch w sts w' :
  startBatch cfg total i index batch w = (sts, w') →
  w_trace w'
  = (w_trace w
       ++ flat_map (callStart total) (seq (i + index) (length batch)))%list
  ∧ w_now w' = w_now w ∧ w_history w' = w_history w
  ∧ length sts = length batch
  ∧ Forall (λ st, ∃ k, st = (None, Await CmdNewPage k)) sts.
Proof.
  revert index w sts w'.
  induction batch as [|task batch IH]; intros index w sts w' Hstart;
    cbn [startBatch] in Hstart.
  - simplify_eq. simpl. by rewrite app_nil_r.
  - destruct (segment_spec (i + index) None (checkReservation cfg task) []
                (called (i + index)
                   (own [EvLog (LogProgress (i + index + 1) total)] w)))
      as (σ & p' & Hadv & Heq).
    destruct (advance_checkReservation cfg task
                (mkSync (w_now w) (w_history w) [] None)) as [k Hk].
    cbn [w_now w_history called own] in Hadv.
    rewrite Hk in Hadv. injection Hadv as <- <-.
    rewrite Heq in Hstart. clear Heq Hk.
    destruct (startBatch cfg total i (S index) batch _) as [sts' w3] eqn:Hrest.
    injection Hstart as <- <-.
    apply IH in Hrest as (Htr & Hnow & Hhist & Hlen & Hall).
    cbn [w_trace w_now w_history called own settlement out emailSentHistory
         fmap list_fmap] in *.
    rewrite Htr, Hnow, Hhist.
    replace (i + S index)%nat with (S (i + index)) by lia.
    split.
    { cbn [length seq flat_map callStart]. rewrite <- !app_assoc.
      reflexivity. }
    split_and!; try done; [simpl; by rewrite Hlen|].
    constructor; [eauto|done].
Qed.

End batch_trace.

(** X17: the calls of a batch are all made in one go, in the order of the
    tasks: for each task the line of progress is printed and
    [checkReservation] is called, which runs up to its request for a page
    and is suspended there before the next call is made.  When [map]
    returns, every call of the batch is waiting for its page; no other
    request has been made, the clock and the history are as they were. *)
Theorem X17_batch_start (cfg : Config) (total i : nat)
    (batch : list SearchTask) (w : World) :
  let sts := (startBatch cfg total i 0 batch w).1 in
  let w' := (startBatch cfg total i 0 batch w).2 in
  w_trace w'
  = (w_trace w ++ flat_map (callStart total) (seq i (length batch)))%list
  ∧ w_now w' = w_now w ∧ w_history w' = w_history w
  ∧ length sts = length batch
  ∧ Forall (λ st, ∃ k, st = (None, Await CmdNewPage k)) sts.
Proof.
  intros sts w'. subst sts w'.
  destruct (startBatch cfg total i 0 batch w) as [sts w'] eqn:Hstart.
  apply startBatch_spec in Hstart. by rewrite Nat.add_0_r in Hstart.
Qed.

(** ** One batch after the other *)

Section barrier_trace.
Implicit Types (w : World) (sts : list TaskState) (i index : nat)
  (tr new mid : list CycleEvent).

Lemma calls_app tr1 tr2 : calls (tr1 ++ tr2) = (calls tr1 ++ calls tr2)%list.
Proof. apply omap_app. Qed.

Lemma ownEvents_app tr1 tr2 :
  ownEvents (tr1 ++ tr2) = (ownEvents tr1 ++ ownEvents tr2)%list.
Proof. apply omap_app. Qed.

Lemma calls_task i (evs : list Event) : calls (CyTask i <$> evs) = [].
Proof. induction evs as [|e evs IH]; [done|]. exact IH. Qed.

Lemma ownEvents_task i (evs : list Event) : ownEvents (CyTask i <$> evs) = [].
Proof. induction evs as [|e evs IH]; [done|]. exact IH. Qed.


Lemma ownEvents_own (evs : list Event) : ownEvents (CyOwn <$> evs) = evs.
Proof. induction evs as [|e evs IH]; [done|]. simpl. f_equal. exact IH. Qed.

Lemma calls_settlement {A} i (p : Proc A) : calls (settlement i p) = [].
Proof. by destruct p. Qed.

Lemma ownEvents_settlement {A} i (p : Proc A) :
  ownEvents (settlement i p) = [].
Proof. by destruct p. Qed.

Lemma calls_lookup tr n b : tr !! n = Some (CyCall b) → b ∈ calls tr.
Proof.
  intros Hn. apply list_elem_of_omap. exists (CyCall b).
  split; [by eapply list_elem_of_lookup_2|done].
Qed.

Lemma calls_callStart total j n : calls (flat_map (callStart total) (seq j n))
                                  = seq j n.
Proof.
  revert j. induction n as [|n IH]; intros j; [done|].
  simpl. f_equal. apply IH.
Qed.

Lemma segment_trace i alert p pre w w' st :
  segment i alert p pre w = (w', st) →
  ∃ new, w_trace w' = (w_trace w ++ new)%list
         ∧ calls new = [] ∧ ownEvents new = []
         ∧ (resolved st = true → CySettled i true ∈ new).
Proof.
  intros Hseg.
  destruct (segment_spec i alert p pre w) as (σ & p' & Hadv & Heq).
  rewrite Heq in Hseg. injection Hseg as <- <-. cbn [w_trace].
  eexists. split; [reflexivity|].
  rewrite calls_app, ownEvents_app, calls_task, ownEvents_task,
    calls_settlement, ownEvents_settlement.
  split_and!; try done.
  unfold resolved. simpl. destruct p'; try done. intros _.
  apply elem_of_app. right. left.
Qed.

Lemma resumeTask_trace i index a sts w sts' w' :
  resumeTask i index a sts w = (sts', w') →
  length sts' = length sts
  ∧ ∃ new, w_trace w' = (w_trace w ++ new)%list
           ∧ calls new = [] ∧ ownEvents new = []
           ∧ ∀ mid, settledInTrace i sts mid →
                    settledInTrace i sts' (mid ++ new).
Proof.
  unfold resumeTask. intros Hres.
  assert (length sts = length sts
          ∧ ∃ new, w_trace w = (w_trace w ++ new)%list
                   ∧ calls new = [] ∧ ownEvents new = []
                   ∧ ∀ mid, settledInTrace i sts mid →
                            settledInTrace i sts (mid ++ new)) as Hsame.
  { split; [done|]. exists []. rewrite !app_nil_r. split_and!; try done.
    intros mid. by rewrite app_nil_r. }
  destruct (sts !! index) as [[alert p]|] eqn:Hlook; [|by simplify_eq].
  destruct p as [| |c k| | | |]; try (by simplify_eq).
  destruct (segment _ _ _ _ _) as [w1 st] eqn:Hseg. simplify_eq.
  apply segment_trace in Hseg as (new & Htr & Hcalls & Hown & Hset).
  split; [by rewrite length_insert|].
  exists new. cbn [w_trace at_time] in Htr. split_and!; try done.
  intros mid Hinv j st' Hk Hres.
  destruct (decide (index = j)) as [->|Hne].
  - rewrite list_lookup_insert_eq in Hk
      by (by eapply lookup_lt_Some). simplify_eq.
    apply elem_of_app. right. auto.
  - rewrite list_lookup_insert_ne in Hk by done.
    apply elem_of_app. left. by eapply Hinv.
Qed.

Lemma awaitAll_trace i sched sts w w' res :
  awaitAll i sched sts w = (w', res) →
  ∃ new, w_trace w' = (w_trace w ++ new)%list
         ∧ calls new = [] ∧ ownEvents new = []
         ∧ ∀ mid, settledInTrace i sts mid →
                  res = Some (Resolved tt) →
                  ∀ index, (index < length sts)%nat →
                           CySettled (i + index) true ∈ (mid ++ new)%list.
Proof.
  revert sts w. induction sched as [|[index a] sched IH]; intros sts w Hall;
    cbn [awaitAll] in Hall.
  - exists []. rewrite !app_nil_r.
    destruct (omap rejection sts) as [|e es]; [|simplify_eq; by split_and!].
    destruct (forallb resolved sts) eqn:Hres; simplify_eq;
      [|by split_and!].
    split_and!; try done.
    intros mid Hinv _ k Hk. rewrite app_nil_r.
    destruct (lookup_lt_is_Some_2 sts k Hk) as [st Hst].
    eapply Hinv; [exact Hst|].
    rewrite forallb_forall in Hres. apply Hres.
    apply list_elem_of_In. by eapply list_elem_of_lookup_2.
  - destruct (omap rejection sts) as [|e es].
    2:{ simplify_eq. exists []. rewrite !app_nil_r. by split_and!. }
    destruct (forallb resolved sts) eqn:Hres.
    { simplify_eq. exists []. rewrite !app_nil_r. split_and!; try done.
      intros mid Hinv _ k Hk. rewrite app_nil_r.
      destruct (lookup_lt_is_Some_2 sts k Hk) as [st Hst].
      eapply Hinv; [exact Hst|].
      rewrite forallb_forall in Hres. apply Hres.
      apply list_elem_of_In. by eapply list_elem_of_lookup_2. }
    destruct (resumeTask i index a sts w) as [sts' w1] eqn:Hstep.
    apply resumeTask_trace in Hstep
      as (Hlen & new1 & Htr1 & Hc1 & Ho1 & Hset1).
    apply IH in Hall as (new2 & Htr2 & Hc2 & Ho2 & Hset2).
    exists (new1 ++ new2)%list.
    rewrite Htr2, Htr1, app_assoc, calls_app, ownEvents_app, Hc1, Hc2,
      Ho1, Ho2.
    split_and!; try done.
    intros mid Hinv Hresolved k Hk. rewrite app_assoc.
    apply (Hset2 (mid ++ new1)%list); [by apply Hset1|done|by rewrite Hlen].
Qed.

Lemma settledInTrace_start i sts tr :
  Forall (λ st, ∃ k, st = (None, Await CmdNewPage k)) sts →
  settledInTrace i sts tr.
Proof.
  intros Hall index st Hst Hres. rewrite Forall_forall in Hall.
  destruct (Hall st) as [k ->]; [by eapply list_elem_of_lookup_2|done].
Qed.

(** Where a call is made in the trace of [runBatches], and what has been
    said before it. *)
Lemma runBatches_trace cfg total i bs scheds w w' res :
  runBatches cfg total i bs scheds w = (w', res) →
  ∃ new, w_trace w' = (w_trace w ++ new)%list
         ∧ calls new `prefix_of` batchCalls i bs
         ∧ (res = Some (Resolved tt) →
            calls new = batchCalls i bs
            ∧ ∀ p a, inBatch i bs p a → CySettled a true ∈ new)
         ∧ ∀ n b, new !! n = Some (CyCall b) →
             ∃ q, inBatch i bs q b
                  ∧ ∀ p a, (p < q)%nat → inBatch i bs p a →
                           CySettled a true ∈ take n new.
Proof.
  revert i scheds w. induction bs as [|batch bs IH]; intros i scheds w Hrun;
    cbn [runBatches] in Hrun.
  - simplify_eq. exists []. rewrite app_nil_r. split_and!; try done.
    intros _. split; [done|]. by intros p a (batch & ? & _).
  - destruct (startBatch cfg total i 0 batch w) as [sts w1] eqn:Hstart.
    apply startBatch_spec in Hstart as (Htr1 & _ & _ & Hlen & Hsts).
    rewrite Nat.add_0_r in Htr1.
    set (new1 := flat_map (callStart total) (seq i (length batch))) in *.
    destruct (awaitAll i (hd [] scheds) sts w1) as [w2 r] eqn:Hall.
    apply awaitAll_trace in Hall as (new2 & Htr2 & Hc2 & Ho2 & Hset2).
    specialize (Hset2 new1 (settledInTrace_start _ _ _ Hsts)).
    assert (∀ n b, (new1 ++ new2)%list !! n = Some (CyCall b) →
                   inBatch i (batch :: bs) 0 b) as Hfirst.
    { intros n b Hn. apply calls_lookup in Hn.
      rewrite calls_app, Hc2, app_nil_r in Hn. unfold new1 in Hn.
      rewrite calls_callStart in Hn. apply elem_of_seq in Hn.
      exists batch. split; [done|]. lia. }
    assert (∀ p a, inBatch i (batch :: bs) (S p) a
                   ↔ inBatch (i + CONCURRENT_LIMIT) bs p a) as Hshift.
    { intros p a. unfold inBatch, CONCURRENT_LIMIT. simpl.
      split; intros (b' & ? & ?); exists b'; (split; [done|lia]). }
    assert ((∃ other, r = other ∧ (w', res) = (w2, r)
                      ∧ other ≠ Some (Resolved tt))
            ∨ (r = Some (Resolved tt)
               ∧ runBatches cfg total (i + CONCURRENT_LIMIT) bs (tl scheds) w2
                 = (w', res))) as [(other & -> & Heq & Hother)|[-> Hrest]].
    { destruct r as [[[]|e]|]; [by right|left..]; eauto. }
    + injection Heq as -> ->.
      exists (new1 ++ new2)%list. rewrite Htr2, Htr1, app_assoc.
      split; [done|]. split.
      { rewrite calls_app, Hc2, app_nil_r. unfold new1.
        rewrite calls_callStart. by apply prefix_app_r. }
      split; [done|].
      intros n b Hn. exists 0%nat. split; [by eapply Hfirst|]. lia.
    + apply IH in Hrest as (new3 & Htr3 & Hpre3 & Hdone3 & Hbar3).
      exists ((new1 ++ new2) ++ new3)%list.
      rewrite Htr3, Htr2, Htr1, !app_assoc. split; [done|].
      assert (calls (new1 ++ new2) = seq i (length batch)) as Hc12.
      { rewrite calls_app, Hc2, app_nil_r. apply calls_callStart. }
      split; [|split].
      * rewrite calls_app, Hc12. simpl. by apply prefix_app.
      * intros Hres. destruct (Hdone3 Hres) as [Hc3 Hs3]. split.
        { rewrite calls_app, Hc12, Hc3. done. }
        intros [|p] a Hin.
        -- destruct Hin as (b' & [= <-] & Ha).
           apply elem_of_app. left.
           replace a with (i + (a - i))%nat by lia.
           apply Hset2; [done|]. rewrite Hlen. lia.
        -- apply elem_of_app. right. by apply (Hs3 p), Hshift.
      * intros n b Hn. apply lookup_app_Some in Hn as [Hn|[Hge Hn]].
        { exists 0%nat. split; [by eapply Hfirst|]. lia. }
        destruct (Hbar3 _ _ Hn) as (q & Hq & Hbefore).
        exists (S q). split; [by apply Hshift|].
        intros [|p] a Hp Hin.
        -- destruct Hin as (b' & [= <-] & Ha).
           rewrite take_app_ge by done.
           apply elem_of_app. left.
           replace a with (i + (a - i))%nat by lia.
           apply Hset2; [done|]. rewrite Hlen. lia.
        -- rewrite take_app_ge by done. apply elem_of_app. right.
           apply (Hbefore p); [lia|]. by apply Hshift.
Qed.

End barrier_trace.

(** X18: the batches run one after the other.  In the trace of the [for]
    loop over the batches, the calls are made in the order of the task
    list, each task being called at most once; a call of a batch is made
    only when every call of every earlier batch has been resolved; and
    when the loop ends without an error, every task of every batch has been
    called and has been resolved. *)
Theorem X18_batch_barrier (cfg : Config) (total i : nat)
    (bs : list (list SearchTask)) (scheds : list (list (nat * Answer)))
    (w : World) :
  let w' := (runBatches cfg total i bs scheds w).1 in
  let res := (runBatches cfg total i bs scheds w).2 in
  ∃ new,
    w_trace w' = (w_trace w ++ new)%list
    ∧ barrier i bs new
    ∧ calls new `prefix_of` batchCalls i bs
    ∧ (res = Some (Resolved tt) →
       calls new = batchCalls i bs
       ∧ ∀ p a, inBatch i bs p a → CySettled a true ∈ new).
Proof.
  intros w' res. subst w' res.
  destruct (runBatches cfg total i bs scheds w) as [w' res] eqn:Hrun.
  apply runBatches_trace in Hrun as (new & Htr & Hpre & Hdone & Hbar).
  exists new. split_and!; try done.
  intros l1 l2 b ->.
  destruct (Hbar (length l1) b) as (q & Hq & Hbefore).
  { by rewrite lookup_app_r, Nat.sub_diag by done. }
  exists q. split; [done|].
  by rewrite take_app_length in Hbefore.
Qed.

(** ** What holds of every call in flight *)

Section task_invariant.
Context (cfg : Config) (P : Proc ProbeOutcome → Prop)
  (okA : Answer → Prop) (okT : Event → Prop).
Hypothesis P_start : ∀ task, P (checkReservation cfg task).
Hypothesis P_advance :
  ∀ p σ σ' p', P p → advance p σ = (σ', p') →
               P p' ∧ ∃ evs, out σ' = (out σ ++ evs)%list ∧ Forall okT evs.
Hypothesis P_await : ∀ c k, P (Await c k) → okT (EvAwait c).
Hypothesis P_resume :
  ∀ c k a, P (Await c k) → okA a → P (k (a c)) ∧ okT (EvResume c (a c)).

Implicit Types (w : World) (sts : list TaskState) (i index : nat)
  (new : list CycleEvent).

(** The events of the calls in a stretch of the trace satisfy [okT]. *)
Let tasksOk new : Prop := ∀ j e, CyTask j e ∈ new → okT e.

Lemma tasksOk_app new1 new2 :
  tasksOk new1 → tasksOk new2 → tasksOk (new1 ++ new2).
Proof. intros H1 H2 j e [?|?]%elem_of_app; eauto. Qed.

Lemma segment_inv i alert p pre w w' st :
  P p → Forall okT pre → segment i alert p pre w = (w', st) →
  P st.2 ∧ ∃ new, w_trace w' = (w_trace w ++ new)%list ∧ tasksOk new.
Proof.
  intros Hp Hpre Hseg.
  destruct (segment_spec i alert p pre w) as (σ & p' & Hadv & Heq).
  rewrite Heq in Hseg. injection Hseg as <- <-. cbn [w_trace snd].
  destruct (P_advance _ _ _ _ Hp Hadv) as (Hp' & evs & Hout & Hevs).
  split; [done|]. eexists. split; [reflexivity|].
  apply tasksOk_app.
  - intros j e (e' & [= _ <-] & Hin)%list_elem_of_fmap.
    rewrite Hout in Hin. simpl in Hin.
    apply elem_of_app in Hin as [Hin|Hin];
      [rewrite Forall_forall in Hpre|rewrite Forall_forall in Hevs]; auto.
  - intros j e Hin. destruct p'; simpl in Hin;
      try (by apply elem_of_nil in Hin);
      apply list_elem_of_singleton in Hin; try done.
    injection Hin as _ ->. by eapply P_await.
Qed.

Lemma startBatch_inv total i index batch w sts w' :
  startBatch cfg total i index batch w = (sts, w') →
  Forall (λ st, P st.2) sts
  ∧ ∃ new, w_trace w' = (w_trace w ++ new)%list ∧ tasksOk new.
Proof.
  revert index w sts w'.
  induction batch as [|task batch IH]; intros index w sts w' Hstart;
    cbn [startBatch] in Hstart.
  - simplify_eq. split; [constructor|]. exists []. rewrite app_nil_r.
    split; [done|]. by intros j e ?%elem_of_nil.
  - destruct (segment (i + index) None (checkReservation cfg task) [] _)
      as [w2 st] eqn:Hseg.
    destruct (startBatch cfg total i (S index) batch w2) as [sts' w3] eqn:Hrest.
    injection Hstart as <- <-.
    apply segment_inv in Hseg as (Hst & new1 & Htr1 & Hok1);
      [|apply P_start|constructor].
    apply IH in Hrest as (Hsts & new2 & Htr2 & Hok2).
    split; [by constructor|].
    exists ([CyOwn (EvLog (LogProgress (i + index + 1) total));
             CyCall (i + index)] ++ new1 ++ new2)%list.
    split.
    { rewrite Htr2, Htr1. cbn [w_trace called own fmap list_fmap].
      by rewrite <- !app_assoc. }
    apply tasksOk_app; [|by apply tasksOk_app].
    intros j e Hin. repeat (apply elem_of_cons in Hin as [Hin|Hin]; [done|]).
    by apply elem_of_nil in Hin.
Qed.

Lemma resumeTask_inv i index a sts w sts' w' :
  Forall (λ st, P st.2) sts → okA a →
  resumeTask i index a sts w = (sts', w') →
  Forall (λ st, P st.2) sts'
  ∧ ∃ new, w_trace w' = (w_trace w ++ new)%list ∧ tasksOk new.
Proof.
  intros Hsts Ha. unfold resumeTask. intros Hres.
  assert (Forall (λ st, P st.2) sts
          ∧ ∃ new, w_trace w = (w_trace w ++ new)%list ∧ tasksOk new)
    as Hsame.
  { split; [done|]. exists []. rewrite app_nil_r. split; [done|].
    by intros j e ?%elem_of_nil. }
  destruct (sts !! index) as [[alert p]|] eqn:Hlook; [|by simplify_eq].
  destruct p as [| |c k| | | |]; try (by simplify_eq).
  destruct (segment _ _ _ _ _) as [w1 st] eqn:Hseg. simplify_eq.
  assert (P (Await c k)) as Hp.
  { rewrite Forall_forall in Hsts.
    apply (Hsts (alert, Await c k)). by eapply list_elem_of_lookup_2. }
  destruct (P_resume _ _ _ Hp Ha) as [Hk Hresume].
  apply segment_inv in Hseg as (Hst & new & Htr & Hok);
    [|done|by constructor].
  split; [by apply Forall_insert|]. by exists new.
Qed.

Lemma awaitAll_inv i sched sts w w' res :
  Forall (λ st, P st.2) sts → Forall (λ ia, okA ia.2) sched →
  awaitAll i sched sts w = (w', res) →
  (∃ new, w_trace w' = (w_trace w ++ new)%list ∧ tasksOk new)
  ∧ ((∀ e, ¬ P (Throw e)) → ∀ e, res ≠ Some (Rejected e)).
Proof.
  intros Hsts Hsched. revert sts w Hsts.
  induction Hsched as [|[index a] sched Ha _ IH]; intros sts w Hsts Hall;
    cbn [awaitAll] in Hall.
  - assert (∃ new, w_trace w = (w_trace w ++ new)%list ∧ tasksOk new)
      as Hsame.
    { exists []. rewrite app_nil_r. split; [done|].
      by intros j e ?%elem_of_nil. }
    destruct (omap rejection sts) as [|e es] eqn:Hrej.
    + destruct (forallb resolved sts); simplify_eq; (split; [done|]);
        by intros _ e.
    + simplify_eq. split; [done|]. intros Hno e' _.
      assert (e ∈ omap rejection sts) as Hin by (rewrite Hrej; left).
      apply list_elem_of_omap in Hin as ([alert p] & Hin & Hp).
      rewrite Forall_forall in Hsts. specialize (Hsts _ Hin).
      unfold rejection in Hp. simpl in *. destruct p; try done.
      by eapply Hno.
  - assert (∃ new, w_trace w = (w_trace w ++ new)%list ∧ tasksOk new)
      as Hsame.
    { exists []. rewrite app_nil_r. split; [done|].
      by intros j e ?%elem_of_nil. }
    destruct (omap rejection sts) as [|e es] eqn:Hrej.
    + destruct (forallb resolved sts).
      { simplify_eq. split; [done|]. by intros _ e. }
      destruct (resumeTask i index a sts w) as [sts' w1] eqn:Hstep.
      apply resumeTask_inv in Hstep as (Hsts' & new1 & Htr1 & Hok1);
        [|done|done].
      apply IH in Hall as [(new2 & Htr2 & Hok2) Hres]; [|done].
      split; [|done]. exists (new1 ++ new2)%list.
      rewrite Htr2, Htr1, app_assoc. split; [done|].
      by apply tasksOk_app.
    + simplify_eq. split; [done|]. intros Hno e' _.
      assert (e ∈ omap rejection sts) as Hin by (rewrite Hrej; left).
      apply list_elem_of_omap in Hin as ([alert p] & Hin & Hp).
      rewrite Forall_forall in Hsts. specialize (Hsts _ Hin).
      unfold rejection in Hp. simpl in *. destruct p; try done.
      by eapply Hno.
Qed.

Lemma runBatches_inv total i bs scheds w w' res :
  Forall (Forall (λ ia, okA ia.2)) scheds →
  runBatches cfg total i bs scheds w = (w', res) →
  (∃ new, w_trace w' = (w_trace w ++ new)%list ∧ tasksOk new)
  ∧ ((∀ e, ¬ P (Throw e)) → ∀ e, res ≠ Some (Rejected e)).
Proof.
  revert i scheds w. induction bs as [|batch bs IH];
    intros i scheds w Hscheds Hrun; cbn [runBatches] in Hrun.
  - simplify_eq. split; [|by intros _ e].
    exists []. rewrite app_nil_r. split; [done|].
    by intros j e ?%elem_of_nil.
  - destruct (startBatch cfg total i 0 batch w) as [sts w1] eqn:Hstart.
    apply startBatch_inv in Hstart as (Hsts & new1 & Htr1 & Hok1).
    destruct (awaitAll i (hd [] scheds) sts w1) as [w2 r] eqn:Hall.
    apply awaitAll_inv in Hall as [(new2 & Htr2 & Hok2) Hres2]; [|done|].
    2:{ destruct Hscheds; [constructor|done]. }
    assert ((w', res) = (w2, r)
            ∨ (r = Some (Resolved tt)
               ∧ runBatches cfg total (i + CONCURRENT_LIMIT) bs (tl scheds) w2
                 = (w', res))) as [Heq|[-> Hrest]].
    { destruct r as [[[]|e]|]; [by right|left..]; done. }
    + injection Heq as -> ->. split; [|done].
      exists (new1 ++ new2)%list. rewrite Htr2, Htr1, app_assoc.
      split; [done|]. by apply tasksOk_app.
    + apply IH in Hrest as [(new3 & Htr3 & Hok3) Hres3].
      2:{ destruct Hscheds; [constructor|done]. }
      split; [|done].
      exists ((new1 ++ new2) ++ new3)%list.
      rewrite Htr3, Htr2, Htr1, !app_assoc. split; [done|].
      apply tasksOk_app; [by apply tasksOk_app|done].
Qed.

End task_invariant.

(** ** The cycle *)

Section cycle_runs.
Implicit Types (w : World) (r : Resp).

Lemma run_cleanupOldEmailHistory env n σ :
  run cleanupOldEmailHistory env n σ
  = (mkSync (now σ)
       (Dedup.cleanupOldEmailHistory (now σ) (emailSentHistory σ)).1
       (out σ
          ++ EvCleanup (length (Dedup.keysToDelete (now σ) (emailSentHistory σ)))
          :: match (Dedup.cleanupOldEmailHistory (now σ) (emailSentHistory σ)).2
             with
             | Some k => [EvLog (LogCleanup k)]
             | None => []
             end)
       (alertAppeared σ),
     Resolved tt, n).
Proof.
  unfold cleanupOldEmailHistory, Dedup.cleanupOldEmailHistory. cbn [fst snd].
  rewrite run_bind, run_read. cbn beta iota.
  rewrite run_bind, run_emit. cbn beta iota. cbn [run].
  destruct (0 <? length (Dedup.keysToDelete (now σ) (emailSentHistory σ)))%nat.
  - rewrite run_log. unfold emitted, withHistory. simpl.
    by rewrite <- app_assoc.
  - cbn [run]. unfold emitted, withHistory. simpl. done.
Qed.

Lemma runOwn_cycleHead cfg cycleNumber today r w :
  runOwn (cycleHead cfg cycleNumber today) r w
  = (mkWorld (r_now r)
       (Dedup.cleanupOldEmailHistory (w_now w) (w_history w)).1
       (w_trace w
          ++ (CyOwn <$> cycleHeadEvents cfg cycleNumber today
                          (w_now w) (w_history w) r)),
     match r_throw r with
     | Some e => Rejected e
     | None =>
         Resolved (buildSearchTasks (gSearchList cfg) (getWeekDates today))
     end).
Proof.
  unfold runOwn, cycleHead, cycleHeadEvents.
  rewrite run_bind, run_log. cbn beta iota.
  rewrite run_bind, run_cleanupOldEmailHistory. cbn beta iota.
  rewrite run_bind, run_emit. cbn beta iota.
  rewrite run_bind, run_log. cbn beta iota.
  rewrite run_bind, run_log. cbn beta iota.
  rewrite run_bind, run_await. cbn beta iota.
  destruct (r_throw r); cbn [run];
    rewrite ?now_answered, ?history_answered, ?out_answered;
    cbn [now emailSentHistory out alertAppeared emitted withHistory startSync];
    rewrite <- ?app_assoc; simpl; rewrite <- ?app_assoc; reflexivity.
Qed.

Lemma runOwn_cycleTail cycleNumber body r w :
  runOwn (cycleTail cycleNumber body) r w
  = (mkWorld (r_now r) (w_history w)
       (w_trace w ++ (CyOwn <$> cycleTailEvents cycleNumber body r)),
     match r_throw r with
     | Some e => Rejected e
     | None => body
     end).
Proof.
  unfold runOwn, cycleTail, cycleTailEvents.
  destruct body as [[]|e];
    repeat (run_step || (progress cbn [run]));
    destruct (r_throw r); cbn [run rethrow];
    rewrite ?now_answered, ?history_answered, ?out_answered;
    cbn [now emailSentHistory out alertAppeared emitted withHistory startSync];
    rewrite <- ?app_assoc; reflexivity.
Qed.

(** [runCrawlingCycle], by the answer to the launch and by the way the
    batches end. *)
Lemma runCrawlingCycle_spec cfg cycleNumber env w :
  let head := cycleHeadEvents cfg cycleNumber (ce_today env)
                (w_now w) (w_history w) (ce_launch env) in
  let w1 := mkWorld (r_now (ce_launch env))
              (Dedup.cleanupOldEmailHistory (w_now w) (w_history w)).1
              (w_trace w ++ (CyOwn <$> head)) in
  let tasks := buildSearchTasks (gSearchList cfg)
                 (getWeekDates (ce_today env)) in
  runCrawlingCycle cfg cycleNumber env w
  = match r_throw (ce_launch env) with
    | Some e => (w1, Some (Rejected e))
    | None =>
        match runBatches cfg (length tasks) 0
                (batches CONCURRENT_LIMIT tasks) (ce_batches env) w1 with
        | (w2, Some body) =>
            (mkWorld (r_now (ce_close env)) (w_history w2)
               (w_trace w2
                  ++ (CyOwn <$> cycleTailEvents cycleNumber body (ce_close env))),
             Some match r_throw (ce_close env) with
                  | Some e => Rejected e
                  | None => body
                  end)
        | (w2, None) => (w2, None)
        end
    end.
Proof.
  intros head w1 tasks. unfold runCrawlingCycle.
  rewrite runOwn_cycleHead. fold head w1 tasks.
  destruct (r_throw (ce_launch env)); [done|].
  destruct (runBatches _ _ _ _ _ w1) as [w2 [body|]]; [|done].
  by rewrite runOwn_cycleTail.
Qed.

End cycle_runs.





(** ** A page that cannot be opened *)

Section page_open_failure.
Context (cfg : Config).
Implicit Types (w : World) (sts : list TaskState) (i index : nat).











End page_open_failure.



(** ** The trace of a cycle *)

Section cycle_trace.
Implicit Types (w : World) (new mid : list CycleEvent).

Lemma ownEvents_callStart total j n :
  ownEvents (flat_map (callStart total) (seq j n))
  = progressLine total <$> seq j n.
Proof.
  revert j. induction n as [|n IH]; intros j; [done|].
  simpl. f_equal. apply IH.
Qed.

Lemma awaited_progress total (js : list nat) :
  awaited (progressLine total <$> js) = [].
Proof. induction js as [|j js IH]; [done|]. exact IH. Qed.

(** The batches print their lines of progress, one before each call, and
    nothing else. *)
Lemma runBatches_own cfg total i bs scheds w w' res :
  runBatches cfg total i bs scheds w = (w', res) →
  ∃ new, w_trace w' = (w_trace w ++ new)%list
         ∧ ownEvents new = progressLine total <$> calls new.
Proof.
  revert i scheds w. induction bs as [|batch bs IH]; intros i scheds w Hrun;
    cbn [runBatches] in Hrun.
  - simplify_eq. exists []. by rewrite app_nil_r.
  - destruct (startBatch cfg total i 0 batch w) as [sts w1] eqn:Hstart.
    apply startBatch_spec in Hstart as (Htr1 & _ & _ & _ & _).
    rewrite Nat.add_0_r in Htr1.
    destruct (awaitAll i (hd [] scheds) sts w1) as [w2 r] eqn:Hall.
    apply awaitAll_trace in Hall as (new2 & Htr2 & Hc2 & Ho2 & _).
    assert ((w', res) = (w2, r)
            ∨ (r = Some (Resolved tt)
               ∧ runBatches cfg total (i + CONCURRENT_LIMIT) bs (tl scheds) w2
                 = (w', res))) as [Heq|[-> Hrest]].
    { destruct r as [[[]|e]|]; [by right|left..]; done. }
    + injection Heq as -> ->. eexists. rewrite Htr2, Htr1, <- app_assoc.
      split; [reflexivity|].
      by rewrite ownEvents_app, calls_app, Ho2, Hc2, !app_nil_r,
        ownEvents_callStart, calls_callStart.
    + apply IH in Hrest as (new3 & Htr3 & Ho3).
      eexists. rewrite Htr3, Htr2, Htr1, <- !app_assoc.
      split; [reflexivity|].
      rewrite !ownEvents_app, !calls_app, Ho2, Hc2, Ho3,
        ownEvents_callStart, calls_callStart, !fmap_app. done.
Qed.

(** No call asks for the browser or does the work of the cycle. *)
Lemma runBatches_obeys cfg total i bs scheds w w' res :
  runBatches cfg total i bs scheds w = (w', res) →
  ∃ new, w_trace w' = (w_trace w ++ new)%list
         ∧ ∀ j e, CyTask j e ∈ new → okEvent taskCmd taskEvent e = true.
Proof.
  intros Hrun.
  eapply (runBatches_inv cfg (Obeys taskCmd taskEvent true) (λ _, True)
            (λ e, okEvent taskCmd taskEvent e = true)) in Hrun as [Hnew _].
  - exact Hnew.
  - intros task. apply Obeys_checkReservation; try done. by intros [].
  - intros p σ σ' p' Hp Hadv.
    destruct (Obeys_advance _ _ _ _ _ _ _ Hp Hadv) as (Hp' & (evs & Hout & Hevs) & _).
    split; [done|]. exists evs. split; [done|].
    eapply Forall_impl; [exact Hevs|]. intros e He. unfold okEvent.
    by rewrite He.
  - intros c k Hp. inversion Hp as [| |c' k' Hc Hk| | | |]; subst.
    unfold okEvent. rewrite Hc. apply orb_true_r.
  - intros c k a Hp _. inversion Hp as [| |c' k' Hc Hk| | | |]; subst.
    split; [apply Hk|]. unfold okEvent. rewrite Hc. apply orb_true_r.
  - apply Forall_forall. intros sched _. apply Forall_forall. done.
Qed.

Lemma runCrawlingCycle_trace cfg cycleNumber env w :
  let tasks := buildSearchTasks (gSearchList cfg)
                 (getWeekDates (ce_today env)) in
  ∃ mid tail,
    w_trace (runCrawlingCycle cfg cycleNumber env w).1
    = (w_trace w
         ++ (CyOwn <$> cycleHeadEvents cfg cycleNumber (ce_today env)
                         (w_now w) (w_history w) (ce_launch env))
         ++ mid ++ (CyOwn <$> tail))%list
    ∧ ownEvents mid = progressLine (length tasks) <$> calls mid
    ∧ (∀ j e, CyTask j e ∈ mid → okEvent taskCmd taskEvent e = true)
    ∧ match r_throw (ce_launch env) with
      | Some e =>
          mid = [] ∧ tail = []
          ∧ (runCrawlingCycle cfg cycleNumber env w).2 = Some (Rejected e)
      | None =>
          match (runCrawlingCycle cfg cycleNumber env w).2 with
          | None => tail = []
          | Some r =>
              ∃ body,
                tail = cycleTailEvents cycleNumber body (ce_close env)
                ∧ r = match r_throw (ce_close env) with
                      | Some e => Rejected e
                      | None => body
                      end
          end
      end.
Proof.
  intros tasks. rewrite runCrawlingCycle_spec. cbn zeta. fold tasks.
  destruct (r_throw (ce_launch env)) as [e|] eqn:Hlaunch.
  { exists [], []. cbn [fst snd w_trace]. rewrite !app_nil_r.
    split_and!; try done. by intros j e' ?%elem_of_nil. }
  set (w1 := mkWorld _ _ _).
  destruct (runBatches cfg (length tasks) 0 (batches CONCURRENT_LIMIT tasks)
              (ce_batches env) w1) as [w2 res] eqn:Hrun.
  destruct (runBatches_own _ _ _ _ _ _ _ _ Hrun) as (new & Htr & Hown).
  destruct (runBatches_obeys _ _ _ _ _ _ _ _ Hrun) as (new' & Htr' & Hok).
  assert (new' = new) as -> by (rewrite Htr in Htr'; by apply app_inv_head in Htr').
  destruct res as [body|]; cbn [fst snd w_trace].
  - exists new, (cycleTailEvents cycleNumber body (ce_close env)).
    rewrite Htr. unfold w1. cbn [w_trace]. rewrite <- !app_assoc.
    split_and!; try done. by exists body.
  - exists new, []. rewrite Htr. unfold w1. cbn [w_trace].
    rewrite <- !app_assoc. simpl. rewrite app_nil_r. by split_and!.
Qed.

End cycle_trace.

(** X21: [cleanupOldEmailHistory] and [getWeekDates] are called once per
    cycle, at its start: the cycle opens with its banner, the cleanup of
    the history as the earlier cycles left it, at the reading of the clock
    at that moment, the computation of the dates, and the launch of the
    browser; only then is a task called.  No call of [checkReservation]
    cleans the history or computes the dates, and the cycle does neither a
    second time. *)
Theorem X21_cycle_start (cfg : Config) (cycleNumber : nat) (env : CycleEnv)
    (w : World) :
  ∃ rest,
    w_trace (runCrawlingCycle cfg cycleNumber env w).1
    = (w_trace w
         ++ (CyOwn <$> cycleHeadEvents cfg cycleNumber (ce_today env)
                         (w_now w) (w_history w) (ce_launch env))
         ++ rest)%list
    ∧ (∀ d, (CyOwn (EvCleanup d) ∉ rest)
            ∧ (∀ j, CyTask j (EvCleanup d) ∉ rest))
    ∧ (∀ dates, (CyOwn (EvWeekDates dates) ∉ rest)
                ∧ (∀ j, CyTask j (EvWeekDates dates) ∉ rest)).
Proof.
  destruct (runCrawlingCycle_trace cfg cycleNumber env w)
    as (mid & tail & Htr & Hown & Hok & Hend).
  exists (mid ++ (CyOwn <$> tail))%list. split; [exact Htr|].
  assert (∀ e, CyOwn e ∈ (mid ++ (CyOwn <$> tail))%list →
               (∃ j total, e = EvLog (LogProgress j total))
               ∨ e ∈ tail) as Hmine.
  { intros e [Hin|Hin]%elem_of_app.
    - left. assert (e ∈ ownEvents mid) as He.
      { apply list_elem_of_omap. by exists (CyOwn e). }
      rewrite Hown in He. apply list_elem_of_fmap in He as (j & -> & _).
      by eexists _, _.
    - right. by apply list_elem_of_fmap in Hin as (e' & [= <-] & ?). }
  assert (∀ e, e ∈ tail →
               (∃ n, e = EvLog (LogCycleDone n))
               ∨ (∃ c, e = EvAwait c) ∨ (∃ c r, e = EvResume c r)) as Htail.
  { intros e He. destruct (r_throw (ce_launch env)).
    - destruct Hend as (_ & -> & _). by apply elem_of_nil in He.
    - destruct (runCrawlingCycle cfg cycleNumber env w).2 as [r|].
      + destruct Hend as (body & -> & _). unfold cycleTailEvents in He.
        destruct body; simpl in He;
          repeat (apply elem_of_cons in He as [->|He]; [eauto 6|]);
          by apply elem_of_nil in He.
      + subst tail. by apply elem_of_nil in He. }
  assert (∀ j e, CyTask j e ∈ (mid ++ (CyOwn <$> tail))%list →
                 okEvent taskCmd taskEvent e = true) as Htask.
  { intros j e [Hin|Hin]%elem_of_app; [by eapply Hok|].
    by apply list_elem_of_fmap in Hin as (e' & [=] & _). }
  split.
  - intros d. split.
    + intros [(j & total & [=])|Hin]%Hmine.
      apply Htail in Hin as [(? & [=])|[(? & [=])|(? & ? & [=])]].
    + intros j Hin%Htask. done.
  - intros dates. split.
    + intros [(j & total & [=])|Hin]%Hmine.
      apply Htail in Hin as [(? & [=])|[(? & [=])|(? & ? & [=])]].
    + intros j Hin%Htask. done.
Qed.


(** ** The main loop *)

Ltac own_requests :=
  repeat first
    [ apply Forall_nil_2
    | apply Forall_cons_2; [first [by left | by right]|] ].

Section loop_trace.
Implicit Types (s : LoopState) (tr new : list CycleEvent).

Lemma cycleStarts_app tr1 tr2 :
  cycleStarts (tr1 ++ tr2) = (cycleStarts tr1 ++ cycleStarts tr2)%list.
Proof. unfold cycleStarts. by rewrite ownEvents_app, omap_app. Qed.

Lemma loopEnds_app tr1 tr2 :
  loopEnds (tr1 ++ tr2) = (loopEnds tr1 ++ loopEnds tr2)%list.
Proof. unfold loopEnds. by rewrite ownEvents_app, omap_app. Qed.

Lemma cycleErrors_app tr1 tr2 :
  cycleErrors (tr1 ++ tr2) = (cycleErrors tr1 ++ cycleErrors tr2)%list.
Proof. unfold cycleErrors. by rewrite ownEvents_app, omap_app. Qed.

Lemma ownRequests_app tr1 tr2 :
  ownRequests (tr1 ++ tr2) = (ownRequests tr1 ++ ownRequests tr2)%list.
Proof. unfold ownRequests. by rewrite ownEvents_app, awaited_app. Qed.

(** What the lines of progress of the batches are not. *)
Lemma progress_silent total (js : list nat) :
  omap (λ e, match e with EvLog (LogCycleStart n) => Some n | _ => None end)
       (progressLine total <$> js) = []
  ∧ omap (λ e, match e with EvLog LogLoopEnd => Some tt | _ => None end)
         (progressLine total <$> js) = []
  ∧ omap (λ e, match e with
               | EvLog (LogCycleError n e) => Some (n, e)
               | _ => None
               end)
         (progressLine total <$> js) = [].
Proof. induction js as [|j js IH]; [done|]. exact IH. Qed.

(** One cycle in the trace: its number is printed once, and nothing of
    the main loop. *)
Lemma runCrawlingCycle_lines cfg cycleNumber env w :
  ∃ new,
    w_trace (runCrawlingCycle cfg cycleNumber env w).1
    = (w_trace w ++ new)%list
    ∧ cycleStarts new = [cycleNumber]
    ∧ loopEnds new = [] ∧ cycleErrors new = []
    ∧ Forall (λ c, c = CmdLaunch ∨ c = CmdBrowserClose) (ownRequests new).
Proof.
  destruct (runCrawlingCycle_trace cfg cycleNumber env w)
    as (mid & tail & Htr & Hown & _ & Hend).
  eexists. split; [exact Htr|].
  destruct (progress_silent
              (length (buildSearchTasks (gSearchList cfg)
                         (getWeekDates (ce_today env)))) (calls mid))
    as (Hs & He & Hr).
  assert (tail = [] ∨ ∃ body, tail = cycleTailEvents cycleNumber body
                                       (ce_close env)) as Htail.
  { destruct (r_throw (ce_launch env)); [left; apply Hend|].
    destruct (runCrawlingCycle cfg cycleNumber env w).2;
      [|by left].
    destruct Hend as (body & -> & _). eauto. }
  unfold cycleStarts, loopEnds, cycleErrors, ownRequests.
  rewrite !ownEvents_app, !ownEvents_own, Hown, !omap_app, Hs, He, Hr,
    !awaited_app, awaited_progress.
  unfold cycleHeadEvents. cbn zeta. rewrite !omap_app, !awaited_app.
  destruct (Dedup.cleanupOldEmailHistory (w_now w) (w_history w)).2;
    destruct Htail as [->|[[[]|e] ->]]; simpl;
    split_and!; try done; own_requests.
Qed.

Lemma loopBody_lines cfg env s :
  ∃ new,
    w_trace (l_world (loopBody cfg env s))
    = (w_trace (l_world s) ++ new)%list
    ∧ cycleStarts new = [l_cycleNumber s]
    ∧ l_attempts (loopBody cfg env s) = S (l_attempts s)
    ∧ l_cycleNumber (loopBody cfg env s)
      = (l_cycleNumber s + length (loopEnds new))%nat
    ∧ (length (loopEnds new) ≤ 1)%nat
    ∧ Forall (λ ne, ne.1 = l_cycleNumber s) (cycleErrors new)
    ∧ (l_status (loopBody cfg env s) = AtLoopHead →
       (length (loopEnds new) + length (cycleErrors new) = 1)%nat)
    ∧ Forall (λ c, c = CmdLaunch ∨ c = CmdBrowserClose) (ownRequests new).
Proof.
  unfold loopBody.
  destruct (runCrawlingCycle_lines cfg (l_cycleNumber s) env
              (own [EvLog LogLoopStart] (l_world s)))
    as (new & Htr & Hs & He & Hr & Hq).
  destruct (runCrawlingCycle cfg (l_cycleNumber s) env
              (own [EvLog LogLoopStart] (l_world s))) as [w1 [[[]|e]|]];
    cbn [fst l_world l_attempts l_cycleNumber l_status own w_trace
         w_now w_history] in *;
    eexists; rewrite Htr, <- !app_assoc;
    (split; [reflexivity|]);
    rewrite !cycleStarts_app, !loopEnds_app, !cycleErrors_app,
      !ownRequests_app, Hs, He, Hr; simpl;
    split_and!; try done; try lia; auto;
    try (apply Forall_app; split; [done|]); own_requests;
    repeat constructor.
Qed.

Lemma mainLoop_lines cfg envs s :
  l_status s = AtLoopHead →
  ∃ new,
    w_trace (l_world (mainLoop cfg envs s)) = (w_trace (l_world s) ++ new)%list
    ∧ l_attempts (mainLoop cfg envs s)
      = (l_attempts s + length (cycleStarts new))%nat
    ∧ l_cycleNumber (mainLoop cfg envs s)
      = (l_cycleNumber s + length (loopEnds new))%nat
    ∧ (length (cycleStarts new) ≤ length envs)%nat
    ∧ (l_status (mainLoop cfg envs s) = AtLoopHead →
       length (cycleStarts new) = length envs
       ∧ (length (loopEnds new) + length (cycleErrors new)
          = length envs)%nat)
    ∧ head (cycleStarts new)
      = match envs with [] => None | _ => Some (l_cycleNumber s) end
    ∧ (∀ k n m, cycleStarts new !! k = Some n →
                cycleStarts new !! S k = Some m → (n ≤ m ≤ S n)%nat)
    ∧ Forall (λ ne, ne.1 ∈ cycleStarts new) (cycleErrors new)
    ∧ Forall (λ c, c = CmdLaunch ∨ c = CmdBrowserClose) (ownRequests new).
Proof.
  revert s. induction envs as [|env envs IH]; intros s Hhead.
  - exists []. simpl. rewrite app_nil_r.
    split_and!; try done; try lia; constructor.
  - cbn [mainLoop]. rewrite Hhead.
    destruct (loopBody_lines cfg env s)
      as (new1 & Htr1 & Hs1 & Ha1 & Hn1 & Hle1 & He1 & Hh1 & Hq1).
    destruct (l_status (loopBody cfg env s)) eqn:Hst.
    + destruct (IH (loopBody cfg env s) Hst)
        as (new2 & Htr2 & Ha2 & Hn2 & Hle2 & Hh2 & Hfirst2 & Hstep2 & He2 & Hq2).
      specialize (Hh1 eq_refl).
      exists (new1 ++ new2)%list. rewrite Htr2, Htr1, app_assoc.
      rewrite !cycleStarts_app, !loopEnds_app, !cycleErrors_app,
        !ownRequests_app, !length_app, Hs1. simpl.
      split_and!; try done; try lia.
      * intros Hfinal. destruct (Hh2 Hfinal). lia.
      * intros k n m Hn Hm. destruct k as [|k]; simpl in Hn;
          [|by eapply Hstep2].
        injection Hn as <-.
        destruct (cycleStarts new2) as [|m' ms]; [done|].
        simpl in Hm, Hfirst2. injection Hm as <-.
        destruct envs; [done|]. injection Hfirst2 as ->. lia.
      * apply Forall_app. split.
        -- eapply Forall_impl; [exact He1|]. intros [n e] ->. left.
        -- eapply Forall_impl; [exact He2|]. intros [n e] ?. by right.
      * by apply Forall_app.
    + assert (mainLoop cfg envs (loopBody cfg env s) = loopBody cfg env s)
        as ->.
      { destruct envs; cbn [mainLoop]; by rewrite ?Hst. }
      exists new1. rewrite Hs1, Hst. simpl.
      split_and!; try done; try lia.
      eapply Forall_impl; [exact He1|]. intros [n e] ->. left.
Qed.

End loop_trace.



(** X24: neither the main loop nor a cycle ever waits by itself.  The
    only requests they make are the launch of the browser and its closing:
    there is no pause between two cycles, nor after a cycle that failed
    - every delay of the process is a delay inside a call of
    [checkReservation]. *)
Theorem X24_no_pause (cfg : Config) (envs : list CycleEnv) (s : LoopState)
    (Hhead : l_status s = AtLoopHead) :
  ∃ new,
    w_trace (l_world (mainLoop cfg envs s))
    = (w_trace (l_world s) ++ new)%list
    ∧ Forall (λ c, c = CmdLaunch ∨ c = CmdBrowserClose) (ownRequests new)
    ∧ ∀ ms, CyOwn (EvAwait (CmdDelay ms)) ∉ new.
Proof.
  destruct (mainLoop_lines cfg envs s Hhead)
    as (new & Htr & _ & _ & _ & _ & _ & _ & _ & Hq).
  exists new. split_and!; try done.
  intros ms Hin.
  assert (CmdDelay ms ∈ ownRequests new) as Hreq.
  { unfold ownRequests, awaited. apply list_elem_of_omap.
    exists (EvAwait (CmdDelay ms)). split; [|done].
    apply list_elem_of_omap. by exists (CyOwn (EvAwait (CmdDelay ms))). }
  rewrite Forall_forall in Hq. by destruct (Hq _ Hreq).
Qed.

Lemma X24_no_pause_witness :
  ∃ new,
    w_trace (l_world (mainLoop sampleConfig [noBrowser; idleEnv]
                               (initialLoop 0)))
    = (w_trace (l_world (initialLoop 0)) ++ new)%list
    ∧ Forall (λ c, c = CmdLaunch ∨ c = CmdBrowserClose) (ownRequests new)
    ∧ ∀ ms, CyOwn (EvAwait (CmdDelay ms)) ∉ new.
Proof.
  apply (X24_no_pause sampleConfig [noBrowser; idleEnv] (initialLoop 0)).
  reflexivity.
Defined.

(** X25: a process without targets spins.  [G_SEARCH_LIST] is not looked
    at by the check made when the module is loaded; when the list of
    targets is empty and the browser can be launched and closed, a cycle
    launches the browser, calls no task, prints its line of completion and
    closes the browser, and the main loop goes on at once with the next
    cycle number. *)
Theorem X25_no_target (cfg : Config) (env : CycleEnv) (s : LoopState)
    (Hempty : gSearchList cfg = [])
    (Hlaunch : r_throw (ce_launch env) = None)
    (Hclose : r_throw (ce_close env) = None) :
  let w := l_world s in
  loopBody cfg env s
  = mkLoop
      (mkWorld (r_now (ce_close env))
         (Dedup.cleanupOldEmailHistory (w_now w) (w_history w)).1
         (w_trace w
            ++ [CyOwn (EvLog LogLoopStart)]
            ++ (CyOwn <$> cycleHeadEvents cfg (l_cycleNumber s) (ce_today env)
                            (w_now w) (w_history w) (ce_launch env))
            ++ [CyOwn (EvLog (LogCycleDone (l_cycleNumber s)));
                CyOwn (EvAwait CmdBrowserClose);
                CyOwn (EvResume CmdBrowserClose (ce_close env));
                CyOwn (EvLog LogLoopEnd)]))
      (S (l_cycleNumber s)) (S (l_attempts s)) AtLoopHead
  ∧ EvLog (LogTaskCount 0 0 7)
    ∈ cycleHeadEvents cfg (l_cycleNumber s) (ce_today env)
        (w_now w) (w_history w) (ce_launch env).
Proof.
  intros w. split.
  - unfold loopBody. rewrite runCrawlingCycle_spec. cbn zeta.
    rewrite Hlaunch, Hempty. cbn [buildSearchTasks flat_map length batches
                                  batchesFrom runBatches].
    rewrite Hclose. unfold own, cycleTailEvents.
    cbn [w_now w_history w_trace app]. fold w.
    f_equal. f_equal. rewrite <- !app_assoc. reflexivity.
  - unfold cycleHeadEvents. rewrite Hempty. cbn zeta.
    apply elem_of_app. right. apply elem_of_app. right.
    right. right. left.
Qed.

Lemma X25_no_target_witness :
  let cfg := mkConfig false [] in
  let env := idleEnv in
  let s := initialLoop 0 in
  let w := l_world s in
  loopBody cfg env s
  = mkLoop
      (mkWorld (r_now (ce_close env))
         (Dedup.cleanupOldEmailHistory (w_now w) (w_history w)).1
         (w_trace w
            ++ [CyOwn (EvLog LogLoopStart)]
            ++ (CyOwn <$> cycleHeadEvents cfg (l_cycleNumber s) (ce_today env)
                            (w_now w) (w_history w) (ce_launch env))
            ++ [CyOwn (EvLog (LogCycleDone (l_cycleNumber s)));
                CyOwn (EvAwait CmdBrowserClose);
                CyOwn (EvResume CmdBrowserClose (ce_close env));
                CyOwn (EvLog LogLoopEnd)]))
      (S (l_cycleNumber s)) (S (l_attempts s)) AtLoopHead
  ∧ EvLog (LogTaskCount 0 0 7)
    ∈ cycleHeadEvents cfg (l_cycleNumber s) (ce_today env)
        (w_now w) (w_history w) (ce_launch env).
Proof.
  apply (X25_no_target (mkConfig false []) idleEnv (initialLoop 0));
    reflexivity.
Defined.

(** ** The window from one day to the next *)

Section sliding.
Implicit Types (d : CalDate) (n k : nat).

Lemma weekLoop_snoc n d :
  weekLoop (S n) d
  = (weekLoop n d ++ [formatYYYYMMDD (Nat.iter n addDay d)])%list.
Proof.
  revert d. induction n as [|n IH]; intros d; [done|].
  change (weekLoop (S (S n)) d)
    with (formatYYYYMMDD d :: weekLoop (S n) (addDay d)).
  rewrite IH, <- Nat.iter_succ_r. done.
Qed.

Lemma weekLoop_shift n k d :
  weekLoop n (Nat.iter k addDay d) = drop k (weekLoop (k + n) d).
Proof.
  revert d. induction k as [|k IH]; intros d; [done|].
  change (weekLoop (S k + n) d)
    with (formatYYYYMMDD d :: weekLoop (k + n) (addDay d)).
  rewrite Nat.iter_succ_r. cbn [drop]. apply IH.
Qed.

Lemma weekLoop_take n k d : take n (weekLoop (n + k) d) = weekLoop n d.
Proof.
  revert d. induction n as [|n IH]; intros d; [done|].
  simpl. by rewrite IH.
Qed.

End sliding.

(** X26: the window slides with the calendar.  [k] days later ([k] up to
    7) the window has lost its first [k] dates and gained [k] new ones at
    its end: its first [7 - k] dates are the last [7 - k] dates of the
    earlier window.  The window of the next day is the window of the day
    without its first date, followed by the date of a week later; and the
    date that a task prints with dashes is the date of the task. *)
Theorem X26_window_slides (today : CalDate) (k : nat) (Hk : (k ≤ 7)%nat) :
  take (7 - k) (getWeekDates (Nat.iter k addDay today))
  = drop k (getWeekDates today)
  ∧ getWeekDates (addDay today)
    = (drop 1 (getWeekDates today)
         ++ [formatYYYYMMDD (Nat.iter 7 addDay today)])%list
  ∧ ∀ d, formatDashed (formatYYYYMMDD d)
         = (pad4 (year d) ++ "-" ++ pad2 (month d) ++ "-" ++ pad2 (day d))%string.
Proof.
  unfold getWeekDates. split; [|split].
  - rewrite (weekLoop_shift 7 k today).
    rewrite <- (weekLoop_take 7 k today).
    rewrite take_drop_commute.
    replace (k + (7 - k))%nat with 7%nat by lia.
    by rewrite (Nat.add_comm k 7).
  - change (addDay today) with (Nat.iter 1 addDay today) at 1.
    rewrite (weekLoop_shift 7 1 today).
    change (1 + 7)%nat with (S 7). rewrite weekLoop_snoc.
    rewrite drop_app_le by (rewrite length_weekLoop; lia). done.
  - intros d. reflexivity.
Qed.

Lemma X26_window_slides_witness :
  take (7 - 2) (getWeekDates (Nat.iter 2 addDay (mkDate 2024 12 30)))
  = drop 2 (getWeekDates (mkDate 2024 12 30))
  ∧ getWeekDates (addDay (mkDate 2024 12 30))
    = (drop 1 (getWeekDates (mkDate 2024 12 30))
         ++ [formatYYYYMMDD (Nat.iter 7 addDay (mkDate 2024 12 30))])%list
  ∧ ∀ d, formatDashed (formatYYYYMMDD d)
         = (pad4 (year d) ++ "-" ++ pad2 (month d) ++ "-" ++ pad2 (day d))%string.
Proof. apply (X26_window_slides (mkDate 2024 12 30) 2). lia. Defined.

(** ** Two tasks for one url *)




(** ** The requests of a call, bounded *)

Section at_most.
Context {A : Type} (wt : Cmd → nat).
Implicit Types (p : Proc A) (n m : nat).

Lemma cost_app cs1 cs2 :
  cost wt (cs1 ++ cs2) = (cost wt cs1 + cost wt cs2)%nat.
Proof. induction cs1 as [|c cs1 IH]; simpl; [done|]. rewrite IH. lia. Qed.

Lemma AtMost_bind {B} p (f : A → Proc B) n m :
  AtMost wt n p → (∀ a, AtMost wt m (f a)) → AtMost wt (n + m) (bind p f).
Proof.
  intros Hp Hf. induction Hp; simpl.
  - eapply Am_le; [apply Hf|lia].
  - apply Am_Throw.
  - eapply Am_le; [apply Am_Await; eauto|lia].
  - apply Am_Read. eauto.
  - apply Am_Emit; eauto.
  - apply Am_SetHistory; eauto.
  - apply Am_SetAlert; eauto.
  - eapply Am_le; [eauto|lia].
Qed.

Lemma AtMost_try p n : AtMost wt n p → AtMost wt n (try_ p).
Proof.
  induction 1; simpl.
  - apply Am_Ret.
  - apply Am_Ret.
  - apply Am_Await. eauto.
  - apply Am_Read. eauto.
  - apply Am_Emit; eauto.
  - apply Am_SetHistory; eauto.
  - apply Am_SetAlert; eauto.
  - eapply Am_le; eauto.
Qed.

Lemma AtMost_run p n env k σ σ' res k' :
  AtMost wt n p → run p env k σ = (σ', res, k') →
  (cost wt (awaited (out σ')) ≤ cost wt (awaited (out σ)) + n)%nat.
Proof.
  intros Hp. revert k σ.
  induction Hp as [n a|n e|n c f _ IH|n f _ IH|n e f He _ IH|n h f _ IH
                   |n b f _ IH|n m p _ IH Hle];
    intros k σ Hrun; simpl in Hrun.
  - simplify_eq. lia.
  - simplify_eq. lia.
  - apply IH in Hrun. simpl in Hrun.
    rewrite awaited_app, cost_app in Hrun. simpl in Hrun. lia.
  - by apply IH in Hrun.
  - apply IH in Hrun. simpl in Hrun.
    rewrite awaited_app, He, app_nil_r in Hrun. lia.
  - by apply IH in Hrun.
  - by apply IH in Hrun.
  - apply IH in Hrun. lia.
Qed.

End at_most.

Section budget.
Context (wt : Cmd → nat) (wGoto wMail : nat).
Hypothesis wt_text : ∀ handle, wt (CmdTextOf handle) = 0%nat.
Hypothesis wt_click : ∀ handle, wt (CmdClick handle) = 0%nat.
Hypothesis wt_detail : wt CmdReadDetail = 0%nat.
Hypothesis wt_goto : ∀ u, wt (CmdGoto u) = wGoto.
Hypothesis wt_mail : ∀ u name, wt (CmdSendMail u name) = wMail.

Lemma AtMost_deliverDialogs msgs : AtMost wt 0 (deliverDialogs msgs).
Proof.
  induction msgs as [|msg msgs IH]; simpl; [constructor|].
  repeat (constructor; try done).
Qed.

Lemma AtMost_awaitAny c : AtMost wt (wt c) (awaitAny c).
Proof.
  unfold awaitAny. eapply Am_le; [|apply Nat.le_refl].
  rewrite <- (Nat.add_0_r (wt c)). constructor. intros r.
  unfold read. simpl. constructor. intros σ.
  change 0%nat with (0 + 0)%nat. apply AtMost_bind; [|constructor].
  destruct (alertAppeared σ); [apply AtMost_deliverDialogs|constructor].
Qed.

Lemma AtMost_await c : AtMost wt (wt c) (await c).
Proof.
  unfold await. rewrite <- (Nat.add_0_r (wt c)).
  apply AtMost_bind; [apply AtMost_awaitAny|].
  intros r. destruct (r_throw r); constructor.
Qed.

Lemma AtMost_log {A} m (k : Proc A) n :
  AtMost wt n k → AtMost wt n (log m;; k).
Proof.
  intros Hk. change (AtMost wt n (Emit (EvLog m) k)). by constructor.
Qed.

Lemma AtMost_emit {A} e (k : Proc A) n :
  awaited [e] = [] → AtMost wt n k → AtMost wt n (emit e;; k).
Proof.
  intros He Hk. change (AtMost wt n (Emit e k)). by constructor.
Qed.

Lemma AtMost_scanReserveButtons attempt handles :
  AtMost wt 0 (scanReserveButtons attempt handles).
Proof.
  induction handles as [|handle handles IH]; cbn [scanReserveButtons];
    [constructor|].
  eapply Am_le;
    [eapply (AtMost_bind _ _ _ (wt (CmdTextOf handle)) 0);
     [apply AtMost_await|]|rewrite wt_text; lia].
  intros t. destruct (includes (r_text t) reserveMarker); [|exact IH].
  apply AtMost_log.
  eapply Am_le;
    [eapply (AtMost_bind _ _ _ (wt (CmdClick handle)) 0);
     [apply AtMost_await|]|rewrite wt_click; lia].
  intros _. apply AtMost_log.
  eapply Am_le;
    [eapply (AtMost_bind _ _ _ (wt CmdReadDetail) 0);
     [apply AtMost_await|]|rewrite wt_detail; lia].
  intros d. constructor.
Qed.

Lemma AtMost_reserveRetry attempt :
  AtMost wt (if (attempt <? maxReserveButtonAttempts)%nat
             then wt CmdReload + wt (CmdDelay 500) else 0)
         (reserveRetry attempt).
Proof.
  unfold reserveRetry.
  destruct (attempt <? maxReserveButtonAttempts)%nat; [|constructor].
  apply AtMost_log.
  apply AtMost_bind; [apply AtMost_await|]. intros _.
  rewrite <- (Nat.add_0_r (wt (CmdDelay 500))).
  apply AtMost_bind; [apply AtMost_awaitAny|]. intros _. constructor.
Qed.

Lemma AtMost_locateReserveButton k attempt :
  AtMost wt (k * wt CmdQueryAnchors
             + (maxReserveButtonAttempts - attempt)
               * (wt CmdReload + wt (CmdDelay 500)))
         (locateReserveButton k attempt).
Proof.
  revert attempt. induction k as [|k IH]; intros attempt;
    [constructor|].
  cbn [locateReserveButton].
  eapply Am_le.
  - apply AtMost_bind; [apply AtMost_await|]. intros q.
    eapply (AtMost_bind _ _ _ 0); [apply AtMost_scanReserveButtons|].
    intros [bookingName|]; [constructor|].
    apply AtMost_bind; [apply AtMost_reserveRetry|]. intros _. apply IH.
  - unfold maxReserveButtonAttempts.
    destruct (Nat.ltb_spec attempt 5); nia.
Qed.

Lemma AtMost_nonMemberRetry attempt :
  AtMost wt (if (attempt <? maxNonMemberButtonAttempts)%nat
             then wt (CmdDelay 500) else 0)
         (nonMemberRetry attempt).
Proof.
  unfold nonMemberRetry.
  destruct (attempt <? maxNonMemberButtonAttempts)%nat; [|constructor].
  apply AtMost_log.
  rewrite <- (Nat.add_0_r (wt (CmdDelay 500))).
  apply AtMost_bind; [apply AtMost_awaitAny|]. intros _. constructor.
Qed.

Lemma AtMost_clickNonMember k attempt :
  AtMost wt (k * wt CmdEvalNonMember
             + (maxNonMemberButtonAttempts - attempt) * wt (CmdDelay 500))
         (clickNonMember k attempt).
Proof.
  revert attempt. induction k as [|k IH]; intros attempt;
    [constructor|].
  cbn [clickNonMember].
  eapply Am_le.
  - apply AtMost_bind; [apply AtMost_await|]. intros q.
    destruct (nonMemberClick (r_dom q)) as [button|].
    + simpl. constructor; [done|]. constructor; [done|]. constructor.
    + apply AtMost_bind; [apply AtMost_nonMemberRetry|]. intros _. apply IH.
  - unfold maxNonMemberButtonAttempts.
    destruct (Nat.ltb_spec attempt 5); nia.
Qed.

Lemma AtMost_notify cfg task formattedDate bookingName :
  AtMost wt (wMail + wt CmdResolved)
         (notify cfg task formattedDate bookingName).
Proof.
  unfold notify, canSendEmail.
  change (wMail + wt CmdResolved)%nat with (0 + (wMail + wt CmdResolved))%nat.
  apply AtMost_bind.
  { simpl. constructor. intros σ. constructor; [done|]. constructor. }
  intros [|].
  - rewrite <- (Nat.add_0_r (wMail + wt CmdResolved)).
    apply AtMost_bind.
    + unfold sendEmail. apply AtMost_emit; [done|].
      destruct (isDevelopment cfg).
      * apply AtMost_log. unfold awaitResolved.
        eapply Am_le; [apply Am_Await; intros; apply (Am_Ret wt 0)|lia].
      * eapply Am_le.
        -- eapply (AtMost_bind _ _ _ _ 0); [apply AtMost_await|].
           intros _. constructor.
        -- rewrite wt_mail. lia.
    + intros _. unfold recordEmailSent. simpl. constructor. intros σ.
      constructor. constructor; [done|]. constructor; [done|]. constructor.
  - simpl. constructor. intros σ. constructor; [done|]. constructor.
Qed.

Lemma AtMost_observeResult cfg task currentUrl bookingName :
  AtMost wt (2 * wt (CmdDelay 1000) + wMail + wt CmdResolved)
         (observeResult cfg task currentUrl bookingName).
Proof.
  unfold observeResult. eapply Am_le.
  - apply AtMost_bind; [apply AtMost_awaitAny|]. intros _.
    eapply (AtMost_bind _ _ _ 0); [simpl; constructor; intros; constructor|].
    intros σ.
    eapply (Am_le _ (wt (CmdDelay 1000) + (wMail + wt CmdResolved)));
      [|apply Nat.le_refl].
    destruct (bool_decide (alertAppeared σ = Some true)).
    + apply AtMost_log. constructor.
    + apply AtMost_bind; [apply AtMost_awaitAny|]. intros w. cbn zeta.
      destruct (negb (String.eqb currentUrl (r_url w))).
      * apply AtMost_log. apply AtMost_log.
        rewrite <- (Nat.add_0_r (wMail + wt CmdResolved)).
        apply AtMost_bind; [apply AtMost_notify|]. intros _. constructor.
      * apply AtMost_log. constructor.
  - lia.
Qed.

(** The budget of one call of [checkReservation]. *)
Lemma AtMost_checkReservation cfg task :
  AtMost wt (wt CmdNewPage + wGoto + wt CmdSetViewport
             + 5 * wt CmdQueryAnchors + 4 * wt CmdReload
             + 9 * wt (CmdDelay 500) + wt CmdContent
             + 5 * wt CmdEvalNonMember + 3 * wt (CmdDelay 1000)
             + wMail + wt CmdResolved + wt CmdPageClose)
         (checkReservation cfg task).
Proof.
  unfold checkReservation, tryCatchFinally. eapply Am_le.
  - apply AtMost_bind; [apply AtMost_await|]. intros _.
    apply AtMost_bind.
    + apply AtMost_bind.
      * apply AtMost_try. unfold probe.
        apply AtMost_bind.
        { unfold navigate. apply AtMost_log. apply AtMost_log.
          apply AtMost_bind; [apply AtMost_await|]. intros _.
          eapply (AtMost_bind _ _ _ _ 0); [apply AtMost_await|].
          intros v. constructor. constructor. }
        intros currentUrl.
        apply AtMost_bind; [apply AtMost_locateReserveButton|].
        intros found.
        eapply (Am_le _ (wt CmdContent
                          + (wt (CmdDelay 500)
                             + (5 * wt CmdEvalNonMember
                                + 4 * wt (CmdDelay 500)
                                + (2 * wt (CmdDelay 1000) + wMail
                                   + wt CmdResolved)))));
          [|apply Nat.le_refl].
        destruct found as [bookingName|].
        -- eapply Am_le.
           ++ unfold engageNonMember.
              apply AtMost_bind.
              { apply AtMost_bind; [apply AtMost_awaitAny|]. intros _.
                apply (AtMost_clickNonMember 5 1). }
              intros clicked.
              eapply (Am_le _ (2 * wt (CmdDelay 1000) + wMail
                                + wt CmdResolved));
                [|apply Nat.le_refl].
              destruct clicked; [apply AtMost_observeResult|].
              apply AtMost_log. constructor.
           ++ unfold maxNonMemberButtonAttempts. lia.
        -- eapply Am_le.
           ++ unfold reportMissing. apply AtMost_log.
              eapply (AtMost_bind _ _ _ _ 0); [apply AtMost_await|].
              intros c. apply AtMost_log. constructor.
           ++ lia.
      * intros r.
        eapply (AtMost_bind _ _ _ 0).
        { destruct r as [e|o]; [|constructor].
          apply AtMost_try. apply AtMost_log. constructor. }
        intros r'.
        eapply (AtMost_bind _ _ _ _ 0).
        { eapply (AtMost_bind _ _ _ _ 0); [apply AtMost_await|].
          intros _. constructor. }
        intros _. destruct r'; constructor.
    + intros o.
      eapply (AtMost_bind _ _ _ _ 0); [apply AtMost_awaitAny|].
      intros _. constructor.
  - rewrite wt_goto. unfold maxReserveButtonAttempts. simpl. lia.
Qed.

End budget.

(** X28: whatever the outside answers, one call of [checkReservation] asks
    for the links of the page at most 5 times, reloads the page at most 4
    times, looks for the non-member button at most 5 times, navigates at
    most once, sends at most one mail, and asks for at most 12 delays, of 7.5
    seconds in all.  A page that shows each button on the fifth look only
    reaches every one of these ceilings. *)
Theorem X28_request_ceilings :
  (∀ (cfg : Config) (task : SearchTask) (env : Driver) (t : Z)
     (h : gmap string Z),
     let cs :=
       awaited (out (run (checkReservation cfg task) env 0
                         (startSync t h)).1.1) in
     (cost (one isQueryAnchors) cs ≤ 5)%nat
     ∧ (cost (one isReload) cs ≤ 4)%nat
     ∧ (cost (one isEvalNonMember) cs ≤ 5)%nat
     ∧ (cost (one isGoto) cs ≤ 1)%nat
     ∧ (cost (one isSendMail) cs ≤ 1)%nat
     ∧ (cost (one isDelay) cs ≤ 12)%nat
     ∧ Z.of_nat (cost sleep cs) ≤ 7500)
  ∧ (let cs :=
       awaited (out (run (checkReservation sampleConfig sampleTask) slowPage 0
                         (startSync 0 ∅)).1.1) in
     cost (one isQueryAnchors) cs = 5%nat ∧ cost (one isReload) cs = 4%nat
     ∧ cost (one isEvalNonMember) cs = 5%nat ∧ cost (one isGoto) cs = 1%nat
     ∧ cost (one isSendMail) cs = 1%nat ∧ cost (one isDelay) cs = 12%nat
     ∧ Z.of_nat (cost sleep cs) = 7500).
Proof.
  split; [|vm_compute; done].
  intros cfg task env t h cs.
  destruct (run (checkReservation cfg task) env 0 (startSync t h))
    as [[σ res] n] eqn:Hrun.
  subst cs. cbn [fst].
  assert (Hall : ∀ wt wGoto wMail,
             (∀ handle, wt (CmdTextOf handle) = 0%nat) →
             (∀ handle, wt (CmdClick handle) = 0%nat) →
             wt CmdReadDetail = 0%nat →
             (∀ u, wt (CmdGoto u) = wGoto) →
             (∀ u name, wt (CmdSendMail u name) = wMail) →
             (cost wt (awaited (out σ))
              ≤ wt CmdNewPage + wGoto + wt CmdSetViewport
                + 5 * wt CmdQueryAnchors + 4 * wt CmdReload
                + 9 * wt (CmdDelay 500) + wt CmdContent
                + 5 * wt CmdEvalNonMember + 3 * wt (CmdDelay 1000)
                + wMail + wt CmdResolved + wt CmdPageClose)%nat).
  { intros wt wGoto wMail H1 H2 H3 H4 H5.
    apply (AtMost_run wt _ _ _ _ _ _ _ _
             (AtMost_checkReservation wt wGoto wMail H1 H2 H3 H4 H5 cfg task))
      in Hrun.
    exact Hrun. }
  repeat split.
  - apply (Hall (one isQueryAnchors) 0%nat 0%nat); done.
  - apply (Hall (one isReload) 0%nat 0%nat); done.
  - apply (Hall (one isEvalNonMember) 0%nat 0%nat); done.
  - apply (Hall (one isGoto) 1%nat 0%nat); done.
  - apply (Hall (one isSendMail) 0%nat 1%nat); done.
  - apply (Hall (one isDelay) 0%nat 0%nat); done.
  - assert (cost sleep (awaited (out σ)) ≤ 15 * 500)%nat as Hsleep
      by (apply (Hall sleep 0%nat 0%nat); done).
    lia.
Qed.
